(** * Black-Scholes option analytics and volatility estimation

    A shallow embedding of [FullBlackScholes.py]: the pricing function
    [black_scholes], the per-strike sensitivities [calculate_greeks], the
    helper [safe_divide], and the volatility estimator
    [calculate_annualized_volatility] with [get_garch_volatility].

    Numbers.  The program computes with NumPy double-precision values.
    They are modelled by [num]: a real number, one of the two infinities,
    or NaN.  Arithmetic on [num] is exact on the reals and follows
    IEEE 754 for the special values, which is what the program's guards
    ([np.isnan], [== 0]) and its [safe_divide] observe.  Division is
    NumPy's: a zero divisor gives an infinity or NaN, never an exception.
    Rounding is not represented; neither is the overflow of a finite
    result to an infinity, its underflow to zero, or the sign of a zero.
    A property that depends on the size of an intermediate result is
    therefore stated with explicit bounds on the inputs (see the range
    of double precision below), and none is stated about the sign of a
    quotient by a negative zero.

    Library functions.  [np.log], [np.exp], [np.sqrt], [norm.pdf] are the
    real functions of the same name extended to the special values;
    [norm.cdf] is the standard normal distribution function [Phi], built
    below from the integral of the Gaussian density.  The pandas and arch
    calls of the volatility estimator are parameters of the section that
    embeds it; logging and exceptions are explicit in the monad [M].

    The file first builds [Phi] and the analytic facts the pricing
    results rest on, then embeds the program, then states and proves its
    properties. *)

From Stdlib Require Import Reals Lra Lia List String Bool Arith.
From Stdlib Require Import Classical_Prop FunctionalExtensionality.
Import ListNotations.
Local Open Scope R_scope.

(** ** Analytic preliminaries: primitives of continuous functions *)

Lemma quotient_bounds (I h l u : R) :
  0 < h -> l * h <= I <= u * h -> l <= I / h <= u.
Proof.
  intros Hh [Hlo Hhi].
  assert (E : I / h * h = I) by (field; lra).
  split; apply Rmult_le_reg_r with h; lra.
Qed.

(** The primitive [prim0] of a continuous function that vanishes at 0,
    and its derivative. *)
Section Primitive.
Variable f : R -> R.
Hypothesis f_cont : continuity f.

Lemma integrable_cont (a b : R) : Riemann_integrable f a b.
Proof.
  destruct (Rle_dec a b) as [h | h].
  - apply continuity_implies_RiemannInt; [exact h | intros; apply f_cont].
  - apply RiemannInt_P1, continuity_implies_RiemannInt; [lra | intros; apply f_cont].
Qed.

Definition prim0 (x : R) : R := RiemannInt (integrable_cont 0 x).

Lemma prim0_0 : prim0 0 = 0.
Proof. unfold prim0. apply RiemannInt_P9. Qed.

Lemma prim0_chasles (x y : R) :
  prim0 y - prim0 x = RiemannInt (integrable_cont x y).
Proof.
  unfold prim0.
  rewrite <- (RiemannInt_P26 (integrable_cont 0 x) (integrable_cont x y)
                (integrable_cont 0 y)).
  ring.
Qed.

Lemma cont_modulus (x eps : R) :
  0 < eps -> exists delta : posreal,
    forall t, Rabs (t - x) < delta -> Rabs (f t - f x) < eps.
Proof.
  intros Heps.
  destruct (f_cont x eps Heps) as [alp [Halp Hd]].
  exists (mkposreal alp Halp). intros t Ht. simpl in Ht.
  destruct (Req_dec t x) as [-> | Hne].
  - unfold Rminus. rewrite Rplus_opp_r, Rabs_R0. exact Heps.
  - apply Hd. split.
    + split; [exact I | congruence].
    + exact Ht.
Qed.

Lemma prim0_derivable (x : R) : derivable_pt_lim prim0 x (f x).
Proof.
  intros eps Heps.
  destruct (cont_modulus x (eps / 2)) as [delta Hdelta]; [lra |].
  exists delta. intros h Hh0 Hh.
  rewrite prim0_chasles.
  assert (Hloc : forall t, Rabs (t - x) < delta ->
                   f x - eps / 2 <= f t <= f x + eps / 2).
  { intros t Ht. specialize (Hdelta t Ht).
    apply Rabs_def2 in Hdelta. lra. }
  destruct (Rlt_dec 0 h) as [Hpos | Hneg].
  - rewrite (Rabs_pos_eq h) in Hh by lra.
    destruct (@RiemannInt_const_bound f x (x + h) (f x - eps / 2) (f x + eps / 2)
                (integrable_cont x (x + h))) as [Hlo Hhi]; [lra | |].
    { intros t Ht. apply Hloc. rewrite Rabs_pos_eq; lra. }
    replace (x + h - x) with h in Hlo, Hhi by ring.
    destruct (quotient_bounds _ h _ _ Hpos (conj Hlo Hhi)).
    apply Rabs_def1; lra.
  - assert (Hlt : 0 < - h) by lra.
    rewrite (Rabs_left h) in Hh by lra.
    rewrite (RiemannInt_P8 (integrable_cont x (x + h)) (integrable_cont (x + h) x)).
    destruct (@RiemannInt_const_bound f (x + h) x (f x - eps / 2) (f x + eps / 2)
                (integrable_cont (x + h) x)) as [Hlo Hhi]; [lra | |].
    { intros t Ht. apply Hloc. rewrite Rabs_left; lra. }
    replace (x - (x + h)) with (- h) in Hlo, Hhi by ring.
    set (J := RiemannInt (integrable_cont (x + h) x)) in *.
    replace (- J / h) with (J / (- h)) by (field; lra).
    destruct (quotient_bounds _ (- h) _ _ Hlt (conj Hlo Hhi)).
    apply Rabs_def1; lra.
Qed.

End Primitive.

(** ** The Gaussian integral and the normal distribution function *)

Lemma deriv_mono (f f' : R -> R) (a b : R) :
  (forall x, derivable_pt_lim f x (f' x)) ->
  (forall t, a < t < b -> 0 <= f' t) ->
  forall x y, a <= x -> x <= y -> y <= b -> f x <= f y.
Proof.
  intros Hd Hpos x y Hax Hxy Hyb.
  destruct (Req_dec x y) as [-> | Hne]; [lra |].
  set (pr := fun x => exist (fun l => derivable_pt_abs f x l) (f' x) (Hd x)).
  apply (derive_increasing_interv_var a b f pr); try lra.
  intros t Ht. simpl. apply Hpos, Ht.
Qed.

Lemma deriv_const (f : R -> R) :
  (forall x, derivable_pt_lim f x 0) -> forall x y, f x = f y.
Proof.
  intros Hd x y.
  set (pr := fun x => exist (fun l => derivable_pt_abs f x l) 0 (Hd x)).
  apply (null_derivative_1 f pr). intros; reflexivity.
Qed.

(** The Gaussian density up to its normalising constant. *)
Definition gauss (t : R) : R := exp (- (t * t / 2)).

Lemma gauss_cont : continuity gauss.
Proof. unfold gauss. reg. Qed.

Lemma gauss_pos (t : R) : 0 < gauss t.
Proof. apply exp_pos. Qed.

Lemma gauss_le_1 (t : R) : gauss t <= 1.
Proof.
  unfold gauss. rewrite <- exp_0.
  destruct (Req_dec t 0) as [-> | Hne].
  - right. replace (- (0 * 0 / 2)) with 0 by lra. reflexivity.
  - left. apply exp_increasing. nra.
Qed.

Lemma gauss_even (t : R) : gauss (- t) = gauss t.
Proof. unfold gauss. replace (- t * - t) with (t * t) by ring. reflexivity. Qed.

(** The integral of [gauss] from 0 to [x]. *)
Definition gauss_int (x : R) : R := prim0 gauss gauss_cont x.

Lemma gauss_int_0 : gauss_int 0 = 0.
Proof. apply prim0_0. Qed.

Lemma gauss_int_deriv (x : R) : derivable_pt_lim gauss_int x (gauss x).
Proof. apply prim0_derivable. Qed.

Lemma gauss_int_incr (x y : R) : x <= y -> gauss_int x <= gauss_int y.
Proof.
  intros Hxy.
  apply (deriv_mono gauss_int gauss x y gauss_int_deriv); try lra.
  intros t _. left. apply gauss_pos.
Qed.

Lemma gauss_int_odd (x : R) : gauss_int (- x) = - gauss_int x.
Proof.
  assert (Hd : forall x, derivable_pt_lim (fun x => gauss_int x + gauss_int (- x)) x 0).
  { intros t.
    replace 0 with (gauss t + gauss (- t) * (-1)) by (rewrite gauss_even; ring).
    apply (derivable_pt_lim_plus gauss_int (fun x => gauss_int (- x))).
    - apply gauss_int_deriv.
    - apply (derivable_pt_lim_comp (fun x => - x) gauss_int).
      + replace (-1) with (- 1) by ring.
        apply (derivable_pt_lim_opp id), derivable_pt_lim_id.
      + apply gauss_int_deriv. }
  pose proof (deriv_const _ Hd x 0) as E. simpl in E.
  rewrite Ropp_0, gauss_int_0 in E. lra.
Qed.

Lemma gauss_int_bound (x : R) : gauss_int x <= exp (1 / 2).
Proof.
  destruct (Rle_dec x 0) as [Hx | Hx].
  - apply Rle_trans with 0.
    + rewrite <- gauss_int_0. apply gauss_int_incr, Hx.
    + left. apply exp_pos.
  - set (H := fun x => - exp (1 / 2 - x) - gauss_int x).
    assert (Hd : forall t, derivable_pt_lim H t (exp (1 / 2 - t) - gauss t)).
    { intros t. unfold H.
      apply (derivable_pt_lim_minus (fun x => - exp (1 / 2 - x)) gauss_int);
        [| apply gauss_int_deriv].
      replace (exp (1 / 2 - t)) with (- (exp (1 / 2 - t) * (0 - 1))) by ring.
      apply (derivable_pt_lim_opp (fun x => exp (1 / 2 - x))).
      apply (derivable_pt_lim_comp (fun x => 1 / 2 - x) exp).
      - apply (derivable_pt_lim_minus (fun _ => 1 / 2) id).
        + apply derivable_pt_lim_const.
        + apply derivable_pt_lim_id.
      - apply derivable_pt_lim_exp. }
    assert (Hm : H 0 <= H x).
    { apply (deriv_mono H _ 0 x Hd); try lra.
      intros t _. unfold gauss.
      assert (- (t * t / 2) <= 1 / 2 - t).
      { pose proof (Rle_0_sqr (t - 1)) as Hs. unfold Rsqr in Hs. lra. }
      destruct H0 as [H0 | H0].
      - apply exp_increasing in H0. lra.
      - rewrite H0. lra. }
    unfold H in Hm. rewrite gauss_int_0 in Hm.
    replace (1 / 2 - 0) with (1 / 2) in Hm by lra.
    pose proof (exp_pos (1 / 2 - x)). lra.
Qed.

(** The values taken by [gauss_int]: a bounded set, whose least upper
    bound is the integral of [gauss] over the positive half-line. *)
Definition gauss_range (y : R) : Prop := exists x, y = gauss_int x.

Lemma gauss_range_bound : bound gauss_range.
Proof.
  exists (exp (1 / 2)). intros y [x ->]. apply gauss_int_bound.
Qed.

Lemma gauss_range_inhabited : exists y, gauss_range y.
Proof. exists (gauss_int 0), 0. reflexivity. Qed.

(** The integral of [gauss] from 0 to infinity.  (Its value is
    [sqrt (PI / 2)]; nothing below depends on it.) *)
Definition gauss_half_mass : R :=
  proj1_sig (completeness gauss_range gauss_range_bound gauss_range_inhabited).

Lemma gauss_half_mass_lub : is_lub gauss_range gauss_half_mass.
Proof.
  unfold gauss_half_mass.
  apply (proj2_sig (completeness gauss_range gauss_range_bound gauss_range_inhabited)).
Qed.

Lemma gauss_int_le_mass (x : R) : gauss_int x <= gauss_half_mass.
Proof.
  destruct gauss_half_mass_lub as [Hub _]. apply Hub. exists x. reflexivity.
Qed.

Lemma gauss_int_ge_mass (x : R) : - gauss_half_mass <= gauss_int x.
Proof.
  pose proof (gauss_int_le_mass (- x)) as H. rewrite gauss_int_odd in H. lra.
Qed.

Lemma gauss_half_mass_pos : 0 < gauss_half_mass.
Proof.
  apply Rlt_le_trans with (gauss_int 1); [| apply gauss_int_le_mass].
  pose proof (prim0_chasles gauss gauss_cont 0 1) as E.
  fold (gauss_int 1) in E. fold (gauss_int 0) in E. rewrite gauss_int_0 in E.
  destruct (@RiemannInt_const_bound gauss 0 1 (gauss 1) 1
              (integrable_cont gauss gauss_cont 0 1)) as [Hlo _]; [lra | |].
  - intros t Ht. split; [| apply gauss_le_1].
    unfold gauss. left. apply exp_increasing. nra.
  - pose proof (gauss_pos 1). lra.
Qed.

Lemma gauss_int_near_mass (eps : R) :
  0 < eps -> exists x, gauss_half_mass - eps < gauss_int x.
Proof.
  intros Heps.
  destruct (classic (exists x, gauss_half_mass - eps < gauss_int x)) as [H | H];
    [exact H | exfalso].
  destruct gauss_half_mass_lub as [_ Hleast].
  assert (Hub : is_upper_bound gauss_range (gauss_half_mass - eps)).
  { intros y [x ->]. apply Rnot_lt_le. intros Hlt. apply H. exists x. exact Hlt. }
  specialize (Hleast _ Hub). lra.
Qed.

(** The standard normal distribution function: the integral of the
    Gaussian density from minus infinity to [x], normalised so that the
    total mass is 1. *)
Definition Phi (x : R) : R := 1 / 2 + gauss_int x / (2 * gauss_half_mass).

Lemma Phi_0 : Phi 0 = 1 / 2.
Proof. unfold Phi. rewrite gauss_int_0. unfold Rdiv at 2. rewrite Rmult_0_l. lra. Qed.

Lemma Phi_sym (x : R) : Phi x + Phi (- x) = 1.
Proof.
  unfold Phi. rewrite gauss_int_odd. pose proof gauss_half_mass_pos. field. lra.
Qed.

Lemma Phi_incr (x y : R) : x <= y -> Phi x <= Phi y.
Proof.
  intros Hxy. unfold Phi. pose proof gauss_half_mass_pos.
  apply Rplus_le_compat_l. unfold Rdiv. apply Rmult_le_compat_r.
  - left. apply Rinv_0_lt_compat. lra.
  - apply gauss_int_incr, Hxy.
Qed.

Lemma Phi_bounds (x : R) : 0 <= Phi x <= 1.
Proof.
  unfold Phi. pose proof gauss_half_mass_pos as HL.
  pose proof (gauss_int_le_mass x). pose proof (gauss_int_ge_mass x).
  assert (E : -1 / 2 <= gauss_int x / (2 * gauss_half_mass) <= 1 / 2).
  { apply quotient_bounds; lra. }
  lra.
Qed.

Lemma Phi_deriv (x : R) :
  derivable_pt_lim Phi x (gauss x / (2 * gauss_half_mass)).
Proof.
  unfold Phi.
  replace (gauss x / (2 * gauss_half_mass))
    with (0 + gauss x * / (2 * gauss_half_mass)) by (unfold Rdiv; ring).
  apply (derivable_pt_lim_plus (fun _ => 1 / 2)
           (fun x => gauss_int x / (2 * gauss_half_mass))).
  - apply derivable_pt_lim_const.
  - unfold Rdiv.
    replace (gauss x * / (2 * gauss_half_mass))
      with (/ (2 * gauss_half_mass) * gauss x) by ring.
    assert (E : (fun x0 => gauss_int x0 * / (2 * gauss_half_mass))
                = mult_real_fct (/ (2 * gauss_half_mass)) gauss_int).
    { unfold mult_real_fct. apply functional_extensionality. intros. ring. }
    rewrite E. apply derivable_pt_lim_scal, gauss_int_deriv.
Qed.

Lemma Phi_small (eps : R) : 0 < eps -> exists x, Phi x < eps.
Proof.
  intros Heps. pose proof gauss_half_mass_pos as HL.
  destruct (gauss_int_near_mass (eps * (2 * gauss_half_mass))) as [x Hx].
  { apply Rmult_lt_0_compat; lra. }
  exists (- x). unfold Phi. rewrite gauss_int_odd.
  assert (E : - gauss_int x / (2 * gauss_half_mass) < - (1 / 2) + eps).
  { apply Rmult_lt_reg_r with (2 * gauss_half_mass); [lra |].
    unfold Rdiv. rewrite Rmult_assoc, Rinv_l by lra. lra. }
  lra.
Qed.

Lemma Phi_large (eps : R) : 0 < eps -> exists x, 1 - eps < Phi x.
Proof.
  intros Heps. destruct (Phi_small eps Heps) as [x Hx].
  exists (- x). pose proof (Phi_sym x). lra.
Qed.

(** ** The call value as an upper envelope *)

Lemma gauss_shift (d v : R) : gauss (d - v) = gauss d * exp (d * v - v * v / 2).
Proof.
  unfold gauss. rewrite <- exp_plus. f_equal. field.
Qed.

(** For a spot [S], a discounted strike [K'] and a total volatility [v],
    the function [envelope S K' v] of [d] has its maximum at [d_star],
    where it is the Black-Scholes call value. *)
Definition envelope (S K' v d : R) : R := S * Phi d - K' * Phi (d - v).

Definition d_star (S K' v : R) : R := ln (S / K') / v + v / 2.

Lemma envelope_deriv (S K' v d : R) :
  derivable_pt_lim (envelope S K' v) d
    ((S - K' * exp (d * v - v * v / 2)) * (gauss d / (2 * gauss_half_mass))).
Proof.
  unfold envelope.
  replace ((S - K' * exp (d * v - v * v / 2)) * (gauss d / (2 * gauss_half_mass)))
    with (S * (gauss d / (2 * gauss_half_mass))
          - K' * (gauss (d - v) / (2 * gauss_half_mass) * (1 - 0))).
  2:{ rewrite gauss_shift. unfold Rdiv. ring. }
  apply (derivable_pt_lim_minus (fun d => S * Phi d) (fun d => K' * Phi (d - v))).
  - apply (derivable_pt_lim_scal Phi S), Phi_deriv.
  - apply (derivable_pt_lim_scal (fun d => Phi (d - v)) K').
    apply (derivable_pt_lim_comp (fun d => d - v) Phi).
    + apply (derivable_pt_lim_minus id (fun _ => v)).
      * apply derivable_pt_lim_id.
      * apply derivable_pt_lim_const.
    + apply Phi_deriv.
Qed.

Section Envelope.
Variables S K' v : R.
Hypothesis S_pos : 0 < S.
Hypothesis K_pos : 0 < K'.
Hypothesis v_pos : 0 < v.

Lemma slope_sign_below (d : R) :
  d <= d_star S K' v -> 0 <= S - K' * exp (d * v - v * v / 2).
Proof.
  intros Hd. unfold d_star in Hd.
  assert (Hq : 0 < S / K') by (apply Rdiv_lt_0_compat; assumption).
  assert (Hle : d * v - v * v / 2 <= ln (S / K')).
  { assert (E : ln (S / K') = (ln (S / K') / v) * v) by (field; lra).
    rewrite E. nra. }
  assert (Hexp : exp (d * v - v * v / 2) <= S / K').
  { rewrite <- (exp_ln (S / K')) by exact Hq.
    destruct Hle as [Hlt | Heq]; [left; apply exp_increasing, Hlt | right; f_equal; exact Heq]. }
  assert (K' * exp (d * v - v * v / 2) <= K' * (S / K')).
  { apply Rmult_le_compat_l; lra. }
  replace (K' * (S / K')) with S in H by (field; lra). lra.
Qed.

Lemma slope_sign_above (d : R) :
  d_star S K' v <= d -> S - K' * exp (d * v - v * v / 2) <= 0.
Proof.
  intros Hd. unfold d_star in Hd.
  assert (Hq : 0 < S / K') by (apply Rdiv_lt_0_compat; assumption).
  assert (Hle : ln (S / K') <= d * v - v * v / 2).
  { assert (E : ln (S / K') = (ln (S / K') / v) * v) by (field; lra).
    rewrite E. nra. }
  assert (Hexp : S / K' <= exp (d * v - v * v / 2)).
  { rewrite <- (exp_ln (S / K')) at 1 by exact Hq.
    destruct Hle as [Hlt | Heq]; [left; apply exp_increasing, Hlt | right; f_equal; exact Heq]. }
  assert (K' * (S / K') <= K' * exp (d * v - v * v / 2)).
  { apply Rmult_le_compat_l; lra. }
  replace (K' * (S / K')) with S in H by (field; lra). lra.
Qed.

Lemma density_pos (d : R) : 0 < gauss d / (2 * gauss_half_mass).
Proof.
  apply Rdiv_lt_0_compat; [apply gauss_pos | pose proof gauss_half_mass_pos; lra].
Qed.

Lemma envelope_max (d : R) : envelope S K' v d <= envelope S K' v (d_star S K' v).
Proof.
  destruct (Rle_dec d (d_star S K' v)) as [Hd | Hd].
  - apply (deriv_mono (envelope S K' v) _ d (d_star S K' v)
             (envelope_deriv S K' v)); try lra.
    intros t Ht. apply Rmult_le_pos.
    + apply slope_sign_below. lra.
    + left. apply density_pos.
  - apply Ropp_le_cancel.
    apply (deriv_mono (fun x => - envelope S K' v x)
             (fun t => - ((S - K' * exp (t * v - v * v / 2))
                          * (gauss t / (2 * gauss_half_mass))))
             (d_star S K' v) d); try lra.
    + intros x. apply (derivable_pt_lim_opp (envelope S K' v)), envelope_deriv.
    + intros t Ht.
      pose proof (slope_sign_above t ltac:(lra)) as Hs.
      pose proof (density_pos t) as Hp.
      rewrite Ropp_mult_distr_l. apply Rmult_le_pos; lra.
Qed.

End Envelope.

(** Exact Black-Scholes call value in terms of the discounted strike
    [K'] and the total volatility [v]. *)
Definition call_value (S K' v : R) : R := envelope S K' v (d_star S K' v).

Lemma call_value_nonneg (S K' v : R) :
  0 < S -> 0 < K' -> 0 < v -> 0 <= call_value S K' v.
Proof.
  intros HS HK Hv.
  apply Rnot_lt_le. intros Hneg.
  destruct (Phi_small (- call_value S K' v / K')) as [d Hd].
  { apply Rdiv_lt_0_compat; lra. }
  pose proof (envelope_max S K' v HS HK Hv (d + v)) as Hmax.
  fold (call_value S K' v) in Hmax. unfold envelope in Hmax.
  replace (d + v - v) with d in Hmax by ring.
  pose proof (Phi_bounds (d + v)) as [Hb _].
  assert (K' * Phi d < - call_value S K' v).
  { apply Rmult_lt_reg_r with (/ K'); [apply Rinv_0_lt_compat; lra |].
    replace (K' * Phi d * / K') with (Phi d) by (field; lra). exact Hd. }
  assert (0 <= S * Phi (d + v)) by (apply Rmult_le_pos; lra).
  lra.
Qed.

Lemma call_value_mono_spot (S1 S2 K' v : R) :
  0 < S1 -> S1 <= S2 -> 0 < K' -> 0 < v ->
  call_value S1 K' v <= call_value S2 K' v.
Proof.
  intros H1 H12 HK Hv.
  pose proof (envelope_max S2 K' v ltac:(lra) HK Hv (d_star S1 K' v)) as Hmax.
  fold (call_value S2 K' v) in Hmax.
  unfold call_value at 1. unfold envelope in *.
  pose proof (Phi_bounds (d_star S1 K' v)) as [Hb _].
  assert (S1 * Phi (d_star S1 K' v) <= S2 * Phi (d_star S1 K' v))
    by (apply Rmult_le_compat_r; lra).
  lra.
Qed.

Lemma call_value_mono_vol (S K' v1 v2 : R) :
  0 < S -> 0 < K' -> 0 < v1 -> v1 <= v2 ->
  call_value S K' v1 <= call_value S K' v2.
Proof.
  intros HS HK H1 H12.
  pose proof (envelope_max S K' v2 HS HK ltac:(lra) (d_star S K' v1)) as Hmax.
  fold (call_value S K' v2) in Hmax.
  unfold call_value at 1. unfold envelope in *.
  assert (Phi (d_star S K' v1 - v2) <= Phi (d_star S K' v1 - v1))
    by (apply Phi_incr; lra).
  assert (K' * Phi (d_star S K' v1 - v2) <= K' * Phi (d_star S K' v1 - v1))
    by (apply Rmult_le_compat_l; lra).
  lra.
Qed.

(** The call value is at least the forward intrinsic value [S - K']. *)
Lemma call_value_ge_forward (S K' v : R) :
  0 < S -> 0 < K' -> 0 < v -> S - K' <= call_value S K' v.
Proof.
  intros HS HK Hv.
  apply Rnot_lt_le. intros Hlt.
  destruct (Phi_large ((S - K' - call_value S K' v) / S)) as [d Hd].
  { apply Rdiv_lt_0_compat; lra. }
  pose proof (envelope_max S K' v HS HK Hv d) as Hmax.
  fold (call_value S K' v) in Hmax. unfold envelope in Hmax.
  pose proof (Phi_bounds (d - v)) as [_ Hb].
  assert (K' * Phi (d - v) <= K' * 1) by (apply Rmult_le_compat_l; lra).
  assert (S * (1 - (S - K' - call_value S K' v) / S) < S * Phi d)
    by (apply Rmult_lt_compat_l; lra).
  replace (S * (1 - (S - K' - call_value S K' v) / S))
    with (K' + call_value S K' v) in H0 by (field; lra).
  lra.
Qed.

(** It grows no faster than the spot. *)
Lemma call_value_spot_slope (S1 S2 K' v : R) :
  0 < S1 -> S1 <= S2 -> 0 < K' -> 0 < v ->
  call_value S2 K' v - call_value S1 K' v <= S2 - S1.
Proof.
  intros H1 H12 HK Hv.
  pose proof (envelope_max S1 K' v H1 HK Hv (d_star S2 K' v)) as Hmax.
  fold (call_value S1 K' v) in Hmax.
  unfold call_value at 1. unfold envelope in *.
  pose proof (Phi_bounds (d_star S2 K' v)) as [_ Hb].
  assert ((S2 - S1) * Phi (d_star S2 K' v) <= (S2 - S1) * 1)
    by (apply Rmult_le_compat_l; lra).
  lra.
Qed.

(** A negative total volatility mirrors the call value around the
    forward intrinsic value. *)
Lemma call_value_negative_vol (S K' w : R) :
  w <> 0 -> call_value S K' (- w) = S - K' - call_value S K' w.
Proof.
  intros Hw. unfold call_value, envelope.
  assert (E : d_star S K' (- w) = - d_star S K' w).
  { unfold d_star. field. exact Hw. }
  rewrite E.
  replace (- d_star S K' w - - w) with (- (d_star S K' w - w)) by ring.
  pose proof (Phi_sym (d_star S K' w)) as E1.
  pose proof (Phi_sym (d_star S K' w - w)) as E2.
  set (a := Phi (d_star S K' w)) in *.
  set (b := Phi (d_star S K' w - w)) in *.
  replace (Phi (- d_star S K' w)) with (1 - a) by lra.
  replace (Phi (- (d_star S K' w - w))) with (1 - b) by lra.
  ring.
Qed.

(** ** Numbers: exact reals with the IEEE special values *)

Inductive num : Type :=
| NaN
| PInf
| NInf
| Fin (x : R).

Inductive sign : Type := Neg | Zero | Pos.

Definition sgn (x : R) : sign :=
  match total_order_T x 0 with
  | inleft (left _) => Neg
  | inleft (right _) => Zero
  | inright _ => Pos
  end.

Definition sign_mul (a b : sign) : sign :=
  match a, b with
  | Zero, _ | _, Zero => Zero
  | Pos, s | s, Pos => s
  | Neg, Neg => Pos
  end.

(** The infinity of a given sign; an undetermined sign (0 * inf, 0 / 0)
    is NaN. *)
Definition inf_of (s : sign) : num :=
  match s with
  | Neg => NInf
  | Zero => NaN
  | Pos => PInf
  end.

(** Sign of a non-NaN number (NaN is never passed). *)
Definition sign_of (a : num) : sign :=
  match a with
  | NaN => Zero
  | PInf => Pos
  | NInf => Neg
  | Fin x => sgn x
  end.

(** [np.isnan] *)
Definition isnan (a : num) : bool :=
  match a with
  | NaN => true
  | _ => false
  end.

(** [a == 0]: false on NaN and on the infinities. *)
Definition is_zero (a : num) : bool :=
  match a with
  | Fin x => if Req_dec_T x 0 then true else false
  | _ => false
  end.

(** Unary minus. *)
Definition nneg (a : num) : num :=
  match a with
  | NaN => NaN
  | PInf => NInf
  | NInf => PInf
  | Fin x => Fin (- x)
  end.

Definition nadd (a b : num) : num :=
  match a, b with
  | NaN, _ | _, NaN => NaN
  | Fin x, Fin y => Fin (x + y)
  | PInf, NInf | NInf, PInf => NaN
  | PInf, _ | _, PInf => PInf
  | NInf, _ | _, NInf => NInf
  end.

Definition nsub (a b : num) : num := nadd a (nneg b).

Definition nmul (a b : num) : num :=
  match a, b with
  | NaN, _ | _, NaN => NaN
  | Fin x, Fin y => Fin (x * y)
  | _, _ => inf_of (sign_mul (sign_of a) (sign_of b))
  end.

(** NumPy division: [x / 0] is an infinity of the sign of [x], [0 / 0]
    and [inf / inf] are NaN, a finite number over an infinity is 0. *)
Definition ndiv (a b : num) : num :=
  match a, b with
  | NaN, _ | _, NaN => NaN
  | Fin x, Fin y => if Req_dec_T y 0 then inf_of (sgn x) else Fin (x / y)
  | Fin _, _ => Fin 0
  | _, Fin y => inf_of (sign_mul (sign_of a) (if Req_dec_T y 0 then Pos else sgn y))
  | _, _ => NaN
  end.

(** [sigma**2] *)
Definition nsquare (a : num) : num := nmul a a.

(** [np.sqrt]: NaN on negative arguments. *)
Definition nsqrt (a : num) : num :=
  match a with
  | NaN | NInf => NaN
  | PInf => PInf
  | Fin x => match sgn x with Neg => NaN | _ => Fin (sqrt x) end
  end.

(** [np.log]: NaN on negative arguments, minus infinity at 0. *)
Definition nlog (a : num) : num :=
  match a with
  | NaN | NInf => NaN
  | PInf => PInf
  | Fin x => match sgn x with Neg => NaN | Zero => NInf | Pos => Fin (ln x) end
  end.

(** [np.exp] *)
Definition nexp (a : num) : num :=
  match a with
  | NaN => NaN
  | PInf => PInf
  | NInf => Fin 0
  | Fin x => Fin (exp x)
  end.

(** [scipy.stats.norm.cdf] *)
Definition norm_cdf (a : num) : num :=
  match a with
  | NaN => NaN
  | PInf => Fin 1
  | NInf => Fin 0
  | Fin x => Fin (Phi x)
  end.

(** [scipy.stats.norm.pdf]: [exp(-x**2/2) / sqrt(2*pi)]. *)
Definition norm_pdf (a : num) : num :=
  match a with
  | NaN => NaN
  | PInf | NInf => Fin 0
  | Fin x => Fin (exp (- (x * x / 2)) / sqrt (2 * PI))
  end.

(** Python's [a <= b] on numbers: false as soon as a side is NaN. *)
Definition num_le (a b : num) : Prop :=
  match a, b with
  | NaN, _ | _, NaN => False
  | NInf, _ | _, PInf => True
  | Fin x, Fin y => x <= y
  | _, _ => False
  end.

(** ** The option analytics of [FullBlackScholes.py] *)

(** [safe_divide(num, denom)] *)
Definition safe_divide (n denom : num) : num :=
  if is_zero denom then Fin 0 else ndiv n denom.

(** The expression bound to [d1] in both [black_scholes] and
    [calculate_greeks]:
    [safe_divide(np.log(S / K) + (r + 0.5 * sigma**2) * T, sigma * np.sqrt(T))]. *)
Definition d1_of (S K T r sigma : num) : num :=
  safe_divide
    (nadd (nlog (ndiv S K))
          (nmul (nadd r (nmul (Fin (1 / 2)) (nsquare sigma))) T))
    (nmul sigma (nsqrt T)).

(** [d2 = d1 - sigma * np.sqrt(T)] *)
Definition d2_of (d1 T sigma : num) : num :=
  nsub d1 (nmul sigma (nsqrt T)).

(** [option_type == 'call'] *)
Definition is_call (option_type : string) : bool :=
  String.eqb option_type "call".

Definition black_scholes (S K T r sigma : num) (option_type : string) : num :=
  if isnan S || isnan K || isnan T || isnan r || isnan sigma || is_zero sigma
  then Fin 0
  else
    let d1 := d1_of S K T r sigma in
    let d2 := d2_of d1 T sigma in
    if is_call option_type
    then nsub (nmul S (norm_cdf d1))
              (nmul (nmul K (nexp (nmul (nneg r) T))) (norm_cdf d2))
    else nsub (nmul (nmul K (nexp (nmul (nneg r) T))) (norm_cdf (nneg d2)))
              (nmul S (norm_cdf (nneg d1))).

(** The dictionary [results] of [calculate_greeks]: one list per key. *)
Record greeks : Type := mkGreeks {
  Delta : list num;
  Gamma : list num;
  Theta : list num;
  Vega : list num;
  Rho : list num
}.

Definition no_greeks : greeks := mkGreeks [] [] [] [] [].

(** [results[key].append(v)] for the five keys at once. *)
Definition append_greeks (res : greeks) (dl ga th ve rh : num) : greeks :=
  mkGreeks (Delta res ++ [dl]) (Gamma res ++ [ga]) (Theta res ++ [th])
           (Vega res ++ [ve]) (Rho res ++ [rh]).

(** One iteration of the loop [for K in Ks] of [calculate_greeks]. *)
Definition greeks_step (S T r sigma : num) (option_type : string)
    (res : greeks) (K : num) : greeks :=
  if isnan S || isnan sigma || isnan T || isnan r
  then append_greeks res NaN NaN NaN NaN NaN
  else
    let d1 := d1_of S K T r sigma in
    let d2 := d2_of d1 T sigma in
    append_greeks res
      (if is_call option_type then norm_cdf d1 else nsub (norm_cdf d1) (Fin 1))
      (safe_divide (norm_pdf d1) (nmul (nmul S sigma) (nsqrt T)))
      (nsub (nneg (safe_divide (nmul (nmul S (norm_pdf d1)) sigma)
                               (nmul (Fin 2) (nsqrt T))))
            (nmul (nmul (nmul r K) (nexp (nmul (nneg r) T))) (norm_cdf d2)))
      (safe_divide (nmul (nmul S (norm_pdf d1)) (nsqrt T)) (Fin 100))
      (safe_divide
         (nmul (nmul (nmul K T) (nexp (nmul (nneg r) T)))
               (if is_call option_type then norm_cdf d2
                else nneg (norm_cdf (nneg d2))))
         (Fin 100)).

Definition calculate_greeks (S : num) (Ks : list num) (T r sigma : num)
    (option_type : string) : greeks :=
  fold_left (greeks_step S T r sigma option_type) Ks no_greeks.

(** ** Logging and exceptions *)

Inductive level : Type := INFO | WARNING | ERROR.

(** A log message: fixed text, or text around a formatted number (the
    f-strings of the source). *)
Inductive message : Type :=
| Msg (text : string)
| MsgNum (before : string) (v : num) (after : string).

Definition log_record : Type := (level * message)%type.

(** A raised [Exception], identified with its text [str(e)]. *)
Definition exn : Type := string.
Bind Scope string_scope with exn.

Inductive result (A : Type) : Type :=
| Ok (a : A)
| Raised (e : exn).
Arguments Ok {A} a.
Arguments Raised {A} e.

(** Computations that append to the log file and may raise. *)
Definition M (A : Type) : Type := list log_record -> result A * list log_record.

Definition ret {A : Type} (a : A) : M A := fun l => (Ok a, l).

Definition bind {A B : Type} (c : M A) (k : A -> M B) : M B :=
  fun l =>
    match c l with
    | (Ok a, l') => k a l'
    | (Raised e, l') => (Raised e, l')
    end.

(** The outcome of a library call, which may be an exception. *)
Definition lift {A : Type} (r : result A) : M A := fun l => (r, l).

(** [logging.info], [logging.warning], [logging.error] *)
Definition logging (lv : level) (m : message) : M unit :=
  fun l => (Ok tt, l ++ [(lv, m)]).

(** [try: c  except Exception as e: h e] *)
Definition try_except {A : Type} (c : M A) (h : exn -> M A) : M A :=
  fun l =>
    match c l with
    | (Ok a, l') => (Ok a, l')
    | (Raised e, l') => h e l'
    end.

Notation "x <- c ;; k" := (bind c (fun x => k))
  (at level 61, c at next level, right associativity).
Notation "c ;;; k" := (bind c (fun _ => k))
  (at level 61, right associativity).

(** ** The volatility estimator of [FullBlackScholes.py] *)

(** The price history: a data frame with a [Close] column. *)
Record hist_data : Type := mkHist { Close : list num }.

(** [Series.dropna()] *)
Definition dropna (xs : list num) : list num :=
  filter (fun x => negb (isnan x)) xs.

(** [Series.empty] *)
Definition series_empty (xs : list num) : bool :=
  match xs with
  | [] => true
  | _ :: _ => false
  end.

(** [Series.isnull().all()] *)
Definition isnull_all (xs : list num) : bool := forallb isnan xs.

Section Volatility.

(** The library calls of the estimator.  [pct_change] is pandas'
    [Series.pct_change], [np_std] is [np.std]; [arch_model], [fit] and
    [forecast_variance] are the arch package's model constructor,
    [model.fit(disp='off')] and
    [model_fit.forecast(horizon=1).variance.values[-1, -1]], each of
    which may raise. *)
Variables Model Fitted : Type.
Variable pct_change : list num -> list num.
Variable np_std : list num -> num.
Variable arch_model : list num -> result Model.
Variable fit : Model -> result Fitted.
Variable forecast_variance : Fitted -> result num.

Definition scale : num := Fin 100.

(** The body of the [try] block of [get_garch_volatility]. *)
Definition garch_try (model : Model) : M (option num) :=
  model_fit <- lift (fit model) ;;
  forecasted_variance <- lift (forecast_variance model_fit) ;;
  let annualized_volatility :=
    nmul (ndiv (nsqrt forecasted_variance) scale) (nsqrt (Fin 252)) in
  logging INFO (MsgNum "GARCH Estimated Annualized Volatility: "
                       annualized_volatility "%") ;;;
  ret (Some annualized_volatility).

(** [get_garch_volatility(returns)]; [None] is Python's [None]. *)
Definition get_garch_volatility (returns : list num) : M (option num) :=
  let scaled_returns := map (fun x => nmul x scale) returns in
  model <- lift (arch_model scaled_returns) ;;
  try_except (garch_try model)
    (fun e =>
       logging ERROR (Msg ("Failed to fit GARCH model: " ++ e)) ;;;
       ret None).

(** [hist_data['Close'].pct_change().dropna()] *)
Definition daily_returns_of (h : hist_data) : list num :=
  dropna (pct_change (Close h)).

(** The last three lines of [calculate_annualized_volatility]. *)
Definition fallback (daily_returns : list num) : M num :=
  let fallback_volatility := nmul (np_std daily_returns) (nsqrt (Fin 252)) in
  logging INFO (MsgNum "Standard Deviation Based Annualized Volatility: "
                       fallback_volatility "%") ;;;
  ret fallback_volatility.

Definition calculate_annualized_volatility (h : hist_data) : M num :=
  let daily_returns := daily_returns_of h in
  if series_empty daily_returns || isnull_all daily_returns
  then
    logging WARNING (Msg "Daily returns are empty or NaN.") ;;;
    ret NaN
  else if (30 <? List.length daily_returns)%nat
  then
    garch_volatility <- get_garch_volatility daily_returns ;;
    match garch_volatility with
    | Some v => ret v
    | None =>
        logging WARNING
          (Msg "GARCH model fitting failed, falling back to standard deviation.") ;;;
        fallback daily_returns
    end
  else fallback daily_returns.

End Volatility.

(** ** A concrete instance of the library calls, for the examples *)

(** [Series.pct_change()] without filling: the first entry is NaN, each
    later one is [x / previous - 1]. *)
Fixpoint pct_change_from (prev : num) (xs : list num) : list num :=
  match xs with
  | [] => []
  | x :: tl => nsub (ndiv x prev) (Fin 1) :: pct_change_from x tl
  end.

Definition pct_change_plain (xs : list num) : list num :=
  match xs with
  | [] => []
  | x :: tl => NaN :: pct_change_from x tl
  end.

Definition nsum (xs : list num) : num := fold_left nadd xs (Fin 0).

Definition nmean (xs : list num) : num :=
  ndiv (nsum xs) (Fin (INR (List.length xs))).

(** The population standard deviation, [np.std] with its default
    [ddof=0]. *)
Definition population_std (xs : list num) : num :=
  nsqrt (nmean (map (fun x => nsquare (nsub x (nmean xs))) xs)).

Definition is_finite (a : num) : bool :=
  match a with
  | Fin _ => true
  | _ => false
  end.

(** A model constructor that, like arch's, rejects data that are not
    all finite. *)
Definition arch_model_checked (y : list num) : result unit :=
  if forallb is_finite y then Ok tt
  else Raised "NaN or inf values found in y. y must contains only finite values.".

(** A fit that raises, and a fit and a forecast that succeed. *)
Definition fit_raising (e : exn) (m : unit) : result unit := Raised e.
Definition fit_plain (m : unit) : result unit := Ok tt.
Definition forecast_plain (fv : num) (f : unit) : result num := Ok fv.

(** ** Evaluation lemmas for the numeric operations *)

Lemma sgn_pos (x : R) : 0 < x -> sgn x = Pos.
Proof.
  intros H. unfold sgn. destruct (total_order_T x 0) as [[Hlt | Heq] | Hgt]; try lra.
  reflexivity.
Qed.

Lemma sgn_neg (x : R) : x < 0 -> sgn x = Neg.
Proof.
  intros H. unfold sgn. destruct (total_order_T x 0) as [[Hlt | Heq] | Hgt]; try lra.
  reflexivity.
Qed.

Lemma sgn_zero : sgn 0 = Zero.
Proof.
  unfold sgn. destruct (total_order_T 0 0) as [[Hlt | Heq] | Hgt]; try lra.
  reflexivity.
Qed.

Lemma is_zero_0 : is_zero (Fin 0) = true.
Proof. unfold is_zero. destruct (Req_dec_T 0 0); [reflexivity | contradiction]. Qed.

Lemma is_zero_Fin_eq (x : R) : x = 0 -> is_zero (Fin x) = true.
Proof. intros ->. apply is_zero_0. Qed.

Lemma is_zero_Fin_neq (x : R) : x <> 0 -> is_zero (Fin x) = false.
Proof.
  intros H. unfold is_zero. destruct (Req_dec_T x 0); [contradiction | reflexivity].
Qed.

Lemma ndiv_Fin (x y : R) : y <> 0 -> ndiv (Fin x) (Fin y) = Fin (x / y).
Proof.
  intros H. simpl. destruct (Req_dec_T y 0); [contradiction | reflexivity].
Qed.

Lemma nsqrt_Fin (x : R) : 0 <= x -> nsqrt (Fin x) = Fin (sqrt x).
Proof.
  intros [H | <-]; simpl.
  - rewrite sgn_pos by exact H. reflexivity.
  - rewrite sgn_zero. reflexivity.
Qed.

Lemma nlog_Fin (x : R) : 0 < x -> nlog (Fin x) = Fin (ln x).
Proof. intros H. simpl. rewrite sgn_pos by exact H. reflexivity. Qed.

Lemma nlog_negative (x : R) : x < 0 -> nlog (Fin x) = NaN.
Proof. intros H. simpl. rewrite sgn_neg by exact H. reflexivity. Qed.

Lemma safe_divide_zero (n d : num) : is_zero d = true -> safe_divide n d = Fin 0.
Proof. intros H. unfold safe_divide. rewrite H. reflexivity. Qed.

Lemma safe_divide_Fin (x y : R) :
  y <> 0 -> safe_divide (Fin x) (Fin y) = Fin (x / y).
Proof.
  intros H. unfold safe_divide. rewrite is_zero_Fin_neq by exact H.
  apply ndiv_Fin, H.
Qed.

Lemma safe_divide_NaN (y : R) : y <> 0 -> safe_divide NaN (Fin y) = NaN.
Proof.
  intros H. unfold safe_divide. rewrite is_zero_Fin_neq by exact H. reflexivity.
Qed.

(** At T = 0 the denominator of [d1] is 0, whatever the other inputs. *)
Lemma d1_of_expiry (S K r : num) (sg : R) :
  d1_of S K (Fin 0) r (Fin sg) = Fin 0.
Proof.
  unfold d1_of. apply safe_divide_zero.
  rewrite nsqrt_Fin by lra. cbn [nmul].
  apply is_zero_Fin_eq. rewrite sqrt_0. ring.
Qed.

(** ** The loop of [calculate_greeks] as five maps over the strikes *)

(** The values appended for one strike, read off a single iteration. *)
Definition delta_entry (S T r sigma : num) (ot : string) (K : num) : num :=
  hd NaN (Delta (greeks_step S T r sigma ot no_greeks K)).
Definition gamma_entry (S T r sigma : num) (ot : string) (K : num) : num :=
  hd NaN (Gamma (greeks_step S T r sigma ot no_greeks K)).
Definition theta_entry (S T r sigma : num) (ot : string) (K : num) : num :=
  hd NaN (Theta (greeks_step S T r sigma ot no_greeks K)).
Definition vega_entry (S T r sigma : num) (ot : string) (K : num) : num :=
  hd NaN (Vega (greeks_step S T r sigma ot no_greeks K)).
Definition rho_entry (S T r sigma : num) (ot : string) (K : num) : num :=
  hd NaN (Rho (greeks_step S T r sigma ot no_greeks K)).

Lemma greeks_step_entries (S T r sigma : num) (ot : string) (res : greeks) (K : num) :
  greeks_step S T r sigma ot res K =
  append_greeks res (delta_entry S T r sigma ot K) (gamma_entry S T r sigma ot K)
    (theta_entry S T r sigma ot K) (vega_entry S T r sigma ot K)
    (rho_entry S T r sigma ot K).
Proof.
  unfold delta_entry, gamma_entry, theta_entry, vega_entry, rho_entry, greeks_step.
  destruct (isnan S || isnan sigma || isnan T || isnan r); reflexivity.
Qed.

Lemma greeks_fold_maps (S T r sigma : num) (ot : string) (Ks : list num) :
  forall res,
    fold_left (greeks_step S T r sigma ot) Ks res =
    mkGreeks (Delta res ++ map (delta_entry S T r sigma ot) Ks)
             (Gamma res ++ map (gamma_entry S T r sigma ot) Ks)
             (Theta res ++ map (theta_entry S T r sigma ot) Ks)
             (Vega res ++ map (vega_entry S T r sigma ot) Ks)
             (Rho res ++ map (rho_entry S T r sigma ot) Ks).
Proof.
  induction Ks as [| K Ks IH]; intros res; simpl.
  - rewrite !app_nil_r. destruct res; reflexivity.
  - rewrite IH, greeks_step_entries. unfold append_greeks; simpl.
    rewrite <- !app_assoc. reflexivity.
Qed.

Lemma calculate_greeks_maps (S : num) (Ks : list num) (T r sigma : num) (ot : string) :
  calculate_greeks S Ks T r sigma ot =
  mkGreeks (map (delta_entry S T r sigma ot) Ks) (map (gamma_entry S T r sigma ot) Ks)
           (map (theta_entry S T r sigma ot) Ks) (map (vega_entry S T r sigma ot) Ks)
           (map (rho_entry S T r sigma ot) Ks).
Proof. unfold calculate_greeks. rewrite greeks_fold_maps. reflexivity. Qed.

(** The batch continues past every strike: the result over a
    concatenation of strike lists is the concatenation of the results. *)
Lemma calculate_greeks_app (S : num) (Ks1 Ks2 : list num) (T r sigma : num)
    (ot : string) :
  let g1 := calculate_greeks S Ks1 T r sigma ot in
  let g2 := calculate_greeks S Ks2 T r sigma ot in
  calculate_greeks S (Ks1 ++ Ks2) T r sigma ot =
  mkGreeks (Delta g1 ++ Delta g2) (Gamma g1 ++ Gamma g2) (Theta g1 ++ Theta g2)
           (Vega g1 ++ Vega g2) (Rho g1 ++ Rho g2).
Proof.
  simpl. rewrite !calculate_greeks_maps, !map_app. reflexivity.
Qed.

(** The entries when the loop's NaN guard does not fire. *)
Lemma delta_entry_eq (S T r sigma : num) (ot : string) (K : num) :
  isnan S || isnan sigma || isnan T || isnan r = false ->
  delta_entry S T r sigma ot K =
  if is_call ot then norm_cdf (d1_of S K T r sigma)
  else nsub (norm_cdf (d1_of S K T r sigma)) (Fin 1).
Proof.
  intros H. unfold delta_entry, greeks_step. rewrite H. reflexivity.
Qed.

Lemma gamma_entry_eq (S T r sigma : num) (ot : string) (K : num) :
  isnan S || isnan sigma || isnan T || isnan r = false ->
  gamma_entry S T r sigma ot K =
  safe_divide (norm_pdf (d1_of S K T r sigma)) (nmul (nmul S sigma) (nsqrt T)).
Proof.
  intros H. unfold gamma_entry, greeks_step. rewrite H. reflexivity.
Qed.

Lemma map_const_repeat {A B : Type} (b : B) (l : list A) :
  map (fun _ => b) l = repeat b (List.length l).
Proof. induction l as [| a l IH]; simpl; [reflexivity | now rewrite IH]. Qed.

(** The Theta formula as the specification words it:
    [-safe_div(S*pdf(d1)*sigma, 2*sqrt(T)) - r*K*exp(-r*T)*cdf(d2)]. *)
Definition theta_formula (S K T r sigma : num) : num :=
  let d1 := d1_of S K T r sigma in
  let d2 := d2_of d1 T sigma in
  nsub (nneg (safe_divide (nmul (nmul S (norm_pdf d1)) sigma)
                          (nmul (Fin 2) (nsqrt T))))
       (nmul (nmul (nmul r K) (nexp (nmul (nneg r) T))) (norm_cdf d2)).

(** ** Degenerate inputs *)

(** C2: [black_scholes] returns exactly 0, whatever the option type, as
    soon as one of S, K, T, r, sigma is NaN or sigma is 0.  The function
    is total, so no fault is possible. *)
Theorem black_scholes_degenerate (S K T r sigma : num) (option_type : string) :
  isnan S = true \/ isnan K = true \/ isnan T = true \/ isnan r = true \/
  isnan sigma = true \/ is_zero sigma = true ->
  black_scholes S K T r sigma option_type = Fin 0.
Proof.
  intros H. unfold black_scholes.
  assert (G : isnan S || isnan K || isnan T || isnan r || isnan sigma
              || is_zero sigma = true).
  { destruct H as [H | [H | [H | [H | [H | H]]]]]; rewrite H;
      rewrite ?orb_true_r; reflexivity. }
  rewrite G. reflexivity.
Qed.

Lemma black_scholes_degenerate_witness :
  black_scholes (Fin 100) (Fin 150) (Fin (1 / 2)) (Fin (2 / 100)) (Fin 0) "call" = Fin 0
  /\ black_scholes (Fin 100) (Fin 150) (Fin (1 / 2)) (Fin (2 / 100)) (Fin 0) "put" = Fin 0
  /\ black_scholes (Fin 100) NaN (Fin (1 / 2)) (Fin (2 / 100)) (Fin 1) "put" = Fin 0.
Proof.
  split; [| split].
  - apply black_scholes_degenerate. do 5 right. exact is_zero_0.
  - apply black_scholes_degenerate. do 5 right. exact is_zero_0.
  - apply black_scholes_degenerate. right. left. reflexivity.
Defined.

(** X26: when one of S, T, r, sigma is NaN (the inputs the guard of the
    loop tests), every Greek of every strike is NaN, and every strike of
    the batch gets its entry. *)
Theorem greeks_nan_inputs (S : num) (Ks : list num) (T r sigma : num)
    (option_type : string) :
  isnan S = true \/ isnan T = true \/ isnan r = true \/ isnan sigma = true ->
  calculate_greeks S Ks T r sigma option_type =
  mkGreeks (repeat NaN (List.length Ks)) (repeat NaN (List.length Ks))
           (repeat NaN (List.length Ks)) (repeat NaN (List.length Ks))
           (repeat NaN (List.length Ks)).
Proof.
  intros H.
  assert (G : isnan S || isnan sigma || isnan T || isnan r = true).
  { destruct H as [H | [H | [H | H]]]; rewrite H; rewrite ?orb_true_r; reflexivity. }
  rewrite calculate_greeks_maps.
  assert (E : forall K, greeks_step S T r sigma option_type no_greeks K
                        = mkGreeks [NaN] [NaN] [NaN] [NaN] [NaN]).
  { intros K. unfold greeks_step. rewrite G. reflexivity. }
  rewrite <- !(map_const_repeat NaN Ks).
  f_equal; apply map_ext; intros K;
    unfold delta_entry, gamma_entry, theta_entry, vega_entry, rho_entry;
    rewrite E; reflexivity.
Qed.

Lemma greeks_nan_inputs_witness :
  calculate_greeks (Fin 100) [Fin 80; Fin 90; Fin 100] (Fin 1) (Fin 0) NaN "call" =
  mkGreeks [NaN; NaN; NaN] [NaN; NaN; NaN] [NaN; NaN; NaN] [NaN; NaN; NaN]
           [NaN; NaN; NaN].
Proof.
  apply (greeks_nan_inputs (Fin 100) [Fin 80; Fin 90; Fin 100] (Fin 1) (Fin 0) NaN "call").
  do 3 right. reflexivity.
Defined.

(** C1: the code at the failing input.  At sigma = 0, for S = 100,
    K = 150, T = 0.5, r = 0.02, the loop does not take the NaN branch
    (its guard, unlike that of [black_scholes], has no test of
    sigma == 0 and none of the strike): the safe divisions return 0,
    and Delta is cdf(0) = 0.5 and Gamma is 0, where C1 says NaN.  A NaN
    strike at T = 0 (S = 100, r = 0.02, sigma = 0.2) gives the same
    Delta and Gamma. *)
Lemma greeks_zero_sigma_not_nan :
  is_zero (Fin 0) = true
  /\ Delta (calculate_greeks (Fin 100) [Fin 150] (Fin (1 / 2)) (Fin (2 / 100))
              (Fin 0) "call") = [Fin (1 / 2)]
  /\ Gamma (calculate_greeks (Fin 100) [Fin 150] (Fin (1 / 2)) (Fin (2 / 100))
              (Fin 0) "call") = [Fin 0]
  /\ isnan NaN = true
  /\ Delta (calculate_greeks (Fin 100) [NaN] (Fin 0) (Fin (2 / 100))
              (Fin (2 / 10)) "call") = [Fin (1 / 2)]
  /\ Gamma (calculate_greeks (Fin 100) [NaN] (Fin 0) (Fin (2 / 100))
              (Fin (2 / 10)) "call") = [Fin 0].
Proof.
  assert (Hs : nsqrt (Fin (1 / 2)) = Fin (sqrt (1 / 2))) by (apply nsqrt_Fin; lra).
  assert (Hd : d1_of (Fin 100) (Fin 150) (Fin (1 / 2)) (Fin (2 / 100)) (Fin 0) = Fin 0).
  { unfold d1_of. apply safe_divide_zero. rewrite Hs. cbn [nmul].
    apply is_zero_Fin_eq. ring. }
  split; [exact is_zero_0 |].
  rewrite !calculate_greeks_maps. cbn [map Delta Gamma].
  rewrite !delta_entry_eq, !gamma_entry_eq by reflexivity.
  rewrite Hd, Hs, d1_of_expiry.
  change (is_call "call") with true. cbn [norm_cdf]. rewrite Phi_0.
  split; [reflexivity |]. split.
  { rewrite safe_divide_zero; [reflexivity |].
    cbn [nmul]. apply is_zero_Fin_eq. ring. }
  split; [reflexivity |]. split; [reflexivity |].
  rewrite safe_divide_zero; [reflexivity |].
  rewrite nsqrt_Fin by lra. cbn [nmul]. apply is_zero_Fin_eq.
  rewrite sqrt_0. ring.
Qed.

(** C4: each of the five sequences has exactly the length of the strike
    sequence, whatever the inputs. *)
Theorem greeks_lengths (S : num) (Ks : list num) (T r sigma : num)
    (option_type : string) :
  let g := calculate_greeks S Ks T r sigma option_type in
  List.length (Delta g) = List.length Ks
  /\ List.length (Gamma g) = List.length Ks
  /\ List.length (Theta g) = List.length Ks
  /\ List.length (Vega g) = List.length Ks
  /\ List.length (Rho g) = List.length Ks.
Proof.
  simpl. rewrite calculate_greeks_maps. simpl.
  rewrite !length_map. repeat split; reflexivity.
Qed.

(** C8: Theta is the one formula [theta_formula] at every strike (NaN
    when the loop's guard fires), whatever the option type; the Theta,
    Gamma and Vega sequences for ['call'] and ['put'] (indeed for any two
    option types) coincide. *)
Theorem theta_ignores_option_type (S : num) (Ks : list num) (T r sigma : num)
    (ot ot' : string) :
  Theta (calculate_greeks S Ks T r sigma ot) =
    map (fun K => if isnan S || isnan sigma || isnan T || isnan r then NaN
                  else theta_formula S K T r sigma) Ks
  /\ Theta (calculate_greeks S Ks T r sigma "call") =
     Theta (calculate_greeks S Ks T r sigma "put")
  /\ Theta (calculate_greeks S Ks T r sigma ot) =
     Theta (calculate_greeks S Ks T r sigma ot')
  /\ Gamma (calculate_greeks S Ks T r sigma ot) =
     Gamma (calculate_greeks S Ks T r sigma ot')
  /\ Vega (calculate_greeks S Ks T r sigma ot) =
     Vega (calculate_greeks S Ks T r sigma ot').
Proof.
  assert (Ht : forall o K, theta_entry S T r sigma o K =
                 if isnan S || isnan sigma || isnan T || isnan r then NaN
                 else theta_formula S K T r sigma).
  { intros o K. unfold theta_entry, greeks_step, theta_formula.
    destruct (isnan S || isnan sigma || isnan T || isnan r); reflexivity. }
  assert (Hg : forall o o' K, gamma_entry S T r sigma o K = gamma_entry S T r sigma o' K).
  { intros o o' K. unfold gamma_entry, greeks_step.
    destruct (isnan S || isnan sigma || isnan T || isnan r); reflexivity. }
  assert (Hv : forall o o' K, vega_entry S T r sigma o K = vega_entry S T r sigma o' K).
  { intros o o' K. unfold vega_entry, greeks_step.
    destruct (isnan S || isnan sigma || isnan T || isnan r); reflexivity. }
  rewrite !calculate_greeks_maps. simpl.
  repeat split; apply map_ext; intros K; rewrite ?Ht; auto.
Qed.

(** ** Pricing on finite inputs *)

(** [d1] as a real number, for a non-zero volatility and a positive
    tenor. *)
Definition d1_real (s k t rr sg : R) : R :=
  (ln (s / k) + (rr + 1 / 2 * (sg * sg)) * t) / (sg * sqrt t).

Lemma vol_sqrt_pos (t sg : R) : 0 < t -> 0 < sg -> 0 < sg * sqrt t.
Proof. intros Ht Hsg. apply Rmult_lt_0_compat; [exact Hsg | apply sqrt_lt_R0, Ht]. Qed.

Lemma vol_sqrt_neq (t sg : R) : 0 < t -> sg <> 0 -> sg * sqrt t <> 0.
Proof.
  intros Ht Hsg. apply Rmult_integral_contrapositive_currified; [exact Hsg |].
  pose proof (sqrt_lt_R0 t Ht). lra.
Qed.

Lemma d1_of_Fin (s k t rr sg : R) :
  0 < s -> 0 < k -> 0 < t -> sg <> 0 ->
  d1_of (Fin s) (Fin k) (Fin t) (Fin rr) (Fin sg) = Fin (d1_real s k t rr sg).
Proof.
  intros Hs Hk Ht Hsg. unfold d1_of, d1_real.
  rewrite ndiv_Fin by lra.
  rewrite nlog_Fin by (apply Rdiv_lt_0_compat; assumption).
  rewrite nsqrt_Fin by lra. cbn [nsquare nmul nadd].
  apply safe_divide_Fin, vol_sqrt_neq; assumption.
Qed.

Lemma d2_of_Fin (d t sg : R) :
  0 <= t -> d2_of (Fin d) (Fin t) (Fin sg) = Fin (d - sg * sqrt t).
Proof.
  intros Ht. unfold d2_of. rewrite nsqrt_Fin by exact Ht. reflexivity.
Qed.

Lemma guard_Fin (s k t rr sg : R) :
  sg <> 0 ->
  isnan (Fin s) || isnan (Fin k) || isnan (Fin t) || isnan (Fin rr)
  || isnan (Fin sg) || is_zero (Fin sg) = false.
Proof. intros H. cbn [isnan orb]. apply is_zero_Fin_neq, H. Qed.

Lemma is_call_call : is_call "call" = true.
Proof. reflexivity. Qed.

Lemma is_call_put : is_call "put" = false.
Proof. reflexivity. Qed.

Lemma black_scholes_call_Fin (s k t rr sg : R) :
  0 < s -> 0 < k -> 0 < t -> sg <> 0 ->
  black_scholes (Fin s) (Fin k) (Fin t) (Fin rr) (Fin sg) "call" =
  Fin (s * Phi (d1_real s k t rr sg)
       - k * exp (- rr * t) * Phi (d1_real s k t rr sg - sg * sqrt t)).
Proof.
  intros Hs Hk Ht Hsg. unfold black_scholes.
  rewrite guard_Fin by exact Hsg. rewrite is_call_call.
  rewrite d1_of_Fin by assumption. rewrite d2_of_Fin by lra.
  reflexivity.
Qed.

Lemma black_scholes_put_Fin (s k t rr sg : R) (ot : string) :
  is_call ot = false ->
  0 < s -> 0 < k -> 0 < t -> sg <> 0 ->
  black_scholes (Fin s) (Fin k) (Fin t) (Fin rr) (Fin sg) ot =
  Fin (k * exp (- rr * t) * Phi (- (d1_real s k t rr sg - sg * sqrt t))
       - s * Phi (- d1_real s k t rr sg)).
Proof.
  intros Hot Hs Hk Ht Hsg. unfold black_scholes.
  rewrite guard_Fin by exact Hsg. rewrite Hot.
  rewrite d1_of_Fin by assumption. rewrite d2_of_Fin by lra.
  reflexivity.
Qed.

(** When S / K is negative, [np.log] gives NaN and so does the price. *)
Lemma black_scholes_nan_log (s k t rr sg : R) (ot : string) :
  k <> 0 -> s / k < 0 -> 0 < t -> sg <> 0 ->
  black_scholes (Fin s) (Fin k) (Fin t) (Fin rr) (Fin sg) ot = NaN.
Proof.
  intros Hk Hsk Ht Hsg.
  assert (Hd : d1_of (Fin s) (Fin k) (Fin t) (Fin rr) (Fin sg) = NaN).
  { unfold d1_of. rewrite ndiv_Fin by exact Hk. rewrite nlog_negative by exact Hsk.
    rewrite nsqrt_Fin by lra. cbn [nsquare nmul nadd].
    apply safe_divide_NaN, vol_sqrt_neq; assumption. }
  unfold black_scholes. rewrite guard_Fin by exact Hsg. rewrite Hd.
  destruct (is_call ot); reflexivity.
Qed.

(** ** Put-call parity *)

(** ** The range of double precision

    A finite number of the model is a real: the rounding of a double is
    not represented, and neither is its overflow to an infinity or its
    underflow to zero.  A result that depends on the size of an
    intermediate value is therefore stated for the inputs on which the
    evaluation in double precision neither overflows nor underflows.
    The bound 2^1000 stays well inside the range of the normal doubles,
    2^-1022 to 2^1024, so that rounding cannot cross it.  The proofs,
    which are about the real numbers, do not use these bounds: the
    bounds mark the inputs on which the program follows the model up to
    rounding. *)

(** No intermediate result of the price overflows: [S / K],
    [sigma ** 2], [r + 0.5 * sigma ** 2] and its product with [T],
    [sigma * np.sqrt(T)], [np.exp(-r * T)] and [K * np.exp(-r * T)]. *)
Definition no_overflow (s k t rr sg : R) : Prop :=
  Rabs (s / k) <= 2 ^ 1000
  /\ sg * sg <= 2 ^ 1000
  /\ Rabs (rr + 1 / 2 * (sg * sg)) <= 2 ^ 1000
  /\ Rabs ((rr + 1 / 2 * (sg * sg)) * t) <= 2 ^ 1000
  /\ Rabs (sg * sqrt t) <= 2 ^ 1000
  /\ exp (- rr * t) <= 2 ^ 1000
  /\ Rabs (k * exp (- rr * t)) <= 2 ^ 1000.

(** None of these products, quotients and exponentials underflows. *)
Definition no_underflow (s k t rr sg : R) : Prop :=
  / 2 ^ 1000 <= Rabs (s / k)
  /\ / 2 ^ 1000 <= sg * sg
  /\ ((rr + 1 / 2 * (sg * sg)) * t = 0
      \/ / 2 ^ 1000 <= Rabs ((rr + 1 / 2 * (sg * sg)) * t))
  /\ / 2 ^ 1000 <= Rabs (sg * sqrt t)
  /\ / 2 ^ 1000 <= exp (- rr * t)
  /\ / 2 ^ 1000 <= Rabs (k * exp (- rr * t)).

Definition in_double_range (s k t rr sg : R) : Prop :=
  no_overflow s k t rr sg /\ no_underflow s k t rr sg.

(** The guard (sigma = 0) or the safe division (T = 0) settles the price
    before the size of anything matters, or the formula is evaluated in
    range. *)
Definition safely_evaluated (s k t rr sg : R) : Prop :=
  sg = 0 \/ t = 0 \/ in_double_range s k t rr sg.

(** Inputs of moderate size, for the Greeks, which multiply more of
    them together: a spot, a strike, a time and a volatility between
    2^-100 and 2^100, a rate of at most 2^100 and [r * T] of at most 512
    in absolute value. *)
Definition moderate (x : R) : Prop := / 2 ^ 100 <= x <= 2 ^ 100.

Definition moderate_market (s t rr sg : R) : Prop :=
  moderate s /\ moderate t /\ moderate (Rabs sg)
  /\ Rabs rr <= 2 ^ 100 /\ Rabs (rr * t) <= 512.

(** The total volatility [sigma * np.sqrt(T)] is large enough for d1 to
    be well conditioned: the rounding of the numerator of d1, divided
    by it, stays small.  The prices do not need this (near the point
    where d1 changes sign they depend on it continuously), the cumulated
    probabilities and the density of d1 do. *)
Definition well_conditioned (t sg : R) : Prop := / 2 ^ 20 <= Rabs (sg * sqrt t).

Lemma exp_nonpos_le_1 (x : R) : x <= 0 -> exp x <= 1.
Proof.
  intros [H | ->]; [| rewrite exp_0; lra].
  left. rewrite <- exp_0. apply exp_increasing, H.
Qed.

Lemma exp_ge_third (x : R) : -1 <= x -> / 3 <= exp x.
Proof.
  intros H. apply Rle_trans with (exp (Ropp 1)).
  - rewrite exp_Ropp. pose proof exp_le_3. pose proof (exp_pos 1).
    apply Rinv_le_contravar; assumption.
  - assert (H' : Ropp 1 <= x) by lra.
    destruct H' as [H' | <-]; [left; apply exp_increasing, H' | lra].
Qed.

(** At T = 1, ordinary inputs are in range. *)
Lemma in_double_range_one_year (s k rr sg : R) :
  0 < k -> / 1024 <= s / k <= 1024 -> / 1024 <= k <= 1024 ->
  0 <= rr <= 1 -> / 32 <= Rabs sg <= 32 ->
  in_double_range s k 1 rr sg.
Proof.
  intros Hk Hsk Hk' Hr Hsg.
  assert (Hq : sg * sg = Rabs sg * Rabs sg).
  { unfold Rabs. destruct (Rcase_abs sg); ring. }
  assert (Hq1 : / 1024 <= sg * sg) by (rewrite Hq; nra).
  assert (Hq2 : sg * sg <= 1024) by (rewrite Hq; nra).
  pose proof (exp_nonpos_le_1 (- rr * 1) ltac:(lra)) as He1.
  pose proof (exp_ge_third (- rr * 1) ltac:(lra)) as He2.
  assert (Hke : / 3072 <= k * exp (- rr * 1) <= 1024) by nra.
  rewrite <- (Rabs_pos_eq (s / k)) in Hsk by lra.
  rewrite <- (Rabs_pos_eq (k * exp (- rr * 1))) in Hke by lra.
  assert (Hc : / 2048 <= (rr + 1 / 2 * (sg * sg)) * 1 <= 1024) by lra.
  rewrite <- (Rabs_pos_eq ((rr + 1 / 2 * (sg * sg)) * 1)) in Hc by lra.
  assert (Hc' : Rabs (rr + 1 / 2 * (sg * sg)) <= 1024)
    by (rewrite Rabs_pos_eq; lra).
  assert (Hv : Rabs (sg * sqrt 1) = Rabs sg)
    by (rewrite sqrt_1, Rmult_1_r; reflexivity).
  unfold in_double_range, no_overflow, no_underflow. rewrite Hv.
  repeat split; try lra; right; lra.
Qed.



(** *** The rate -inf: an overflowing discount factor *)

Lemma d1_of_overflow :
  d1_of (Fin 100) (Fin 100) (Fin 1) NInf (Fin 1) = NInf.
Proof.
  assert (Hone : sgn 1 = Pos) by (apply sgn_pos; lra).
  unfold d1_of. rewrite nsqrt_Fin by lra. rewrite ndiv_Fin by lra.
  rewrite nlog_Fin by lra. cbn [nsquare nmul nadd sign_of sign_mul].
  rewrite Hone. cbn [inf_of sign_mul nadd].
  unfold safe_divide. rewrite is_zero_Fin_neq by (rewrite sqrt_1; lra).
  cbn [ndiv sign_of sign_mul].
  destruct (Req_dec_T (1 * sqrt 1) 0) as [E | _];
    [rewrite sqrt_1 in E; lra |].
  rewrite sgn_pos by (rewrite sqrt_1; lra). reflexivity.
Qed.

Lemma discount_overflow : nmul (Fin 100) (nexp (nmul (nneg NInf) (Fin 1))) = PInf.
Proof.
  cbn [nneg nmul nexp sign_of sign_mul].
  rewrite (sgn_pos 1) by lra. cbn [inf_of sign_mul nexp nmul sign_of].
  rewrite (sgn_pos 100) by lra. reflexivity.
Qed.

Lemma black_scholes_call_overflow :
  black_scholes (Fin 100) (Fin 100) (Fin 1) NInf (Fin 1) "call" = NaN.
Proof.
  unfold black_scholes. cbn [isnan orb].
  rewrite is_zero_Fin_neq by lra. rewrite is_call_call.
  rewrite d1_of_overflow, discount_overflow.
  unfold d2_of. rewrite nsqrt_Fin by lra.
  cbn [nmul nsub nneg nadd norm_cdf sign_of sign_mul].
  rewrite sgn_zero. reflexivity.
Qed.



(** ** Zero time to expiry *)

Lemma d2_of_expiry (sg : R) : d2_of (Fin 0) (Fin 0) (Fin sg) = Fin 0.
Proof.
  rewrite d2_of_Fin by lra. f_equal. rewrite sqrt_0. ring.
Qed.

Lemma discount_expiry (rr : R) : nexp (nmul (nneg (Fin rr)) (Fin 0)) = Fin 1.
Proof.
  cbn [nneg nmul nexp]. f_equal.
  replace (- rr * 0) with 0 by ring. apply exp_0.
Qed.

Lemma black_scholes_expiry_call (s k rr sg : R) :
  sg <> 0 ->
  black_scholes (Fin s) (Fin k) (Fin 0) (Fin rr) (Fin sg) "call" = Fin ((s - k) / 2).
Proof.
  intros Hsg. unfold black_scholes.
  rewrite guard_Fin by exact Hsg. rewrite is_call_call.
  rewrite d1_of_expiry, d2_of_expiry, discount_expiry.
  cbn [norm_cdf nmul nsub nneg nadd]. rewrite Phi_0. f_equal. field.
Qed.

Lemma black_scholes_expiry_put (s k rr sg : R) (ot : string) :
  is_call ot = false -> sg <> 0 ->
  black_scholes (Fin s) (Fin k) (Fin 0) (Fin rr) (Fin sg) ot = Fin ((k - s) / 2).
Proof.
  intros Hot Hsg. unfold black_scholes.
  rewrite guard_Fin by exact Hsg. rewrite Hot.
  rewrite d1_of_expiry, d2_of_expiry, discount_expiry.
  cbn [norm_cdf nmul nsub nneg nadd].
  replace (- 0) with 0 by ring. rewrite Phi_0. f_equal. field.
Qed.

(** C10: at T = 0 with finite S > 0, K > 0, sigma > 0 and finite r, the
    safe division makes d1 = 0 and d2 = 0, the call price is (S - K) / 2
    and the put price (K - S) / 2; these differ from the intrinsic values
    max(S - K, 0) and max(K - S, 0) whenever S <> K, and the call price is
    negative when S < K (the put price when K < S). *)
Theorem black_scholes_at_expiry (s k rr sg : R) (put : string) :
  is_call put = false ->
  0 < s -> 0 < k -> 0 < sg ->
  d1_of (Fin s) (Fin k) (Fin 0) (Fin rr) (Fin sg) = Fin 0
  /\ d2_of (d1_of (Fin s) (Fin k) (Fin 0) (Fin rr) (Fin sg)) (Fin 0) (Fin sg) = Fin 0
  /\ black_scholes (Fin s) (Fin k) (Fin 0) (Fin rr) (Fin sg) "call" = Fin ((s - k) / 2)
  /\ black_scholes (Fin s) (Fin k) (Fin 0) (Fin rr) (Fin sg) put = Fin ((k - s) / 2)
  /\ (s <> k ->
      black_scholes (Fin s) (Fin k) (Fin 0) (Fin rr) (Fin sg) "call"
        <> Fin (Rmax (s - k) 0)
      /\ black_scholes (Fin s) (Fin k) (Fin 0) (Fin rr) (Fin sg) put
        <> Fin (Rmax (k - s) 0))
  /\ (s < k ->
      exists p, black_scholes (Fin s) (Fin k) (Fin 0) (Fin rr) (Fin sg) "call" = Fin p
                /\ p < 0)
  /\ (k < s ->
      exists p, black_scholes (Fin s) (Fin k) (Fin 0) (Fin rr) (Fin sg) put = Fin p
                /\ p < 0).
Proof.
  intros Hot Hs Hk Hsg.
  assert (Hne : sg <> 0) by lra.
  rewrite d1_of_expiry, d2_of_expiry.
  rewrite black_scholes_expiry_call by exact Hne.
  rewrite (black_scholes_expiry_put s k rr sg put Hot Hne).
  split; [reflexivity |]. split; [reflexivity |].
  split; [reflexivity |]. split; [reflexivity |].
  split; [| split].
  - intros Hsk. split; intros E; injection E as E; revert E; unfold Rmax.
    + destruct (Rle_dec (s - k) 0); lra.
    + destruct (Rle_dec (k - s) 0); lra.
  - intros Hlt. exists ((s - k) / 2). split; [reflexivity | lra].
  - intros Hlt. exists ((k - s) / 2). split; [reflexivity | lra].
Qed.

Lemma black_scholes_at_expiry_witness :
  black_scholes (Fin 100) (Fin 150) (Fin 0) (Fin (2 / 100)) (Fin (2 / 10)) "call"
  = Fin ((100 - 150) / 2)
  /\ black_scholes (Fin 100) (Fin 150) (Fin 0) (Fin (2 / 100)) (Fin (2 / 10)) "put"
  = Fin ((150 - 100) / 2).
Proof.
  assert (Hput : is_call "put" = false) by reflexivity.
  assert (H1 : 0 < 100) by lra.
  assert (H2 : 0 < 150) by lra.
  assert (H3 : 0 < 2 / 10) by lra.
  pose proof (black_scholes_at_expiry 100 150 (2 / 100) (2 / 10) "put" Hput H1 H2 H3)
    as (_ & _ & Hc & Hp & _).
  split; [exact Hc | exact Hp].
Defined.

(** ** Monotonicity of the call price *)

Lemma black_scholes_zero_sigma (S K T r : num) (ot : string) :
  black_scholes S K T r (Fin 0) ot = Fin 0.
Proof.
  unfold black_scholes. rewrite is_zero_0, !orb_true_r. reflexivity.
Qed.

Lemma d_star_d1_real (s k t rr sg : R) :
  0 < s -> 0 < k -> 0 < t -> sg <> 0 ->
  d_star s (k * exp (- rr * t)) (sg * sqrt t) = d1_real s k t rr sg.
Proof.
  intros Hs Hk Ht Hsg. unfold d_star, d1_real.
  assert (Hln : ln (s / (k * exp (- rr * t))) = ln (s / k) + rr * t).
  { replace (s / (k * exp (- rr * t))) with (s / k * exp (rr * t)).
    - rewrite ln_mult; [rewrite ln_exp; reflexivity | | apply exp_pos].
      apply Rdiv_lt_0_compat; assumption.
    - replace (- rr * t) with (- (rr * t)) by ring. rewrite exp_Ropp.
      pose proof (exp_pos (rr * t)). field. lra. }
  rewrite Hln.
  assert (Hq : 0 < sqrt t) by (apply sqrt_lt_R0, Ht).
  assert (Et : t = sqrt t * sqrt t) by (symmetry; apply sqrt_sqrt; lra).
  set (q := sqrt t) in *. clearbody q.
  set (A := ln (s / k)). clearbody A.
  rewrite Et. field. lra.
Qed.

(** The call price for a non-zero volatility is [call_value] at the
    discounted strike [K * exp(-r * T)] and total volatility
    [sigma * sqrt(T)]. *)
Lemma black_scholes_call_value (s k t rr sg : R) :
  0 < s -> 0 < k -> 0 < t -> sg <> 0 ->
  black_scholes (Fin s) (Fin k) (Fin t) (Fin rr) (Fin sg) "call" =
  Fin (call_value s (k * exp (- rr * t)) (sg * sqrt t)).
Proof.
  intros Hs Hk Ht Hsg.
  rewrite black_scholes_call_Fin by assumption.
  unfold call_value, envelope. rewrite d_star_d1_real by assumption.
  reflexivity.
Qed.

(** For a negative volatility it is the mirror image of the call value
    at the opposite volatility. *)
Lemma black_scholes_call_negative_vol (s k t rr sg : R) :
  0 < s -> 0 < k -> 0 < t -> sg < 0 ->
  black_scholes (Fin s) (Fin k) (Fin t) (Fin rr) (Fin sg) "call" =
  Fin (s - k * exp (- rr * t)
       - call_value s (k * exp (- rr * t)) (- sg * sqrt t)).
Proof.
  intros Hs Hk Ht Hsg.
  rewrite black_scholes_call_value by lra.
  replace (sg * sqrt t) with (- (- sg * sqrt t)) by ring.
  rewrite call_value_negative_vol; [reflexivity |].
  apply vol_sqrt_neq; lra.
Qed.

(** C7, as amended: for a finite strike K > 0 and rate r, the call price
    is non-decreasing in the spot over S > 0 when T >= 0, and
    non-decreasing in the volatility when T > 0 (for any fixed S > 0),
    between inputs at which the price is safely evaluated: sigma = 0
    (the guard), T = 0 (the safe division), or no intermediate result
    overflows or underflows. *)
Theorem call_price_monotone (k rr : R) :
  0 < k ->
  (forall t sg s1 s2, 0 <= t -> 0 < s1 -> s1 <= s2 ->
     safely_evaluated s1 k t rr sg -> safely_evaluated s2 k t rr sg ->
     num_le (black_scholes (Fin s1) (Fin k) (Fin t) (Fin rr) (Fin sg) "call")
            (black_scholes (Fin s2) (Fin k) (Fin t) (Fin rr) (Fin sg) "call"))
  /\ (forall t s sg1 sg2, 0 < t -> 0 < s -> sg1 <= sg2 ->
     safely_evaluated s k t rr sg1 -> safely_evaluated s k t rr sg2 ->
     num_le (black_scholes (Fin s) (Fin k) (Fin t) (Fin rr) (Fin sg1) "call")
            (black_scholes (Fin s) (Fin k) (Fin t) (Fin rr) (Fin sg2) "call")).
Proof.
  intros Hk.
  assert (HK : forall t, 0 < k * exp (- rr * t)).
  { intros t. apply Rmult_lt_0_compat; [exact Hk | apply exp_pos]. }
  assert (Hv : forall t sg, 0 < t -> 0 < sg -> 0 < sg * sqrt t).
  { intros t sg Ht Hsg. apply vol_sqrt_pos; assumption. }
  split.
  - intros t sg s1 s2 [Ht | <-] H1 H12 _ _.
    + destruct (total_order_T sg 0) as [[Hsg | ->] | Hsg].
      * rewrite !black_scholes_call_negative_vol by lra. cbn [num_le].
        pose proof (call_value_spot_slope s1 s2 (k * exp (- rr * t)) (- sg * sqrt t)
                      H1 H12 (HK t) (Hv t (- sg) Ht ltac:(lra))).
        lra.
      * rewrite !black_scholes_zero_sigma. cbn [num_le]. lra.
      * rewrite !black_scholes_call_value by lra. cbn [num_le].
        apply call_value_mono_spot; auto.
    + destruct (Req_dec sg 0) as [-> | Hsg].
      * rewrite !black_scholes_zero_sigma. cbn [num_le]. lra.
      * rewrite !black_scholes_expiry_call by exact Hsg. cbn [num_le]. lra.
  - intros t s sg1 sg2 Ht Hs H12 _ _.
    pose proof (sqrt_lt_R0 t Ht) as Hq.
    destruct (total_order_T sg1 0) as [[H1 | ->] | H1];
      destruct (total_order_T sg2 0) as [[H2 | ->] | H2]; try lra;
      rewrite ?black_scholes_zero_sigma;
      rewrite ?(black_scholes_call_negative_vol s k t rr sg1) by lra;
      rewrite ?(black_scholes_call_negative_vol s k t rr sg2) by lra;
      rewrite ?(black_scholes_call_value s k t rr sg1) by lra;
      rewrite ?(black_scholes_call_value s k t rr sg2) by lra;
      cbn [num_le].
    + pose proof (call_value_mono_vol s (k * exp (- rr * t)) (- sg2 * sqrt t)
                    (- sg1 * sqrt t) Hs (HK t) (Hv t (- sg2) Ht ltac:(lra))
                    ltac:(apply Rmult_le_compat_r; lra)).
      lra.
    + pose proof (call_value_ge_forward s (k * exp (- rr * t)) (- sg1 * sqrt t)
                    Hs (HK t) (Hv t (- sg1) Ht ltac:(lra))).
      lra.
    + pose proof (call_value_ge_forward s (k * exp (- rr * t)) (- sg1 * sqrt t)
                    Hs (HK t) (Hv t (- sg1) Ht ltac:(lra))).
      pose proof (call_value_nonneg s (k * exp (- rr * t)) (sg2 * sqrt t)
                    Hs (HK t) (Hv t sg2 Ht H2)).
      lra.
    + lra.
    + apply call_value_nonneg; auto.
    + apply call_value_mono_vol; auto.
      apply Rmult_le_compat_r; lra.
Qed.

Lemma call_price_monotone_witness :
  num_le (black_scholes (Fin 90) (Fin 100) (Fin 1) (Fin (2 / 100)) (Fin (2 / 10)) "call")
         (black_scholes (Fin 110) (Fin 100) (Fin 1) (Fin (2 / 100)) (Fin (2 / 10)) "call")
  /\ num_le (black_scholes (Fin 100) (Fin 100) (Fin 1) (Fin (2 / 100)) (Fin (1 / 10)) "call")
            (black_scholes (Fin 100) (Fin 100) (Fin 1) (Fin (2 / 100)) (Fin (3 / 10)) "call").
Proof.
  assert (Hk : 0 < 100) by lra.
  assert (Hr : forall s sg, / 1024 <= s / 100 <= 1024 -> / 32 <= sg <= 32 ->
                 safely_evaluated s 100 1 (2 / 100) sg).
  { intros s sg Hs Hsg. right. right.
    apply in_double_range_one_year; rewrite ?Rabs_pos_eq; lra. }
  destruct (call_price_monotone 100 (2 / 100) Hk) as [Hspot Hvol].
  split.
  - apply Hspot; try lra; apply Hr; lra.
  - apply Hvol; try lra; apply Hr; lra.
Defined.

(** C7 as stated fails at T = 0: with S = 100, K = 150, r = 0 the price
    is 0 for sigma = 0 but (100 - 150) / 2 = -25 for sigma = 1, so the
    price decreases when the volatility increases; in double precision
    the same branch of the safe division is taken for T > 0 as soon as
    [sigma * np.sqrt(T)] underflows to 0.  It also fails for a negative
    spot (S = -1, K = 1, T = 1, r = 0, sigma = 1), where the price is
    NaN and compares with nothing, and when the discount factor
    overflows (S = K = 100, T = 1, sigma = 1 and the rate -inf, which
    stands for a rate so low that [np.exp(-r * T)] is inf), where the
    price is 0 - inf * 0 = NaN. *)
Lemma call_price_not_monotone_at_expiry :
  num_le (Fin 0) (Fin 1)
  /\ black_scholes (Fin 100) (Fin 150) (Fin 0) (Fin 0) (Fin 0) "call" = Fin 0
  /\ black_scholes (Fin 100) (Fin 150) (Fin 0) (Fin 0) (Fin 1) "call" = Fin (-25)
  /\ ~ num_le (black_scholes (Fin 100) (Fin 150) (Fin 0) (Fin 0) (Fin 0) "call")
              (black_scholes (Fin 100) (Fin 150) (Fin 0) (Fin 0) (Fin 1) "call")
  /\ num_le (Fin (-1)) (Fin (-1))
  /\ ~ num_le (black_scholes (Fin (-1)) (Fin 1) (Fin 1) (Fin 0) (Fin 1) "call")
              (black_scholes (Fin (-1)) (Fin 1) (Fin 1) (Fin 0) (Fin 1) "call")
  /\ num_le (Fin 100) (Fin 100)
  /\ ~ num_le (black_scholes (Fin 100) (Fin 100) (Fin 1) NInf (Fin 1) "call")
              (black_scholes (Fin 100) (Fin 100) (Fin 1) NInf (Fin 1) "call").
Proof.
  assert (E0 : black_scholes (Fin 100) (Fin 150) (Fin 0) (Fin 0) (Fin 0) "call" = Fin 0)
    by apply black_scholes_zero_sigma.
  assert (E1 : black_scholes (Fin 100) (Fin 150) (Fin 0) (Fin 0) (Fin 1) "call" = Fin (-25)).
  { rewrite black_scholes_expiry_call by lra. f_equal. lra. }
  assert (E2 : black_scholes (Fin (-1)) (Fin 1) (Fin 1) (Fin 0) (Fin 1) "call" = NaN).
  { apply black_scholes_nan_log; lra. }
  assert (E3 : black_scholes (Fin 100) (Fin 100) (Fin 1) NInf (Fin 1) "call" = NaN)
    by apply black_scholes_call_overflow.
  rewrite E0, E1, E2, E3. cbn [num_le].
  split; [lra |]. split; [reflexivity |]. split; [reflexivity |].
  split; [lra |]. split; [lra |]. split; [tauto |]. split; [lra | tauto].
Qed.

(** ** The volatility estimator *)

Lemma dropna_no_nan (xs : list num) : forallb isnan (dropna xs) = true -> dropna xs = [].
Proof.
  unfold dropna. induction xs as [| x xs IH]; simpl; [reflexivity |].
  destruct (isnan x) eqn:E; simpl; [exact IH |].
  rewrite E. discriminate.
Qed.

Lemma dropna_all_nan (xs : list num) :
  Forall (fun x => isnan x = true) xs -> dropna xs = [].
Proof.
  unfold dropna. induction 1 as [| x xs Hx _ IH]; simpl; [reflexivity |].
  rewrite Hx. exact IH.
Qed.

Lemma no_data_test (xs : list num) :
  series_empty (dropna xs) || isnull_all (dropna xs) = true <-> dropna xs = [].
Proof.
  split.
  - intros H. apply orb_true_iff in H. destruct H as [H | H].
    + destruct (dropna xs); [reflexivity | discriminate].
    + apply dropna_no_nan, H.
  - intros ->. reflexivity.
Qed.

Section VolatilityFacts.

Variables Model Fitted : Type.
Variable pct_change : list num -> list num.
Variable np_std : list num -> num.
Variable arch_model : list num -> result Model.
Variable fit : Model -> result Fitted.
Variable forecast_variance : Fitted -> result num.

Local Abbreviation estimate :=
  (calculate_annualized_volatility Model Fitted pct_change np_std arch_model fit
     forecast_variance).
Local Abbreviation garch :=
  (get_garch_volatility Model Fitted arch_model fit forecast_variance).
Local Abbreviation returns_of := (daily_returns_of pct_change).

(** The value and the log record of the fallback path. *)
Definition fallback_value (dr : list num) : num :=
  nmul (np_std dr) (nsqrt (Fin 252)).

Definition fallback_record (dr : list num) : log_record :=
  (INFO, MsgNum "Standard Deviation Based Annualized Volatility: "
                (fallback_value dr) "%").

Definition garch_failed_record : log_record :=
  (WARNING, Msg "GARCH model fitting failed, falling back to standard deviation.").

Definition fit_error_record (e : exn) : log_record :=
  (ERROR, Msg ("Failed to fit GARCH model: " ++ e)).

Definition no_data_record : log_record :=
  (WARNING, Msg "Daily returns are empty or NaN.").

Lemma fallback_run (dr : list num) (l : list log_record) :
  fallback np_std dr l = (Ok (fallback_value dr), l ++ [fallback_record dr]).
Proof. reflexivity. Qed.

Lemma estimate_no_data (h : hist_data) (l : list log_record) :
  returns_of h = [] -> estimate h l = (Ok NaN, l ++ [no_data_record]).
Proof.
  intros E. unfold calculate_annualized_volatility.
  destruct (no_data_test (pct_change (Close h))) as [_ Ht].
  unfold daily_returns_of in *. rewrite (Ht E). reflexivity.
Qed.

Lemma estimate_short (h : hist_data) (l : list log_record) :
  returns_of h <> [] -> (List.length (returns_of h) <= 30)%nat ->
  estimate h l = fallback np_std (returns_of h) l.
Proof.
  intros Hne Hlen. unfold calculate_annualized_volatility.
  destruct (series_empty (returns_of h) || isnull_all (returns_of h)) eqn:E.
  - apply no_data_test in E. contradiction.
  - apply Nat.ltb_ge in Hlen. rewrite Hlen. reflexivity.
Qed.

Lemma estimate_long (h : hist_data) (l : list log_record) :
  (30 < List.length (returns_of h))%nat ->
  estimate h l =
  match garch (returns_of h) l with
  | (Ok (Some v), l') => (Ok v, l')
  | (Ok None, l') => fallback np_std (returns_of h) (l' ++ [garch_failed_record])
  | (Raised e, l') => (Raised e, l')
  end.
Proof.
  intros Hlen. unfold calculate_annualized_volatility.
  destruct (series_empty (returns_of h) || isnull_all (returns_of h)) eqn:E.
  - apply no_data_test in E. unfold daily_returns_of in *.
    rewrite E in Hlen. simpl in Hlen. lia.
  - apply Nat.ltb_lt in Hlen. rewrite Hlen. unfold bind at 1.
    destruct (garch (returns_of h) l) as [[[v |] | e] l']; reflexivity.
Qed.

Lemma garch_run (returns : list num) (l : list log_record) (m : Model) :
  arch_model (map (fun x => nmul x scale) returns) = Ok m ->
  garch returns l =
  match fit m with
  | Raised e => (Ok None, l ++ [fit_error_record e])
  | Ok f =>
      match forecast_variance f with
      | Raised e => (Ok None, l ++ [fit_error_record e])
      | Ok fv =>
          let v := nmul (ndiv (nsqrt fv) scale) (nsqrt (Fin 252)) in
          (Ok (Some v),
           l ++ [(INFO, MsgNum "GARCH Estimated Annualized Volatility: " v "%")])
      end
  end.
Proof.
  intros Hm. unfold get_garch_volatility, bind at 1, lift at 1. rewrite Hm.
  unfold try_except, garch_try, bind, lift.
  destruct (fit m) as [f | e]; [| reflexivity].
  destruct (forecast_variance f) as [fv | e]; reflexivity.
Qed.

(** C9: when the return series is empty or consists of NaN only, the
    estimator returns NaN and logs the warning; it does not raise. *)
Theorem no_data_gives_nan (h : hist_data) (l : list log_record) :
  Forall (fun x => isnan x = true) (pct_change (Close h))
  \/ Forall (fun x => isnan x = true) (returns_of h) ->
  estimate h l = (Ok NaN, l ++ [(WARNING, Msg "Daily returns are empty or NaN.")]).
Proof.
  intros H. apply estimate_no_data. unfold daily_returns_of in *.
  destruct H as [H | H].
  - apply dropna_all_nan, H.
  - apply dropna_no_nan, forallb_forall.
    intros x Hx. rewrite Forall_forall in H. apply H, Hx.
Qed.

(** C5, as amended: on a non-empty return series of length at most 30
    the estimator takes the fallback path at once; on a longer one it
    takes it, after the error and the warning, whenever the model has
    been constructed and the fit or the forecast raises; either way the
    value is [np.std(daily_returns) * np.sqrt(252)]. *)
Theorem short_series_fallback (h : hist_data) (l : list log_record) :
  returns_of h <> [] ->
  ((List.length (returns_of h) <= 30)%nat ->
   estimate h l =
   (Ok (nmul (np_std (returns_of h)) (nsqrt (Fin 252))),
    l ++ [fallback_record (returns_of h)]))
  /\ (forall m e, (30 < List.length (returns_of h))%nat ->
        arch_model (map (fun x => nmul x scale) (returns_of h)) = Ok m ->
        fit m = Raised e
        \/ (exists f, fit m = Ok f /\ forecast_variance f = Raised e) ->
        estimate h l =
        (Ok (nmul (np_std (returns_of h)) (nsqrt (Fin 252))),
         l ++ [fit_error_record e; garch_failed_record;
               fallback_record (returns_of h)])).
Proof.
  intros Hne. split.
  - intros Hlen. rewrite estimate_short by assumption. apply fallback_run.
  - intros m e Hlen Hm He. rewrite estimate_long by exact Hlen.
    rewrite (garch_run _ l m Hm).
    destruct He as [-> | [f [-> ->]]];
      rewrite fallback_run, <- !app_assoc; reflexivity.
Qed.

(** C6, as amended: once the model has been constructed, an exception
    raised by the fit or by the forecast is caught inside
    [get_garch_volatility], which logs it and returns [None]; the
    estimator then returns the fallback value, and in no case does it
    raise. *)
Theorem fit_failure_is_caught (h : hist_data) (l : list log_record) (m : Model) :
  arch_model (map (fun x => nmul x scale) (returns_of h)) = Ok m ->
  (exists v l', estimate h l = (Ok v, l'))
  /\ (forall e,
        fit m = Raised e
        \/ (exists f, fit m = Ok f /\ forecast_variance f = Raised e) ->
        garch (returns_of h) l = (Ok None, l ++ [fit_error_record e])
        /\ ((30 < List.length (returns_of h))%nat ->
            estimate h l =
            (Ok (fallback_value (returns_of h)),
             l ++ [fit_error_record e; garch_failed_record;
                   fallback_record (returns_of h)]))).
Proof.
  intros Hm. split.
  - destruct (returns_of h) as [| x xs] eqn:Edr.
    + exists NaN, (l ++ [no_data_record]). apply estimate_no_data, Edr.
    + destruct (le_lt_dec (List.length (returns_of h)) 30) as [Hlen | Hlen].
      * exists (fallback_value (returns_of h)), (l ++ [fallback_record (returns_of h)]).
        rewrite estimate_short; [apply fallback_run | congruence | exact Hlen].
      * rewrite estimate_long by exact Hlen.
        rewrite (garch_run _ l m) by (rewrite Edr; exact Hm).
        destruct (fit m) as [f | e].
        -- destruct (forecast_variance f) as [fv | e]; cbv zeta.
           ++ eexists. eexists. reflexivity.
           ++ rewrite fallback_run. eexists. eexists. reflexivity.
        -- rewrite fallback_run. eexists. eexists. reflexivity.
  - intros e He.
    assert (Hg : garch (returns_of h) l = (Ok None, l ++ [fit_error_record e])).
    { rewrite (garch_run _ l m Hm).
      destruct He as [-> | [f [-> ->]]]; reflexivity. }
    split; [exact Hg |].
    intros Hlen. rewrite estimate_long by exact Hlen. rewrite Hg.
    rewrite fallback_run, <- !app_assoc. reflexivity.
Qed.

End VolatilityFacts.

(** ** The estimator on concrete price histories *)

Lemma pct_change_from_ones (n : nat) :
  pct_change_from (Fin 1) (repeat (Fin 1) n) = repeat (Fin (1 / 1 + - 1)) n.
Proof.
  induction n as [| n IH]; simpl repeat; [reflexivity |].
  cbn [pct_change_from]. rewrite IH, ndiv_Fin by lra. reflexivity.
Qed.

Lemma dropna_repeat_Fin (x : R) (n : nat) :
  dropna (repeat (Fin x) n) = repeat (Fin x) n.
Proof.
  unfold dropna. induction n as [| n IH]; simpl; [reflexivity | now rewrite IH].
Qed.

Lemma dropna_cons_NaN (xs : list num) : dropna (NaN :: xs) = dropna xs.
Proof. reflexivity. Qed.

Lemma dropna_cons_Fin (x : R) (xs : list num) :
  dropna (Fin x :: xs) = Fin x :: dropna xs.
Proof. reflexivity. Qed.

Lemma dropna_cons_PInf (xs : list num) : dropna (PInf :: xs) = PInf :: dropna xs.
Proof. reflexivity. Qed.

Lemma pct_change_plain_cons (x : num) (xs : list num) :
  pct_change_plain (x :: xs) = NaN :: pct_change_from x xs.
Proof. reflexivity. Qed.

Lemma pct_change_from_cons (prev x : num) (xs : list num) :
  pct_change_from prev (x :: xs) = nsub (ndiv x prev) (Fin 1) :: pct_change_from x xs.
Proof. reflexivity. Qed.

Lemma ndiv_by_zero (x : R) : 0 < x -> ndiv (Fin x) (Fin 0) = PInf.
Proof.
  intros H. cbn [ndiv]. destruct (Req_dec_T 0 0) as [_ | H0]; [| contradiction].
  rewrite sgn_pos by exact H. reflexivity.
Qed.

Lemma scaled_finite (x : R) (n : nat) :
  forallb is_finite (map (fun y => nmul y scale) (repeat (Fin x) n)) = true.
Proof. induction n as [| n IH]; simpl; [reflexivity | exact IH]. Qed.

(** Thirty-two closes of 1: thirty-one returns, all 0. *)
Definition flat_history : hist_data := mkHist (Fin 1 :: repeat (Fin 1) 31).

Lemma flat_history_returns :
  daily_returns_of pct_change_plain flat_history = repeat (Fin (1 / 1 + - 1)) 31.
Proof.
  unfold daily_returns_of, flat_history, Close.
  rewrite pct_change_plain_cons, pct_change_from_ones, dropna_cons_NaN.
  apply dropna_repeat_Fin.
Qed.

(** A history with a close of 0 in second place: the return that
    follows it is infinite. *)
Definition zero_close_history : hist_data :=
  mkHist (Fin 1 :: Fin 0 :: Fin 1 :: repeat (Fin 1) 30).

Lemma zero_close_history_returns :
  daily_returns_of pct_change_plain zero_close_history =
  Fin (0 / 1 + - 1) :: PInf :: repeat (Fin (1 / 1 + - 1)) 30.
Proof.
  unfold daily_returns_of, zero_close_history, Close.
  rewrite pct_change_plain_cons, !pct_change_from_cons, pct_change_from_ones.
  rewrite ndiv_Fin by lra. rewrite ndiv_by_zero by lra.
  change (nsub (Fin (0 / 1)) (Fin 1)) with (Fin (0 / 1 + - 1)).
  change (nsub PInf (Fin 1)) with PInf.
  rewrite dropna_cons_NaN, dropna_cons_Fin, dropna_cons_PInf, dropna_repeat_Fin.
  reflexivity.
Qed.

Lemma no_data_gives_nan_witness :
  calculate_annualized_volatility unit unit pct_change_plain population_std
    arch_model_checked fit_plain (forecast_plain (Fin 1)) (mkHist [Fin 100]) []
  = (Ok NaN, [(WARNING, Msg "Daily returns are empty or NaN.")]).
Proof.
  apply (no_data_gives_nan unit unit pct_change_plain population_std arch_model_checked
           fit_plain (forecast_plain (Fin 1)) (mkHist [Fin 100]) []).
  left. cbn [Close pct_change_plain pct_change_from].
  constructor; [reflexivity | constructor].
Defined.

Lemma short_series_fallback_witness :
  calculate_annualized_volatility unit unit pct_change_plain population_std
    arch_model_checked fit_plain (forecast_plain (Fin 1))
    (mkHist [Fin 100; Fin 110]) []
  = (Ok (nmul (population_std [Fin (110 / 100 + - 1)]) (nsqrt (Fin 252))),
     [fallback_record population_std [Fin (110 / 100 + - 1)]]).
Proof.
  assert (E : daily_returns_of pct_change_plain (mkHist [Fin 100; Fin 110])
              = [Fin (110 / 100 + - 1)]).
  { unfold daily_returns_of. cbn [Close pct_change_plain pct_change_from].
    rewrite ndiv_Fin by lra. reflexivity. }
  assert (Hne : daily_returns_of pct_change_plain (mkHist [Fin 100; Fin 110]) <> []).
  { rewrite E. discriminate. }
  destruct (short_series_fallback unit unit pct_change_plain population_std
              arch_model_checked fit_plain (forecast_plain (Fin 1))
              (mkHist [Fin 100; Fin 110]) [] Hne) as [Hshort _].
  rewrite E in Hshort. apply Hshort. simpl. lia.
Defined.

Lemma fit_failure_is_caught_witness :
  calculate_annualized_volatility unit unit pct_change_plain population_std
    arch_model_checked (fit_raising "Singular matrix") (forecast_plain (Fin 1))
    flat_history []
  = (Ok (fallback_value population_std
           (daily_returns_of pct_change_plain flat_history)),
     [fit_error_record "Singular matrix"; garch_failed_record;
      fallback_record population_std (daily_returns_of pct_change_plain flat_history)]).
Proof.
  assert (Hm : arch_model_checked
                 (map (fun x => nmul x scale)
                    (daily_returns_of pct_change_plain flat_history)) = Ok tt).
  { rewrite flat_history_returns. unfold arch_model_checked.
    rewrite scaled_finite. reflexivity. }
  destruct (fit_failure_is_caught unit unit pct_change_plain population_std
              arch_model_checked (fit_raising "Singular matrix")
              (forecast_plain (Fin 1)) flat_history [] tt Hm) as [_ Hcaught].
  destruct (Hcaught "Singular matrix"%string (or_introl eq_refl)) as [_ Hest].
  apply Hest. rewrite flat_history_returns, repeat_length. lia.
Defined.

(** C5 as stated fails when the GARCH step fails in the construction of
    the model: on a history of more than thirty returns one of which is
    infinite, [get_garch_volatility] raises instead of returning [None],
    and the estimator raises too: it returns no value at all, so it
    does not return [np.std(daily_returns) * np.sqrt(252)]. *)
Lemma garch_failure_without_fallback :
  daily_returns_of pct_change_plain zero_close_history <> []
  /\ (30 < List.length (daily_returns_of pct_change_plain zero_close_history))%nat
  /\ fst (get_garch_volatility unit unit arch_model_checked fit_plain
            (forecast_plain (Fin 1))
            (daily_returns_of pct_change_plain zero_close_history) [])
     = Raised "NaN or inf values found in y. y must contains only finite values."
  /\ fst (calculate_annualized_volatility unit unit pct_change_plain population_std
            arch_model_checked fit_plain (forecast_plain (Fin 1))
            zero_close_history [])
     = Raised "NaN or inf values found in y. y must contains only finite values."
  /\ fst (calculate_annualized_volatility unit unit pct_change_plain population_std
            arch_model_checked fit_plain (forecast_plain (Fin 1))
            zero_close_history [])
     <> Ok (nmul (population_std
                   (daily_returns_of pct_change_plain zero_close_history))
                (nsqrt (Fin 252))).
Proof.
  assert (Hlen : (30 < List.length
                         (daily_returns_of pct_change_plain zero_close_history))%nat).
  { rewrite zero_close_history_returns. cbn [List.length].
    rewrite repeat_length. lia. }
  assert (Hg : get_garch_volatility unit unit arch_model_checked fit_plain
                 (forecast_plain (Fin 1))
                 (daily_returns_of pct_change_plain zero_close_history) []
               = (Raised "NaN or inf values found in y. y must contains only finite values.",
                  [])).
  { rewrite zero_close_history_returns.
    unfold get_garch_volatility, bind, lift, arch_model_checked.
    rewrite !map_cons. cbn [forallb].
    change (nmul (Fin (0 / 1 + - 1)) scale) with (Fin ((0 / 1 + - 1) * 100)).
    assert (E : nmul PInf scale = PInf).
    { unfold scale. cbn [nmul sign_of]. rewrite sgn_pos by lra. reflexivity. }
    rewrite E. reflexivity. }
  split; [rewrite zero_close_history_returns; discriminate |].
  split; [exact Hlen |].
  rewrite estimate_long by exact Hlen. rewrite Hg. cbn [fst].
  split; [reflexivity |]. split; [reflexivity | discriminate].
Qed.

(** C6 as stated fails when the error arises in the construction of the
    model, which [get_garch_volatility] performs before its [try]: on a
    history whose returns include an infinite value the constructor
    raises, and the exception reaches the caller of the estimator. *)
Lemma constructor_error_propagates :
  (30 < List.length (daily_returns_of pct_change_plain zero_close_history))%nat
  /\ calculate_annualized_volatility unit unit pct_change_plain population_std
       arch_model_checked fit_plain (forecast_plain (Fin 1)) zero_close_history []
     = (Raised "NaN or inf values found in y. y must contains only finite values.", []).
Proof.
  assert (Hlen : (30 < List.length
                         (daily_returns_of pct_change_plain zero_close_history))%nat).
  { rewrite zero_close_history_returns. cbn [List.length].
    rewrite repeat_length. lia. }
  split; [exact Hlen |].
  rewrite estimate_long by exact Hlen.
  assert (Hg : get_garch_volatility unit unit arch_model_checked fit_plain
                 (forecast_plain (Fin 1))
                 (daily_returns_of pct_change_plain zero_close_history) []
               = (Raised "NaN or inf values found in y. y must contains only finite values.",
                  [])).
  { rewrite zero_close_history_returns.
    unfold get_garch_volatility, bind, lift, arch_model_checked.
    rewrite !map_cons. cbn [forallb].
    change (nmul (Fin (0 / 1 + - 1)) scale) with (Fin ((0 / 1 + - 1) * 100)).
    assert (E : nmul PInf scale = PInf).
    { unfold scale. cbn [nmul sign_of]. rewrite sgn_pos by lra. reflexivity. }
    rewrite E. reflexivity. }
  rewrite Hg. reflexivity.
Qed.


(** ** Sensitivities as derivatives of the call value *)

Lemma deriv_ext (f g : R -> R) (x l l' : R) :
  (forall y, f y = g y) -> l = l' ->
  derivable_pt_lim f x l -> derivable_pt_lim g x l'.
Proof.
  intros Hfg <- Hd. replace g with f; [exact Hd |].
  apply functional_extensionality, Hfg.
Qed.

(** A derivative at [x] only depends on the function near [x]. *)
Lemma deriv_local (f g : R -> R) (x l delta : R) :
  0 < delta ->
  (forall y, Rabs (y - x) < delta -> f y = g y) ->
  derivable_pt_lim f x l -> derivable_pt_lim g x l.
Proof.
  intros Hdelta Hfg Hd eps Heps.
  destruct (Hd eps Heps) as [d Hdd].
  assert (Hmin : 0 < Rmin d delta) by (apply Rmin_pos; [apply cond_pos | exact Hdelta]).
  exists (mkposreal _ Hmin). intros h Hh0 Hh. simpl in Hh.
  rewrite <- (Hfg (x + h)), <- (Hfg x).
  - apply Hdd; [exact Hh0 |].
    apply Rlt_le_trans with (Rmin d delta); [exact Hh | apply Rmin_l].
  - replace (x - x) with 0 by ring. rewrite Rabs_R0. exact Hdelta.
  - replace (x + h - x) with h by ring.
    apply Rlt_le_trans with (Rmin d delta); [exact Hh | apply Rmin_r].
Qed.

Lemma d_star_exponent (S K' v : R) :
  v <> 0 -> d_star S K' v * v - v * v / 2 = ln (S / K').
Proof. intros Hv. unfold d_star. field. exact Hv. Qed.

(** At [d_star] the two density terms of the envelope balance. *)
Lemma d_star_balance (S K' v : R) :
  0 < S -> 0 < K' -> v <> 0 ->
  S * gauss (d_star S K' v) = K' * gauss (d_star S K' v - v).
Proof.
  intros HS HK Hv. rewrite gauss_shift, d_star_exponent by exact Hv.
  rewrite exp_ln by (apply Rdiv_lt_0_compat; assumption).
  field. lra.
Qed.

Lemma d_star_deriv_spot (S K' v : R) :
  0 < S -> 0 < K' -> v <> 0 ->
  derivable_pt_lim (fun x => d_star x K' v) S (/ (S * v)).
Proof.
  intros HS HK Hv. unfold d_star.
  apply (deriv_ext (fun x => / v * ln (/ K' * x) + v / 2) _ S
           (/ v * (/ (/ K' * S) * (/ K' * 1)) + 0)).
  - intros y. unfold Rdiv. f_equal. rewrite (Rmult_comm y). ring.
  - field. lra.
  - apply (derivable_pt_lim_plus (fun x => / v * ln (/ K' * x)) (fun _ => v / 2)).
    + apply (derivable_pt_lim_scal (fun x => ln (/ K' * x)) (/ v)).
      apply (derivable_pt_lim_comp (fun x => / K' * x) ln).
      * apply (derivable_pt_lim_scal id (/ K')), derivable_pt_lim_id.
      * apply derivable_pt_lim_ln.
        apply Rmult_lt_0_compat; [apply Rinv_0_lt_compat |]; assumption.
    + apply derivable_pt_lim_const.
Qed.

(** The derivative of the call value in the spot is [Phi d_star]. *)
Lemma call_value_deriv_spot (S K' v : R) :
  0 < S -> 0 < K' -> v <> 0 ->
  derivable_pt_lim (fun x => call_value x K' v) S (Phi (d_star S K' v)).
Proof.
  intros HS HK Hv.
  pose proof gauss_half_mass_pos as HL.
  pose proof (d_star_balance S K' v HS HK Hv) as Hbal.
  set (D := d_star S K' v) in *.
  apply (deriv_ext
           (fun x => x * Phi (d_star x K' v) - K' * Phi (d_star x K' v - v)) _ S
           (1 * Phi D + S * (gauss D / (2 * gauss_half_mass) * / (S * v))
            - K' * (gauss (D - v) / (2 * gauss_half_mass) * (/ (S * v) - 0)))).
  - intros y. reflexivity.
  - replace (gauss (D - v)) with (S * gauss D / K') by (rewrite Hbal; field; lra).
    field. lra.
  - apply (derivable_pt_lim_minus (fun x => x * Phi (d_star x K' v))
             (fun x => K' * Phi (d_star x K' v - v))).
    + apply (derivable_pt_lim_mult id (fun x => Phi (d_star x K' v))).
      * apply derivable_pt_lim_id.
      * apply (derivable_pt_lim_comp (fun x => d_star x K' v) Phi).
        -- apply d_star_deriv_spot; assumption.
        -- apply Phi_deriv.
    + apply (derivable_pt_lim_scal (fun x => Phi (d_star x K' v - v)) K').
      apply (derivable_pt_lim_comp (fun x => d_star x K' v - v) Phi).
      * apply (derivable_pt_lim_minus (fun x => d_star x K' v) (fun _ => v)).
        -- apply d_star_deriv_spot; assumption.
        -- apply derivable_pt_lim_const.
      * apply Phi_deriv.
Qed.

Lemma d_star_deriv_strike (S K' v : R) :
  0 < S -> 0 < K' -> v <> 0 ->
  derivable_pt_lim (fun y => d_star S y v) K' (- / (K' * v)).
Proof.
  intros HS HK Hv.
  apply (deriv_local (fun y => / v * (ln S - ln y) + v / 2) _ K' _ K' HK).
  - intros y Hy. apply Rabs_def2 in Hy. unfold d_star.
    unfold Rdiv. rewrite ln_mult by (try lra; apply Rinv_0_lt_compat; lra).
    rewrite ln_Rinv by lra. ring.
  - apply (deriv_ext (fun y => / v * (ln S - ln y) + v / 2) _ K'
             (/ v * (0 - / K') + 0)).
    + intros y. reflexivity.
    + field. lra.
    + apply (derivable_pt_lim_plus (fun y => / v * (ln S - ln y)) (fun _ => v / 2)).
      * apply (derivable_pt_lim_scal (fun y => ln S - ln y) (/ v)).
        apply (derivable_pt_lim_minus (fun _ => ln S) ln).
        -- apply derivable_pt_lim_const.
        -- apply derivable_pt_lim_ln, HK.
      * apply derivable_pt_lim_const.
Qed.

(** The derivative of the call value in the discounted strike is
    [- Phi (d_star - v)]. *)
Lemma call_value_deriv_strike (S K' v : R) :
  0 < S -> 0 < K' -> v <> 0 ->
  derivable_pt_lim (fun y => call_value S y v) K' (- Phi (d_star S K' v - v)).
Proof.
  intros HS HK Hv.
  pose proof gauss_half_mass_pos as HL.
  pose proof (d_star_balance S K' v HS HK Hv) as Hbal.
  set (D := d_star S K' v) in *.
  apply (deriv_ext
           (fun y => S * Phi (d_star S y v) - y * Phi (d_star S y v - v)) _ K'
           (S * (gauss D / (2 * gauss_half_mass) * - / (K' * v))
            - (1 * Phi (D - v)
               + K' * (gauss (D - v) / (2 * gauss_half_mass) * (- / (K' * v) - 0))))).
  - intros y. reflexivity.
  - replace (gauss (D - v)) with (S * gauss D / K') by (rewrite Hbal; field; lra).
    field. lra.
  - apply (derivable_pt_lim_minus (fun y => S * Phi (d_star S y v))
             (fun y => y * Phi (d_star S y v - v))).
    + apply (derivable_pt_lim_scal (fun y => Phi (d_star S y v)) S).
      apply (derivable_pt_lim_comp (fun y => d_star S y v) Phi).
      * apply d_star_deriv_strike; assumption.
      * apply Phi_deriv.
    + apply (derivable_pt_lim_mult id (fun y => Phi (d_star S y v - v))).
      * apply derivable_pt_lim_id.
      * apply (derivable_pt_lim_comp (fun y => d_star S y v - v) Phi).
        -- apply (derivable_pt_lim_minus (fun y => d_star S y v) (fun _ => v)).
           ++ apply d_star_deriv_strike; assumption.
           ++ apply derivable_pt_lim_const.
        -- apply Phi_deriv.
Qed.

Lemma discount_deriv (k t rr : R) :
  derivable_pt_lim (fun r => k * exp (- r * t)) rr (- (t * (k * exp (- rr * t)))).
Proof.
  apply (deriv_ext (fun r => k * exp (- t * r)) _ rr
           (k * (exp (- t * rr) * (- t * 1)))).
  - intros y. f_equal. f_equal. ring.
  - replace (- t * rr) with (- rr * t) by ring. ring.
  - apply (derivable_pt_lim_scal (fun r => exp (- t * r)) k).
    apply (derivable_pt_lim_comp (fun r => - t * r) exp).
    + apply (derivable_pt_lim_scal id (- t)), derivable_pt_lim_id.
    + apply derivable_pt_lim_exp.
Qed.

(** The derivative of the call value in the rate. *)
Lemma call_value_deriv_rate (S k t rr v : R) :
  0 < S -> 0 < k -> v <> 0 ->
  derivable_pt_lim (fun r => call_value S (k * exp (- r * t)) v) rr
    (t * (k * exp (- rr * t)) * Phi (d_star S (k * exp (- rr * t)) v - v)).
Proof.
  intros HS Hk Hv.
  assert (HK : 0 < k * exp (- rr * t)).
  { apply Rmult_lt_0_compat; [exact Hk | apply exp_pos]. }
  apply (deriv_ext (fun r => call_value S (k * exp (- r * t)) v) _ rr
           (- Phi (d_star S (k * exp (- rr * t)) v - v)
            * - (t * (k * exp (- rr * t))))).
  - intros y. reflexivity.
  - ring.
  - apply (derivable_pt_lim_comp (fun r => k * exp (- r * t))
             (fun y => call_value S y v)).
    + apply discount_deriv.
    + apply call_value_deriv_strike; assumption.
Qed.

(** ** The Greeks on finite inputs *)

(** The number carried by a finite value (0 for NaN and the infinities). *)
Definition real_of (a : num) : R :=
  match a with
  | Fin x => x
  | _ => 0
  end.

(** Every element of the list is a finite number that satisfies [P]. *)
Definition all_fin (P : R -> Prop) (l : list num) : Prop :=
  Forall (fun a => exists x, a = Fin x /\ P x) l.

(** [norm.pdf] on the reals. *)
Definition pdf_real (x : R) : R := exp (- (x * x / 2)) / sqrt (2 * PI).

Lemma pdf_real_pos (x : R) : 0 < pdf_real x.
Proof.
  unfold pdf_real. apply Rdiv_lt_0_compat; [apply exp_pos |].
  apply sqrt_lt_R0. pose proof PI_RGT_0. lra.
Qed.

Lemma theta_entry_eq (S T r sigma : num) (ot : string) (K : num) :
  isnan S || isnan sigma || isnan T || isnan r = false ->
  theta_entry S T r sigma ot K = theta_formula S K T r sigma.
Proof.
  intros H. unfold theta_entry, greeks_step, theta_formula. rewrite H. reflexivity.
Qed.

Lemma vega_entry_eq (S T r sigma : num) (ot : string) (K : num) :
  isnan S || isnan sigma || isnan T || isnan r = false ->
  vega_entry S T r sigma ot K =
  safe_divide (nmul (nmul S (norm_pdf (d1_of S K T r sigma))) (nsqrt T)) (Fin 100).
Proof.
  intros H. unfold vega_entry, greeks_step. rewrite H. reflexivity.
Qed.

Lemma rho_entry_eq (S T r sigma : num) (ot : string) (K : num) :
  isnan S || isnan sigma || isnan T || isnan r = false ->
  rho_entry S T r sigma ot K =
  safe_divide
    (nmul (nmul (nmul K T) (nexp (nmul (nneg r) T)))
          (if is_call ot
           then norm_cdf (d2_of (d1_of S K T r sigma) T sigma)
           else nneg (norm_cdf (nneg (d2_of (d1_of S K T r sigma) T sigma)))))
    (Fin 100).
Proof.
  intros H. unfold rho_entry, greeks_step. rewrite H. reflexivity.
Qed.

Section FiniteGreeks.
Variables s k t rr sg : R.
Hypothesis s_pos : 0 < s.
Hypothesis k_pos : 0 < k.
Hypothesis t_pos : 0 < t.
Hypothesis sg_neq : sg <> 0.

Local Abbreviation d1 := (d1_real s k t rr sg).
Local Abbreviation d2 := (d1_real s k t rr sg - sg * sqrt t).

Lemma delta_entry_Fin (ot : string) :
  delta_entry (Fin s) (Fin t) (Fin rr) (Fin sg) ot (Fin k) =
  Fin (if is_call ot then Phi d1 else Phi d1 - 1).
Proof.
  rewrite delta_entry_eq by reflexivity. rewrite d1_of_Fin by assumption.
  destruct (is_call ot); reflexivity.
Qed.

Lemma gamma_entry_Fin (ot : string) :
  gamma_entry (Fin s) (Fin t) (Fin rr) (Fin sg) ot (Fin k) =
  Fin (pdf_real d1 / (s * sg * sqrt t)).
Proof.
  rewrite gamma_entry_eq by reflexivity. rewrite d1_of_Fin by assumption.
  rewrite nsqrt_Fin by lra. cbn [norm_pdf nmul].
  apply safe_divide_Fin.
  pose proof (vol_sqrt_neq t sg t_pos sg_neq).
  rewrite Rmult_assoc. apply Rmult_integral_contrapositive_currified; lra.
Qed.

Lemma theta_entry_Fin (ot : string) :
  theta_entry (Fin s) (Fin t) (Fin rr) (Fin sg) ot (Fin k) =
  Fin (- (s * pdf_real d1 * sg / (2 * sqrt t)) - rr * k * exp (- rr * t) * Phi d2).
Proof.
  rewrite theta_entry_eq by reflexivity. unfold theta_formula.
  rewrite d1_of_Fin by assumption. rewrite d2_of_Fin by lra.
  rewrite nsqrt_Fin by lra. cbn [norm_pdf norm_cdf nmul nneg nexp].
  rewrite safe_divide_Fin; [reflexivity |].
  pose proof (sqrt_lt_R0 t t_pos). lra.
Qed.

Lemma vega_entry_Fin (ot : string) :
  vega_entry (Fin s) (Fin t) (Fin rr) (Fin sg) ot (Fin k) =
  Fin (s * pdf_real d1 * sqrt t / 100).
Proof.
  rewrite vega_entry_eq by reflexivity. rewrite d1_of_Fin by assumption.
  rewrite nsqrt_Fin by lra. cbn [norm_pdf nmul].
  apply safe_divide_Fin. lra.
Qed.

Lemma rho_entry_Fin (ot : string) :
  rho_entry (Fin s) (Fin t) (Fin rr) (Fin sg) ot (Fin k) =
  Fin (k * t * exp (- rr * t) * (if is_call ot then Phi d2 else - Phi (- d2)) / 100).
Proof.
  rewrite rho_entry_eq by reflexivity.
  rewrite d1_of_Fin by assumption. rewrite d2_of_Fin by lra.
  destruct (is_call ot); cbn [norm_cdf nmul nneg nexp]; apply safe_divide_Fin; lra.
Qed.

End FiniteGreeks.

Lemma map_Fin_entries (e : num -> num) (f : R -> R) (ks : list R) :
  Forall (fun k => 0 < k) ks ->
  (forall k, 0 < k -> e (Fin k) = Fin (f k)) ->
  map e (map Fin ks) = map (fun k => Fin (f k)) ks.
Proof.
  intros Hks He. rewrite map_map. apply map_ext_in.
  intros k Hk. apply He. rewrite Forall_forall in Hks. apply Hks, Hk.
Qed.

Lemma all_fin_map (P : R -> Prop) (f : R -> R) (ks : list R) :
  (forall k, In k ks -> P (f k)) -> all_fin P (map (fun k => Fin (f k)) ks).
Proof.
  intros H. unfold all_fin. rewrite Forall_map. apply Forall_forall.
  intros k Hk. exists (f k). split; [reflexivity | apply H, Hk].
Qed.

Lemma moderate_pos (x : R) : moderate x -> 0 < x.
Proof. intros [H _]. lra. Qed.

Lemma moderate_abs_neq (x : R) : moderate (Rabs x) -> x <> 0.
Proof. intros [H _] ->. rewrite Rabs_R0 in H. lra. Qed.

Lemma moderate_market_pos (s t rr sg : R) :
  moderate_market s t rr sg -> 0 < s /\ 0 < t /\ sg <> 0.
Proof.
  intros (Hs & Ht & Hsg & _).
  split; [apply moderate_pos, Hs |].
  split; [apply moderate_pos, Ht | apply moderate_abs_neq, Hsg].
Qed.

Lemma Forall_moderate_pos (ks : list R) :
  Forall moderate ks -> Forall (fun k => 0 < k) ks.
Proof. apply Forall_impl. exact moderate_pos. Qed.

Lemma all_fin_weaken (P Q : R -> Prop) (l : list num) :
  (forall x, P x -> Q x) -> all_fin P l -> all_fin Q l.
Proof.
  intros H. unfold all_fin. apply Forall_impl.
  intros a (x & E & Hx). exists x. split; [exact E | apply H, Hx].
Qed.

(** X1: put Delta is call Delta minus 1 at every strike, for all inputs:
    in the NaN branch both are NaN. *)
Theorem put_delta_is_call_delta_minus_one (S : num) (Ks : list num) (T r sigma : num) :
  Delta (calculate_greeks S Ks T r sigma "put") =
  map (fun c => nsub c (Fin 1)) (Delta (calculate_greeks S Ks T r sigma "call")).
Proof.
  rewrite !calculate_greeks_maps. cbn [Delta]. rewrite map_map.
  apply map_ext. intros K. unfold delta_entry, greeks_step.
  destruct (isnan S || isnan sigma || isnan T || isnan r); reflexivity.
Qed.



(** X3: for a market of moderate size with sigma > 0 and strikes of
    moderate size, no Gamma and no Vega is negative, and no Theta is
    positive when r >= 0.  Where d1 is well conditioned and at most 30
    in absolute value at every strike (so that [norm.pdf(d1)] does not
    underflow), every Gamma and every Vega is positive and Vega is Gamma
    times S^2 * sigma * T / 100. *)
Theorem gamma_vega_theta_signs (s t rr sg : R) (ks : list R) (ot : string) :
  moderate_market s t rr sg -> 0 < sg -> Forall moderate ks ->
  let g := calculate_greeks (Fin s) (map Fin ks) (Fin t) (Fin rr) (Fin sg) ot in
  all_fin (fun x => 0 <= x) (Gamma g)
  /\ all_fin (fun x => 0 <= x) (Vega g)
  /\ (0 <= rr -> all_fin (fun x => x <= 0) (Theta g))
  /\ (well_conditioned t sg ->
      Forall (fun k => Rabs (d1_real s k t rr sg) <= 30) ks ->
      all_fin (fun x => 0 < x) (Gamma g)
      /\ all_fin (fun x => 0 < x) (Vega g)
      /\ Vega g = map (fun x => nmul x (Fin (s * s * sg * t / 100))) (Gamma g)).
Proof.
  intros Hm Hsg Hmk. cbv zeta.
  destruct (moderate_market_pos s t rr sg Hm) as (Hs & Ht & _).
  pose proof (Forall_moderate_pos ks Hmk) as Hks.
  assert (Hne : sg <> 0) by lra.
  enough (Hall : all_fin (fun x => 0 < x)
                   (Gamma (calculate_greeks (Fin s) (map Fin ks) (Fin t) (Fin rr)
                             (Fin sg) ot))
                 /\ all_fin (fun x => 0 < x)
                   (Vega (calculate_greeks (Fin s) (map Fin ks) (Fin t) (Fin rr)
                            (Fin sg) ot))
                 /\ Vega (calculate_greeks (Fin s) (map Fin ks) (Fin t) (Fin rr)
                            (Fin sg) ot)
                    = map (fun x => nmul x (Fin (s * s * sg * t / 100)))
                        (Gamma (calculate_greeks (Fin s) (map Fin ks) (Fin t) (Fin rr)
                                  (Fin sg) ot))
                 /\ (0 <= rr ->
                     all_fin (fun x => x <= 0)
                       (Theta (calculate_greeks (Fin s) (map Fin ks) (Fin t) (Fin rr)
                                 (Fin sg) ot)))).
  { destruct Hall as (Hg & Hv & Hrel & Hth).
    split; [apply (all_fin_weaken (fun x => 0 < x)); [intros x Hx; lra | exact Hg] |].
    split; [apply (all_fin_weaken (fun x => 0 < x)); [intros x Hx; lra | exact Hv] |].
    split; [exact Hth |].
    intros _ _. split; [exact Hg | split; [exact Hv | exact Hrel]]. }
  pose proof (sqrt_lt_R0 t Ht) as Hq.
  rewrite !calculate_greeks_maps. cbn [Gamma Vega Theta].
  rewrite (map_Fin_entries _ (fun k => pdf_real (d1_real s k t rr sg) / (s * sg * sqrt t))
             ks Hks).
  2:{ intros k Hk. apply gamma_entry_Fin; assumption. }
  rewrite (map_Fin_entries _ (fun k => s * pdf_real (d1_real s k t rr sg) * sqrt t / 100)
             ks Hks).
  2:{ intros k Hk. apply vega_entry_Fin; assumption. }
  rewrite (map_Fin_entries _
             (fun k => - (s * pdf_real (d1_real s k t rr sg) * sg / (2 * sqrt t))
                       - rr * k * exp (- rr * t)
                         * Phi (d1_real s k t rr sg - sg * sqrt t)) ks Hks).
  2:{ intros k Hk. apply theta_entry_Fin; assumption. }
  split; [| split; [| split]].
  - apply all_fin_map. intros k _. pose proof (pdf_real_pos (d1_real s k t rr sg)).
    apply Rdiv_lt_0_compat; [assumption |].
    apply Rmult_lt_0_compat; [apply Rmult_lt_0_compat |]; assumption.
  - apply all_fin_map. intros k _. pose proof (pdf_real_pos (d1_real s k t rr sg)).
    apply Rdiv_lt_0_compat; [| lra].
    apply Rmult_lt_0_compat; [apply Rmult_lt_0_compat |]; assumption.
  - rewrite map_map. apply map_ext. intros k. cbn [nmul]. f_equal.
    replace (s * s * sg * t / 100) with (s * s * sg * (sqrt t * sqrt t) / 100)
      by (rewrite sqrt_sqrt; lra).
    field. lra.
  - intros Hr. apply all_fin_map. intros k Hk.
    rewrite Forall_forall in Hks. specialize (Hks k Hk).
    pose proof (pdf_real_pos (d1_real s k t rr sg)) as Hp.
    pose proof (Phi_bounds (d1_real s k t rr sg - sg * sqrt t)) as [Hb _].
    pose proof (exp_pos (- rr * t)) as He.
    assert (0 <= s * pdf_real (d1_real s k t rr sg) * sg / (2 * sqrt t)).
    { apply Rmult_le_pos; [| left; apply Rinv_0_lt_compat; lra].
      apply Rmult_le_pos; [apply Rmult_le_pos |]; lra. }
    assert (0 <= rr * k * exp (- rr * t) * Phi (d1_real s k t rr sg - sg * sqrt t)).
    { apply Rmult_le_pos; [apply Rmult_le_pos; [apply Rmult_le_pos |] |]; lra. }
    lra.
Qed.

Lemma gamma_vega_theta_signs_witness :
  all_fin (fun x => 0 <= x)
    (Gamma (calculate_greeks (Fin 100) (map Fin [80; 100; 120]) (Fin 1) (Fin (2 / 100))
              (Fin (2 / 10)) "call"))
  /\ all_fin (fun x => x <= 0)
    (Theta (calculate_greeks (Fin 100) (map Fin [80; 100; 120]) (Fin 1) (Fin (2 / 100))
              (Fin (2 / 10)) "call")).
Proof.
  assert (Hm : moderate_market 100 1 (2 / 100) (2 / 10)).
  { unfold moderate_market, moderate. rewrite !Rabs_pos_eq by lra. lra. }
  assert (Hks : Forall moderate [80; 100; 120])
    by (repeat constructor; unfold moderate; lra).
  assert (H3 : 0 < 2 / 10) by lra.
  destruct (gamma_vega_theta_signs 100 1 (2 / 100) (2 / 10) [80; 100; 120] "call"
              Hm H3 Hks) as (Hg & _ & Ht & _).
  split; [exact Hg | apply Ht; lra].
Defined.

(** X4: for a market of moderate size and strikes of moderate size, every
    call Rho is non-negative, every put Rho is non-positive, and at each
    strike K the call Rho minus the put Rho is K * T * exp(-r * T) / 100. *)
Theorem rho_signs_and_parity (s t rr sg : R) (ks : list R) :
  moderate_market s t rr sg -> Forall moderate ks ->
  let call := Rho (calculate_greeks (Fin s) (map Fin ks) (Fin t) (Fin rr) (Fin sg) "call") in
  let put := Rho (calculate_greeks (Fin s) (map Fin ks) (Fin t) (Fin rr) (Fin sg) "put") in
  all_fin (fun x => 0 <= x) call
  /\ all_fin (fun x => x <= 0) put
  /\ map (fun cp => nsub (fst cp) (snd cp)) (combine call put) =
     map (fun k => Fin (k * t * exp (- rr * t) / 100)) ks.
Proof.
  intros Hm Hmk. cbv zeta.
  destruct (moderate_market_pos s t rr sg Hm) as (Hs & Ht & Hsg).
  pose proof (Forall_moderate_pos ks Hmk) as Hks.
  rewrite !calculate_greeks_maps. cbn [Rho].
  rewrite (map_Fin_entries _
             (fun k => k * t * exp (- rr * t)
                       * Phi (d1_real s k t rr sg - sg * sqrt t) / 100) ks Hks).
  2:{ intros k Hk. rewrite rho_entry_Fin by assumption. reflexivity. }
  rewrite (map_Fin_entries _
             (fun k => k * t * exp (- rr * t)
                       * - Phi (- (d1_real s k t rr sg - sg * sqrt t)) / 100) ks Hks).
  2:{ intros k Hk. rewrite rho_entry_Fin by assumption. reflexivity. }
  assert (Hpos : forall k, In k ks -> 0 <= k * t * exp (- rr * t)).
  { intros k Hk. rewrite Forall_forall in Hks. specialize (Hks k Hk).
    pose proof (exp_pos (- rr * t)).
    apply Rmult_le_pos; [apply Rmult_le_pos |]; lra. }
  split; [| split].
  - apply all_fin_map. intros k Hk. specialize (Hpos k Hk).
    pose proof (Phi_bounds (d1_real s k t rr sg - sg * sqrt t)) as [Hb _].
    apply Rmult_le_pos; [apply Rmult_le_pos; assumption | lra].
  - apply all_fin_map. intros k Hk. specialize (Hpos k Hk).
    pose proof (Phi_bounds (- (d1_real s k t rr sg - sg * sqrt t))) as [Hb _].
    assert (0 <= k * t * exp (- rr * t)
                 * Phi (- (d1_real s k t rr sg - sg * sqrt t)))
      by (apply Rmult_le_pos; assumption).
    lra.
  - clear Hpos Hks Hmk. induction ks as [| k ks IH]; [reflexivity |].
    cbn [map combine fst snd]. rewrite IH. f_equal.
    cbn [nsub nneg nadd]. f_equal.
    pose proof (Phi_sym (d1_real s k t rr sg - sg * sqrt t)). 
    set (a := Phi (d1_real s k t rr sg - sg * sqrt t)) in *.
    replace (Phi (- (d1_real s k t rr sg - sg * sqrt t))) with (1 - a) by lra.
    field.
Qed.

Lemma rho_signs_and_parity_witness :
  all_fin (fun x => 0 <= x)
    (Rho (calculate_greeks (Fin 100) (map Fin [80; 100; 120]) (Fin 1) (Fin (2 / 100))
            (Fin (2 / 10)) "call"))
  /\ all_fin (fun x => x <= 0)
    (Rho (calculate_greeks (Fin 100) (map Fin [80; 100; 120]) (Fin 1) (Fin (2 / 100))
            (Fin (2 / 10)) "put")).
Proof.
  assert (Hm : moderate_market 100 1 (2 / 100) (2 / 10)).
  { unfold moderate_market, moderate. rewrite !Rabs_pos_eq by lra. lra. }
  assert (Hks : Forall moderate [80; 100; 120])
    by (repeat constructor; unfold moderate; lra).
  destruct (rho_signs_and_parity 100 1 (2 / 100) (2 / 10) [80; 100; 120] Hm Hks)
    as (Hc & Hp & _).
  split; [exact Hc | exact Hp].
Defined.

(** The put price is the call value minus the forward S - K * exp(-r * T). *)
Lemma black_scholes_put_value (s k t rr sg : R) (ot : string) :
  is_call ot = false ->
  0 < s -> 0 < k -> 0 < t -> sg <> 0 ->
  black_scholes (Fin s) (Fin k) (Fin t) (Fin rr) (Fin sg) ot =
  Fin (call_value s (k * exp (- rr * t)) (sg * sqrt t) - s + k * exp (- rr * t)).
Proof.
  intros Hot Hs Hk Ht Hsg.
  rewrite (black_scholes_put_Fin s k t rr sg ot Hot) by assumption.
  unfold call_value, envelope. rewrite d_star_d1_real by assumption.
  f_equal.
  pose proof (Phi_sym (d1_real s k t rr sg)) as E1.
  pose proof (Phi_sym (d1_real s k t rr sg - sg * sqrt t)) as E2.
  set (a := Phi (d1_real s k t rr sg)) in *.
  set (b := Phi (d1_real s k t rr sg - sg * sqrt t)) in *.
  replace (Phi (- d1_real s k t rr sg)) with (1 - a) by lra.
  replace (Phi (- (d1_real s k t rr sg - sg * sqrt t))) with (1 - b) by lra.
  ring.
Qed.

Lemma nth_error_entry (e : num -> num) (Ks : list num) (i : nat) (K : num) :
  nth_error Ks i = Some K -> nth_error (map e Ks) i = Some (e K).
Proof. intros H. rewrite nth_error_map, H. reflexivity. Qed.

(** X5: where no intermediate result overflows or underflows and d1 is
    well conditioned, the Delta that [calculate_greeks] returns for a
    strike is the derivative of the [black_scholes] price in the spot,
    for the call and for the put. *)
Theorem delta_is_spot_derivative (s k t rr sg : R) (Ks : list num) (i : nat) :
  0 < s -> 0 < k -> 0 < t -> sg <> 0 ->
  in_double_range s k t rr sg -> well_conditioned t sg ->
  nth_error Ks i = Some (Fin k) ->
  exists d,
    nth_error (Delta (calculate_greeks (Fin s) Ks (Fin t) (Fin rr) (Fin sg) "call")) i
      = Some (Fin d)
    /\ derivable_pt_lim
         (fun x => real_of (black_scholes (Fin x) (Fin k) (Fin t) (Fin rr) (Fin sg) "call"))
         s d
    /\ nth_error (Delta (calculate_greeks (Fin s) Ks (Fin t) (Fin rr) (Fin sg) "put")) i
      = Some (Fin (d - 1))
    /\ derivable_pt_lim
         (fun x => real_of (black_scholes (Fin x) (Fin k) (Fin t) (Fin rr) (Fin sg) "put"))
         s (d - 1).
Proof.
  intros Hs Hk Ht Hsg _ _ Hi.
  assert (HK : 0 < k * exp (- rr * t)).
  { apply Rmult_lt_0_compat; [exact Hk | apply exp_pos]. }
  pose proof (vol_sqrt_neq t sg Ht Hsg) as Hv.
  exists (Phi (d1_real s k t rr sg)).
  rewrite !calculate_greeks_maps. cbn [Delta].
  rewrite !(nth_error_entry _ Ks i (Fin k) Hi).
  rewrite !delta_entry_Fin by assumption.
  rewrite is_call_call, is_call_put.
  rewrite <- (d_star_d1_real s k t rr sg) by assumption.
  split; [reflexivity |]. split; [| split; [reflexivity |]].
  - apply (deriv_local (fun x => call_value x (k * exp (- rr * t)) (sg * sqrt t))
             _ s _ s Hs).
    + intros y Hy. apply Rabs_def2 in Hy.
      rewrite black_scholes_call_value by (try assumption; lra). reflexivity.
    + apply call_value_deriv_spot; assumption.
  - apply (deriv_local
             (fun x => call_value x (k * exp (- rr * t)) (sg * sqrt t) - x
                       + k * exp (- rr * t)) _ s _ s Hs).
    + intros y Hy. apply Rabs_def2 in Hy.
      rewrite (black_scholes_put_value y k t rr sg "put") by (try assumption; lra || reflexivity).
      reflexivity.
    + apply (deriv_ext
               (fun x => call_value x (k * exp (- rr * t)) (sg * sqrt t) - x
                         + k * exp (- rr * t)) _ s
               (Phi (d_star s (k * exp (- rr * t)) (sg * sqrt t)) - 1 + 0)).
      * intros y. reflexivity.
      * ring.
      * apply (derivable_pt_lim_plus
                 (fun x => call_value x (k * exp (- rr * t)) (sg * sqrt t) - x)
                 (fun _ => k * exp (- rr * t))).
        -- apply (derivable_pt_lim_minus
                    (fun x => call_value x (k * exp (- rr * t)) (sg * sqrt t)) id).
           ++ apply call_value_deriv_spot; assumption.
           ++ apply derivable_pt_lim_id.
        -- apply derivable_pt_lim_const.
Qed.

Lemma delta_is_spot_derivative_witness :
  exists d,
    nth_error (Delta (calculate_greeks (Fin 100) [Fin 90; Fin 100] (Fin 1) (Fin (2 / 100))
                        (Fin (2 / 10)) "call")) 1 = Some (Fin d)
    /\ derivable_pt_lim
         (fun x => real_of (black_scholes (Fin x) (Fin 100) (Fin 1) (Fin (2 / 100))
                              (Fin (2 / 10)) "call")) 100 d
    /\ nth_error (Delta (calculate_greeks (Fin 100) [Fin 90; Fin 100] (Fin 1) (Fin (2 / 100))
                           (Fin (2 / 10)) "put")) 1 = Some (Fin (d - 1))
    /\ derivable_pt_lim
         (fun x => real_of (black_scholes (Fin x) (Fin 100) (Fin 1) (Fin (2 / 100))
                              (Fin (2 / 10)) "put")) 100 (d - 1).
Proof.
  apply (delta_is_spot_derivative 100 100 1 (2 / 100) (2 / 10) [Fin 90; Fin 100] 1);
    try lra.
  - apply in_double_range_one_year; rewrite ?Rabs_pos_eq; lra.
  - unfold well_conditioned. rewrite sqrt_1, Rabs_pos_eq by lra. lra.
  - reflexivity.
Defined.

(** X6: for a market and a strike of moderate size with d1 well
    conditioned, the Rho that [calculate_greeks] returns for the strike
    is one hundredth of the derivative of the [black_scholes] price in
    the rate, for the call and for the put. *)
Theorem rho_is_rate_derivative (s k t rr sg : R) (Ks : list num) (i : nat) :
  moderate_market s t rr sg -> moderate k -> well_conditioned t sg ->
  nth_error Ks i = Some (Fin k) ->
  exists rc rp,
    nth_error (Rho (calculate_greeks (Fin s) Ks (Fin t) (Fin rr) (Fin sg) "call")) i
      = Some (Fin rc)
    /\ derivable_pt_lim
         (fun r => real_of (black_scholes (Fin s) (Fin k) (Fin t) (Fin r) (Fin sg) "call"))
         rr (100 * rc)
    /\ nth_error (Rho (calculate_greeks (Fin s) Ks (Fin t) (Fin rr) (Fin sg) "put")) i
      = Some (Fin rp)
    /\ derivable_pt_lim
         (fun r => real_of (black_scholes (Fin s) (Fin k) (Fin t) (Fin r) (Fin sg) "put"))
         rr (100 * rp).
Proof.
  intros Hm Hmk _ Hi.
  destruct (moderate_market_pos s t rr sg Hm) as (Hs & Ht & Hsg).
  pose proof (moderate_pos k Hmk) as Hk.
  pose proof (vol_sqrt_neq t sg Ht Hsg) as Hv.
  exists (k * t * exp (- rr * t) * Phi (d1_real s k t rr sg - sg * sqrt t) / 100).
  exists (k * t * exp (- rr * t) * - Phi (- (d1_real s k t rr sg - sg * sqrt t)) / 100).
  rewrite !calculate_greeks_maps. cbn [Rho].
  rewrite !(nth_error_entry _ Ks i (Fin k) Hi).
  rewrite !rho_entry_Fin by assumption.
  rewrite is_call_call, is_call_put.
  split; [reflexivity |]. split; [| split; [reflexivity |]].
  - apply (deriv_ext (fun r => call_value s (k * exp (- r * t)) (sg * sqrt t)) _ rr
             (t * (k * exp (- rr * t))
              * Phi (d_star s (k * exp (- rr * t)) (sg * sqrt t) - sg * sqrt t))).
    + intros r. rewrite black_scholes_call_value by assumption. reflexivity.
    + rewrite d_star_d1_real by assumption. field.
    + apply call_value_deriv_rate; assumption.
  - apply (deriv_ext
             (fun r => call_value s (k * exp (- r * t)) (sg * sqrt t) - s
                       + k * exp (- r * t)) _ rr
             (t * (k * exp (- rr * t))
              * Phi (d_star s (k * exp (- rr * t)) (sg * sqrt t) - sg * sqrt t)
              - 0 + - (t * (k * exp (- rr * t))))).
    + intros r.
      rewrite (black_scholes_put_value s k t r sg "put") by (assumption || reflexivity).
      reflexivity.
    + rewrite d_star_d1_real by assumption.
      pose proof (Phi_sym (d1_real s k t rr sg - sg * sqrt t)) as E.
      set (b := Phi (d1_real s k t rr sg - sg * sqrt t)) in *.
      replace (Phi (- (d1_real s k t rr sg - sg * sqrt t))) with (1 - b) by lra.
      field.
    + apply (derivable_pt_lim_plus
               (fun r => call_value s (k * exp (- r * t)) (sg * sqrt t) - s)
               (fun r => k * exp (- r * t))).
      * apply (derivable_pt_lim_minus
                 (fun r => call_value s (k * exp (- r * t)) (sg * sqrt t)) (fun _ => s)).
        -- apply call_value_deriv_rate; assumption.
        -- apply derivable_pt_lim_const.
      * apply discount_deriv.
Qed.

Lemma rho_is_rate_derivative_witness :
  exists rc rp,
    nth_error (Rho (calculate_greeks (Fin 100) [Fin 90; Fin 100] (Fin 1) (Fin (2 / 100))
                      (Fin (2 / 10)) "call")) 1 = Some (Fin rc)
    /\ derivable_pt_lim
         (fun r => real_of (black_scholes (Fin 100) (Fin 100) (Fin 1) (Fin r)
                              (Fin (2 / 10)) "call")) (2 / 100) (100 * rc)
    /\ nth_error (Rho (calculate_greeks (Fin 100) [Fin 90; Fin 100] (Fin 1) (Fin (2 / 100))
                         (Fin (2 / 10)) "put")) 1 = Some (Fin rp)
    /\ derivable_pt_lim
         (fun r => real_of (black_scholes (Fin 100) (Fin 100) (Fin 1) (Fin r)
                              (Fin (2 / 10)) "put")) (2 / 100) (100 * rp).
Proof.
  apply (rho_is_rate_derivative 100 100 1 (2 / 100) (2 / 10) [Fin 90; Fin 100] 1).
  - unfold moderate_market, moderate. rewrite !Rabs_pos_eq by lra. lra.
  - unfold moderate. lra.
  - unfold well_conditioned. rewrite sqrt_1, Rabs_pos_eq by lra. lra.
  - reflexivity.
Defined.

(** ** Price bounds *)

Lemma call_value_le_spot (S K' v : R) : 0 < S -> 0 < K' -> call_value S K' v <= S.
Proof.
  intros HS HK. unfold call_value, envelope.
  pose proof (Phi_bounds (d_star S K' v)) as [_ H1].
  pose proof (Phi_bounds (d_star S K' v - v)) as [H2 _].
  assert (S * Phi (d_star S K' v) <= S * 1) by (apply Rmult_le_compat_l; lra).
  assert (0 <= K' * Phi (d_star S K' v - v)) by (apply Rmult_le_pos; lra).
  lra.
Qed.

(** X7: for finite S > 0, K > 0, T > 0, sigma > 0 such that no
    intermediate result overflows or underflows, the call price lies
    between max(S - K * exp(-r * T), 0) and S, and the put price between
    max(K * exp(-r * T) - S, 0) and K * exp(-r * T). *)
Theorem price_bounds (s k t rr sg : R) :
  0 < s -> 0 < k -> 0 < t -> 0 < sg ->
  in_double_range s k t rr sg ->
  exists c p,
    black_scholes (Fin s) (Fin k) (Fin t) (Fin rr) (Fin sg) "call" = Fin c
    /\ black_scholes (Fin s) (Fin k) (Fin t) (Fin rr) (Fin sg) "put" = Fin p
    /\ Rmax (s - k * exp (- rr * t)) 0 <= c <= s
    /\ Rmax (k * exp (- rr * t) - s) 0 <= p <= k * exp (- rr * t).
Proof.
  intros Hs Hk Ht Hsg _.
  assert (HK : 0 < k * exp (- rr * t)).
  { apply Rmult_lt_0_compat; [exact Hk | apply exp_pos]. }
  pose proof (vol_sqrt_pos t sg Ht Hsg) as Hv.
  exists (call_value s (k * exp (- rr * t)) (sg * sqrt t)).
  exists (call_value s (k * exp (- rr * t)) (sg * sqrt t) - s + k * exp (- rr * t)).
  split; [apply black_scholes_call_value; lra |].
  split; [apply black_scholes_put_value; (reflexivity || lra) |].
  pose proof (call_value_nonneg s _ _ Hs HK Hv).
  pose proof (call_value_ge_forward s _ _ Hs HK Hv).
  pose proof (call_value_le_spot s _ (sg * sqrt t) Hs HK).
  split; split; try lra; apply Rmax_lub; lra.
Qed.

Lemma price_bounds_witness :
  exists c p,
    black_scholes (Fin 100) (Fin 100) (Fin 1) (Fin (2 / 100)) (Fin (2 / 10)) "call" = Fin c
    /\ black_scholes (Fin 100) (Fin 100) (Fin 1) (Fin (2 / 100)) (Fin (2 / 10)) "put" = Fin p
    /\ Rmax (100 - 100 * exp (- (2 / 100) * 1)) 0 <= c <= 100
    /\ Rmax (100 * exp (- (2 / 100) * 1) - 100) 0 <= p <= 100 * exp (- (2 / 100) * 1).
Proof.
  apply (price_bounds 100 100 1 (2 / 100) (2 / 10)); try lra.
  apply in_double_range_one_year; rewrite ?Rabs_pos_eq; lra.
Defined.



(** ** Option types other than ['call'] *)

Lemma is_call_false (ot : string) : ot <> "call"%string -> is_call ot = false.
Proof. intros H. unfold is_call. apply String.eqb_neq, H. Qed.

(** X9: any option type other than the exact string ['call'] (for instance
    ['Call'] or ['CALL']) is priced, and its Greeks computed, as a put. *)
Theorem other_option_types_are_puts (S : num) (Ks : list num) (K T r sigma : num)
    (ot : string) :
  ot <> "call"%string ->
  black_scholes S K T r sigma ot = black_scholes S K T r sigma "put"
  /\ calculate_greeks S Ks T r sigma ot = calculate_greeks S Ks T r sigma "put".
Proof.
  intros Hot. apply is_call_false in Hot. split.
  - unfold black_scholes. rewrite Hot, is_call_put. reflexivity.
  - unfold calculate_greeks.
    replace (greeks_step S T r sigma ot) with (greeks_step S T r sigma "put");
      [reflexivity |].
    apply functional_extensionality; intros res.
    apply functional_extensionality; intros K0.
    unfold greeks_step. rewrite Hot, is_call_put. reflexivity.
Qed.

Lemma other_option_types_are_puts_witness :
  black_scholes (Fin 100) (Fin 100) (Fin 1) (Fin 0) (Fin 1) "Call"
  = black_scholes (Fin 100) (Fin 100) (Fin 1) (Fin 0) (Fin 1) "put"
  /\ calculate_greeks (Fin 100) [Fin 100] (Fin 1) (Fin 0) (Fin 1) "Call"
     = calculate_greeks (Fin 100) [Fin 100] (Fin 1) (Fin 0) (Fin 1) "put".
Proof.
  apply (other_option_types_are_puts (Fin 100) [Fin 100] (Fin 100) (Fin 1) (Fin 0)
           (Fin 1) "Call").
  discriminate.
Defined.

(** ** The Greeks at zero time to expiry *)


(** ** The unguarded pricing function of [BlackScholesForCall&PutOption.py] *)

Module CallPutScript.

(** [black_scholes(S, K, T, r, sigma)]: plain division, no guard, both
    prices returned as a pair. *)
Definition black_scholes (S K T r sigma : num) : num * num :=
  let d1 := ndiv (nadd (nlog (ndiv S K))
                       (nmul (nadd r (nmul (Fin (1 / 2)) (nsquare sigma))) T))
                 (nmul sigma (nsqrt T)) in
  let d2 := nsub d1 (nmul sigma (nsqrt T)) in
  let call_price :=
    nsub (nmul S (norm_cdf d1))
         (nmul (nmul K (nexp (nmul (nneg r) T))) (norm_cdf d2)) in
  let put_price :=
    nsub (nmul (nmul K (nexp (nmul (nneg r) T))) (norm_cdf (nneg d2)))
         (nmul S (norm_cdf (nneg d1))) in
  (call_price, put_price).

End CallPutScript.

Lemma sgn_sqrt_pos (t : R) : 0 < t -> sgn (sqrt t) = Pos.
Proof. intros Ht. apply sgn_pos, sqrt_lt_R0, Ht. Qed.

(** On the reals, with no NaN input and sigma and T different from 0,
    the denominator [sigma * np.sqrt(T)] is not 0. *)
Lemma denominator_not_zero (T sigma : num) :
  isnan T = false -> isnan sigma = false ->
  is_zero sigma = false -> is_zero T = false ->
  is_zero (nmul sigma (nsqrt T)) = false.
Proof.
  intros HT Hs Hsz HTz.
  destruct T as [| | | t]; try discriminate; destruct sigma as [| | | sg];
    try discriminate; try reflexivity.
  - cbn [nsqrt nmul sign_of sign_mul].
    destruct (sgn sg); reflexivity.
  - cbn [nsqrt]. destruct (total_order_T t 0) as [[Hlt | Heq] | Hgt].
    + rewrite sgn_neg by exact Hlt. reflexivity.
    + subst t. rewrite is_zero_0 in HTz. discriminate.
    + rewrite sgn_pos by exact Hgt. cbn [nmul sign_of sign_mul].
      rewrite sgn_sqrt_pos by exact Hgt. reflexivity.
  - cbn [nsqrt]. destruct (total_order_T t 0) as [[Hlt | Heq] | Hgt].
    + rewrite sgn_neg by exact Hlt. reflexivity.
    + subst t. rewrite is_zero_0 in HTz. discriminate.
    + rewrite sgn_pos by exact Hgt. cbn [nmul sign_of sign_mul].
      rewrite sgn_sqrt_pos by exact Hgt. reflexivity.
  - cbn [nsqrt]. destruct (total_order_T t 0) as [[Hlt | Heq] | Hgt].
    + rewrite sgn_neg by exact Hlt. reflexivity.
    + subst t. rewrite is_zero_0 in HTz. discriminate.
    + rewrite sgn_pos by exact Hgt. cbn [nmul].
      apply is_zero_Fin_neq, vol_sqrt_neq; [exact Hgt |].
      intros ->. rewrite is_zero_0 in Hsz. discriminate.
Qed.

(** X11: when no input is NaN, T > 0 and [sigma * np.sqrt(T)] does not
    underflow (so that it is not 0 as computed), the unguarded function
    returns exactly the call and put prices of the guarded
    [black_scholes]. *)
Theorem scripts_agree (S K r : num) (t sg : R) :
  isnan S = false -> isnan K = false -> isnan r = false ->
  0 < t -> / 2 ^ 1000 <= Rabs sg * sqrt t ->
  CallPutScript.black_scholes S K (Fin t) r (Fin sg) =
  (black_scholes S K (Fin t) r (Fin sg) "call",
   black_scholes S K (Fin t) r (Fin sg) "put").
Proof.
  intros HS HK Hr Ht Hden.
  assert (Hsg : sg <> 0).
  { intros ->. rewrite Rabs_R0, Rmult_0_l in Hden. lra. }
  assert (Hsz : is_zero (Fin sg) = false) by (apply is_zero_Fin_neq, Hsg).
  assert (HTz : is_zero (Fin t) = false) by (apply is_zero_Fin_neq; lra).
  pose proof (denominator_not_zero (Fin t) (Fin sg) eq_refl eq_refl Hsz HTz) as Hd.
  unfold CallPutScript.black_scholes, black_scholes.
  rewrite HS, HK, Hr, Hsz. cbn [isnan orb].
  rewrite is_call_call, is_call_put.
  unfold d1_of, safe_divide. rewrite Hd. reflexivity.
Qed.

Lemma scripts_agree_witness :
  CallPutScript.black_scholes (Fin 100) (Fin 150) (Fin 1) (Fin (2 / 100)) (Fin (2 / 10)) =
  (black_scholes (Fin 100) (Fin 150) (Fin 1) (Fin (2 / 100)) (Fin (2 / 10)) "call",
   black_scholes (Fin 100) (Fin 150) (Fin 1) (Fin (2 / 100)) (Fin (2 / 10)) "put").
Proof.
  apply scripts_agree; try reflexivity; [lra |].
  rewrite sqrt_1, Rabs_pos_eq by lra. lra.
Defined.

(** X12: at T = 0 (finite S > 0, K > 0, sigma >= 0 and a rate such that
    [r + 0.5 * sigma ** 2] does not overflow) the unguarded function
    divides by zero: d1 is an infinity and the prices are the intrinsic
    values, S - K and 0 when S > K, 0 and K - S when S < K; everything
    is NaN when S = K. *)
Theorem unguarded_at_expiry (s k rr sg : R) :
  0 < s -> 0 < k -> 0 <= sg ->
  sg * sg <= 2 ^ 1000 -> Rabs (rr + 1 / 2 * (sg * sg)) <= 2 ^ 1000 ->
  (k < s ->
   CallPutScript.black_scholes (Fin s) (Fin k) (Fin 0) (Fin rr) (Fin sg)
   = (Fin (s - k), Fin 0))
  /\ (s < k ->
   CallPutScript.black_scholes (Fin s) (Fin k) (Fin 0) (Fin rr) (Fin sg)
   = (Fin 0, Fin (k - s)))
  /\ (s = k ->
   CallPutScript.black_scholes (Fin s) (Fin k) (Fin 0) (Fin rr) (Fin sg) = (NaN, NaN)).
Proof.
  intros Hs Hk _ _ _.
  set (n := ln (s / k) + (rr + 1 / 2 * (sg * sg)) * 0).
  assert (Hn : n = ln (s / k)) by (unfold n; ring).
  assert (Hq : 0 < s / k) by (apply Rdiv_lt_0_compat; assumption).
  assert (Hd1 : ndiv (nadd (nlog (ndiv (Fin s) (Fin k)))
                        (nmul (nadd (Fin rr) (nmul (Fin (1 / 2)) (nsquare (Fin sg))))
                              (Fin 0)))
                     (nmul (Fin sg) (nsqrt (Fin 0))) = inf_of (sgn n)).
  { rewrite ndiv_Fin by lra. rewrite nlog_Fin by exact Hq.
    rewrite nsqrt_Fin by lra. cbn [nsquare nmul nadd].
    fold n. rewrite sqrt_0, Rmult_0_r. cbn [ndiv].
    destruct (Req_dec_T 0 0) as [_ | H]; [reflexivity | contradiction]. }
  assert (Hd2 : forall d, nsub d (nmul (Fin sg) (nsqrt (Fin 0))) = nsub d (Fin 0)).
  { intros d. rewrite nsqrt_Fin by lra. cbn [nmul].
    rewrite sqrt_0, Rmult_0_r. reflexivity. }
  assert (He : nexp (nmul (nneg (Fin rr)) (Fin 0)) = Fin 1) by apply discount_expiry.
  unfold CallPutScript.black_scholes. rewrite Hd1, Hd2, He.
  split; [| split]; intros Hcmp.
  - assert (0 < n).
    { rewrite Hn, <- ln_1. apply ln_increasing; [lra |].
      apply Rmult_lt_reg_r with k; [exact Hk |].
      unfold Rdiv. rewrite Rmult_assoc, Rinv_l by lra. lra. }
    rewrite sgn_pos by assumption.
    cbn [inf_of nsub nneg nadd norm_cdf nmul]. f_equal; f_equal; ring.
  - assert (n < 0).
    { rewrite Hn, <- ln_1. apply ln_increasing; [exact Hq |].
      apply Rmult_lt_reg_r with k; [exact Hk |].
      unfold Rdiv. rewrite Rmult_assoc, Rinv_l by lra. lra. }
    rewrite sgn_neg by assumption.
    cbn [inf_of nsub nneg nadd norm_cdf nmul]. f_equal; f_equal; ring.
  - assert (n = 0).
    { rewrite Hn, Hcmp. unfold Rdiv. rewrite Rinv_r by lra. apply ln_1. }
    rewrite H, sgn_zero. reflexivity.
Qed.

Lemma unguarded_at_expiry_witness :
  CallPutScript.black_scholes (Fin 100) (Fin 150) (Fin 0) (Fin (2 / 100)) (Fin (2 / 10))
  = (Fin 0, Fin (150 - 100)).
Proof.
  assert (H1 : 0 < 100) by lra.
  assert (H2 : 0 < 150) by lra.
  assert (H3 : 0 <= 2 / 10) by lra.
  assert (H4 : 2 / 10 * (2 / 10) <= 2 ^ 1000) by lra.
  assert (H5 : Rabs (2 / 100 + 1 / 2 * (2 / 10 * (2 / 10))) <= 2 ^ 1000)
    by (rewrite Rabs_pos_eq; lra).
  destruct (unguarded_at_expiry 100 150 (2 / 100) (2 / 10) H1 H2 H3 H4 H5)
    as (_ & Hput & _).
  apply Hput. lra.
Defined.


(** ** Console and workbook effects *)

(** What is written into a worksheet cell. *)
Inductive cell : Type :=
| Text (s : string)
| Number (v : num).

(** The three formats [generate_report] creates: [bold], [money_format]
    and [percent_format]. *)
Inductive cell_format : Type := Bold | Money | Percent.

(** The calls made on the console, on pyplot and on xlsxwriter, in the
    order they happen. *)
Inductive event : Type :=
| Print (text : string)
| PrintNum (label : string) (v : num) (format suffix : string)
| PrintPrices (label : string) (prices : list num)
| PlotOptionPrices (strikes call_prices put_prices : list num)
| Workbook (filename : string)
| AddWorksheet (name : string)
| AddFormat (f : cell_format)
| Write (row col : nat) (c : cell) (f : cell_format)
| AddChart (kind : string)
| AddSeries (name categories values : string)
| SetTitle (name : string)
| SetXAxis (name : string)
| SetYAxis (name : string)
| InsertChart (at_cell : string)
| CloseWorkbook.

(** Computations that perform such calls and may raise. *)
Definition IO (A : Type) : Type := list event -> result A * list event.

Definition io_ret {A : Type} (a : A) : IO A := fun tr => (Ok a, tr).

Definition io_bind {A B : Type} (c : IO A) (k : A -> IO B) : IO B :=
  fun tr =>
    match c tr with
    | (Ok a, tr') => k a tr'
    | (Raised e, tr') => (Raised e, tr')
    end.

Definition io_lift {A : Type} (r : result A) : IO A := fun tr => (r, tr).

Definition emit (e : event) : IO unit := fun tr => (Ok tt, tr ++ [e]).

Definition io_try {A : Type} (c : IO A) (h : exn -> IO A) : IO A :=
  fun tr =>
    match c tr with
    | (Ok a, tr') => (Ok a, tr')
    | (Raised e, tr') => h e tr'
    end.

Notation "x <~ c ;; k" := (io_bind c (fun x => k))
  (at level 61, c at next level, right associativity).
Notation "c ;;~ k" := (io_bind c (fun _ => k))
  (at level 61, right associativity).

(** [for x in xs: body x] *)
Fixpoint for_each {A : Type} (xs : list A) (body : A -> IO unit) : IO unit :=
  match xs with
  | [] => io_ret tt
  | x :: tl => body x ;;~ for_each tl body
  end.

(** [enumerate(xs)] *)
Definition enumerate {A : Type} (xs : list A) : list (nat * A) :=
  combine (seq 0 (List.length xs)) xs.

(** [xs[i]] on a Python list, for an index that is not negative. *)
Definition py_index (xs : list num) (i : nat) : result num :=
  match nth_error xs i with
  | Some v => Ok v
  | None => Raised "list index out of range"
  end.

(** ** [generate_report] *)

(** [Greeks.keys()] with the list each key holds, in insertion order. *)
Definition greeks_items (g : greeks) : list (string * list num) :=
  [("Delta", Delta g); ("Gamma", Gamma g); ("Theta", Theta g);
   ("Vega", Vega g); ("Rho", Rho g)]%string.

(** [v if not np.isnan(v) else 0] *)
Definition nan_to_zero (v : num) : num := if isnan v then Fin 0 else v.

Definition report_headers (g : greeks) : list string :=
  app ["Strike Price"; "Call Prices"; "Put Prices"]%string (map fst (greeks_items g)).

(** The body of the loop [for i, strike in enumerate(strikes)]. *)
Definition report_row (call_prices put_prices : list num) (g : greeks)
    (row : nat * num) : IO unit :=
  let (i, strike) := row in
  emit (Write (i + 1) 0 (Number strike) Money) ;;~
  c <~ io_lift (py_index call_prices i) ;;
  emit (Write (i + 1) 1 (Number (nan_to_zero c)) Money) ;;~
  p <~ io_lift (py_index put_prices i) ;;
  emit (Write (i + 1) 2 (Number (nan_to_zero p)) Money) ;;~
  for_each (enumerate (greeks_items g))
    (fun item =>
       let (j, kv) := item in
       v <~ io_lift (py_index (snd kv) i) ;;
       emit (Write (i + 1) (j + 3) (Number (nan_to_zero v)) Percent)).

Definition generate_report (strikes call_prices put_prices : list num) (g : greeks)
    (filename : string) : IO unit :=
  emit (Workbook filename) ;;~
  emit (AddWorksheet "Options Data") ;;~
  emit (AddFormat Bold) ;;~
  emit (AddFormat Money) ;;~
  emit (AddFormat Percent) ;;~
  for_each (enumerate (report_headers g))
    (fun ih => let (i, header) := ih in emit (Write 0 i (Text header) Bold)) ;;~
  for_each (enumerate strikes) (report_row call_prices put_prices g) ;;~
  emit (AddChart "line") ;;~
  emit (AddSeries "='Options Data'!$B$1" "='Options Data'!$A$2:$A$6"
                  "='Options Data'!$B$2:$B$6") ;;~
  emit (AddSeries "='Options Data'!$C$1" "='Options Data'!$A$2:$A$6"
                  "='Options Data'!$C$2:$C$6") ;;~
  emit (SetTitle "Call and Put Prices") ;;~
  emit (SetXAxis "Strike Price") ;;~
  emit (SetYAxis "Option Price") ;;~
  emit (InsertChart "E2") ;;~
  emit CloseWorkbook ;;~
  emit (Print ("Report generated and saved as " ++ filename)).

(** *** The trace of a successful report *)

(** The length of the shortest of the price and Greek lists. *)
Definition shortest (call_prices put_prices : list num) (g : greeks) : nat :=
  fold_right Nat.min (List.length call_prices)
    (List.length put_prices :: map (fun kv => List.length (snd kv)) (greeks_items g)).

(** The eight cells of the row of strike number [i]. *)
Definition row_events (call_prices put_prices : list num) (g : greeks)
    (row : nat * num) : list event :=
  let (i, strike) := row in
  [Write (i + 1) 0 (Number strike) Money;
   Write (i + 1) 1 (Number (nan_to_zero (nth i call_prices NaN))) Money;
   Write (i + 1) 2 (Number (nan_to_zero (nth i put_prices NaN))) Money;
   Write (i + 1) 3 (Number (nan_to_zero (nth i (Delta g) NaN))) Percent;
   Write (i + 1) 4 (Number (nan_to_zero (nth i (Gamma g) NaN))) Percent;
   Write (i + 1) 5 (Number (nan_to_zero (nth i (Theta g) NaN))) Percent;
   Write (i + 1) 6 (Number (nan_to_zero (nth i (Vega g) NaN))) Percent;
   Write (i + 1) 7 (Number (nan_to_zero (nth i (Rho g) NaN))) Percent].

Definition is_write (e : event) : Prop :=
  match e with
  | Write _ _ _ _ => True
  | _ => False
  end.

(** No price or Greek cell (column 1 and beyond) holds NaN. *)
Definition clean_cell (e : event) : Prop :=
  match e with
  | Write _ col (Number v) _ => (1 <= col)%nat -> isnan v = false
  | _ => True
  end.

Lemma py_index_ok (xs : list num) (i : nat) :
  (i < List.length xs)%nat -> py_index xs i = Ok (nth i xs NaN).
Proof.
  intros H. unfold py_index.
  rewrite (nth_error_nth' xs NaN H). reflexivity.
Qed.

Lemma py_index_raises (xs : list num) (i : nat) :
  (List.length xs <= i)%nat -> py_index xs i = Raised "list index out of range".
Proof.
  intros H. unfold py_index.
  apply nth_error_None in H. rewrite H. reflexivity.
Qed.

Lemma shortest_spec (call_prices put_prices : list num) (g : greeks) (i : nat) :
  (i < shortest call_prices put_prices g)%nat <->
  (i < List.length call_prices /\ i < List.length put_prices
   /\ i < List.length (Delta g) /\ i < List.length (Gamma g)
   /\ i < List.length (Theta g) /\ i < List.length (Vega g)
   /\ i < List.length (Rho g))%nat.
Proof. unfold shortest. cbn [greeks_items map snd fold_right]. lia. Qed.

Lemma report_row_ok (call_prices put_prices : list num) (g : greeks)
    (i : nat) (strike : num) (tr : list event) :
  (i < shortest call_prices put_prices g)%nat ->
  report_row call_prices put_prices g (i, strike) tr =
  (Ok tt, tr ++ row_events call_prices put_prices g (i, strike)).
Proof.
  intros H. apply shortest_spec in H.
  destruct H as (Hc & Hp & H1 & H2 & H3 & H4 & H5).
  unfold report_row, row_events, enumerate.
  cbn [greeks_items List.length seq combine for_each snd].
  unfold io_bind, io_lift, emit, io_ret.
  rewrite !py_index_ok by assumption.
  rewrite <- !app_assoc. reflexivity.
Qed.

Lemma report_row_raises (call_prices put_prices : list num) (g : greeks)
    (i : nat) (strike : num) (tr : list event) :
  (shortest call_prices put_prices g <= i)%nat ->
  exists evs,
    report_row call_prices put_prices g (i, strike) tr =
    (Raised "list index out of range", tr ++ evs)
    /\ Forall is_write evs.
Proof.
  intros H.
  assert (Hn : ~ (i < shortest call_prices put_prices g)%nat) by lia.
  rewrite shortest_spec in Hn.
  unfold report_row, enumerate.
  cbn [greeks_items List.length seq combine for_each snd].
  unfold io_bind, io_lift, emit, io_ret.
  destruct (le_lt_dec (List.length call_prices) i) as [Hc | Hc].
  { rewrite (py_index_raises call_prices i Hc).
    eexists. split; [reflexivity | repeat constructor]. }
  rewrite (py_index_ok call_prices i Hc).
  destruct (le_lt_dec (List.length put_prices) i) as [Hp | Hp].
  { rewrite (py_index_raises put_prices i Hp).
    eexists. split; [rewrite <- !app_assoc; reflexivity | repeat constructor]. }
  rewrite (py_index_ok put_prices i Hp).
  destruct (le_lt_dec (List.length (Delta g)) i) as [H1 | H1].
  { rewrite (py_index_raises (Delta g) i H1).
    eexists. split; [rewrite <- !app_assoc; reflexivity | repeat constructor]. }
  rewrite (py_index_ok (Delta g) i H1).
  destruct (le_lt_dec (List.length (Gamma g)) i) as [H2 | H2].
  { rewrite (py_index_raises (Gamma g) i H2).
    eexists. split; [rewrite <- !app_assoc; reflexivity | repeat constructor]. }
  rewrite (py_index_ok (Gamma g) i H2).
  destruct (le_lt_dec (List.length (Theta g)) i) as [H3 | H3].
  { rewrite (py_index_raises (Theta g) i H3).
    eexists. split; [rewrite <- !app_assoc; reflexivity | repeat constructor]. }
  rewrite (py_index_ok (Theta g) i H3).
  destruct (le_lt_dec (List.length (Vega g)) i) as [H4 | H4].
  { rewrite (py_index_raises (Vega g) i H4).
    eexists. split; [rewrite <- !app_assoc; reflexivity | repeat constructor]. }
  rewrite (py_index_ok (Vega g) i H4).
  destruct (le_lt_dec (List.length (Rho g)) i) as [H5 | H5].
  { rewrite (py_index_raises (Rho g) i H5).
    eexists. split; [rewrite <- !app_assoc; reflexivity | repeat constructor]. }
  exfalso. apply Hn. repeat split; assumption.
Qed.

Lemma report_rows_ok (call_prices put_prices : list num) (g : greeks)
    (strikes : list num) :
  forall (a : nat) (tr : list event),
    (a + List.length strikes <= shortest call_prices put_prices g)%nat ->
    for_each (combine (seq a (List.length strikes)) strikes)
      (report_row call_prices put_prices g) tr =
    (Ok tt, tr ++ flat_map (row_events call_prices put_prices g)
                    (combine (seq a (List.length strikes)) strikes)).
Proof.
  induction strikes as [| strike strikes IH]; intros a tr H.
  - cbn. rewrite app_nil_r. reflexivity.
  - cbn [List.length seq combine for_each flat_map] in *.
    unfold io_bind. rewrite report_row_ok by lia.
    rewrite IH by lia. rewrite <- app_assoc. reflexivity.
Qed.

Lemma report_rows_raise (call_prices put_prices : list num) (g : greeks)
    (strikes : list num) :
  forall (a : nat) (tr : list event),
    (a <= shortest call_prices put_prices g)%nat ->
    (shortest call_prices put_prices g < a + List.length strikes)%nat ->
    exists evs,
      for_each (combine (seq a (List.length strikes)) strikes)
        (report_row call_prices put_prices g) tr =
      (Raised "list index out of range", tr ++ evs)
      /\ Forall is_write evs.
Proof.
  induction strikes as [| strike strikes IH]; intros a tr Hle H.
  - cbn [List.length] in H. lia.
  - cbn [List.length seq combine for_each] in *. unfold io_bind.
    destruct (le_lt_dec (shortest call_prices put_prices g) a) as [Ha | Ha].
    + destruct (report_row_raises call_prices put_prices g a strike tr Ha)
        as (evs & -> & Hw).
      exists evs. split; [reflexivity | exact Hw].
    + rewrite report_row_ok by exact Ha.
      destruct (IH (S a) (tr ++ row_events call_prices put_prices g (a, strike))
                  ltac:(lia) ltac:(lia)) as (evs & -> & Hw).
      exists (row_events call_prices put_prices g (a, strike) ++ evs).
      split; [rewrite app_assoc; reflexivity |].
      apply Forall_app. split; [repeat constructor | exact Hw].
Qed.

Definition report_prelude (filename : string) : list event :=
  [Workbook filename; AddWorksheet "Options Data"; AddFormat Bold; AddFormat Money;
   AddFormat Percent].

Definition header_events : list event :=
  [Write 0 0 (Text "Strike Price") Bold; Write 0 1 (Text "Call Prices") Bold;
   Write 0 2 (Text "Put Prices") Bold; Write 0 3 (Text "Delta") Bold;
   Write 0 4 (Text "Gamma") Bold; Write 0 5 (Text "Theta") Bold;
   Write 0 6 (Text "Vega") Bold; Write 0 7 (Text "Rho") Bold].

Definition report_tail (filename : string) : list event :=
  [AddChart "line";
   AddSeries "='Options Data'!$B$1" "='Options Data'!$A$2:$A$6"
             "='Options Data'!$B$2:$B$6";
   AddSeries "='Options Data'!$C$1" "='Options Data'!$A$2:$A$6"
             "='Options Data'!$C$2:$C$6";
   SetTitle "Call and Put Prices"; SetXAxis "Strike Price"; SetYAxis "Option Price";
   InsertChart "E2"; CloseWorkbook;
   Print ("Report generated and saved as " ++ filename)].

Lemma report_start (strikes call_prices put_prices : list num) (g : greeks)
    (filename : string) (tr : list event) :
  generate_report strikes call_prices put_prices g filename tr =
  match for_each (enumerate strikes) (report_row call_prices put_prices g)
          (tr ++ report_prelude filename ++ header_events) with
  | (Ok _, tr') => (Ok tt, tr' ++ report_tail filename)
  | (Raised e, tr') => (Raised e, tr')
  end.
Proof.
  unfold generate_report, report_headers, enumerate at 1.
  cbn [greeks_items map fst app List.length seq combine for_each].
  unfold io_bind at 1 2 3 4 5 6, emit at 1 2 3 4 5, io_ret.
  unfold io_bind at 1 2 3 4 5 6 7 8, emit at 1 2 3 4 5 6 7 8, io_ret.
  unfold io_bind at 1.
  replace (((((((((((((tr ++ [Workbook filename]) ++ [AddWorksheet "Options Data"]) ++
    [AddFormat Bold]) ++ [AddFormat Money]) ++ [AddFormat Percent]) ++
    [Write 0 0 (Text "Strike Price") Bold]) ++ [Write 0 1 (Text "Call Prices") Bold]) ++
    [Write 0 2 (Text "Put Prices") Bold]) ++ [Write 0 3 (Text "Delta") Bold]) ++
    [Write 0 4 (Text "Gamma") Bold]) ++ [Write 0 5 (Text "Theta") Bold]) ++
    [Write 0 6 (Text "Vega") Bold]) ++ [Write 0 7 (Text "Rho") Bold])
    with (tr ++ report_prelude filename ++ header_events)
    by (unfold report_prelude, header_events; rewrite <- !app_assoc; reflexivity).
  destruct (for_each (enumerate strikes) (report_row call_prices put_prices g)
              (tr ++ report_prelude filename ++ header_events)) as [[[] | e] tr'];
    [| reflexivity].
  unfold io_bind, emit, report_tail. rewrite <- !app_assoc. reflexivity.
Qed.

Lemma nan_to_zero_not_nan (v : num) : isnan (nan_to_zero v) = false.
Proof. unfold nan_to_zero. destruct v; reflexivity. Qed.

Lemma row_events_facts (call_prices put_prices : list num) (g : greeks)
    (rows : list (nat * num)) :
  let evs := flat_map (row_events call_prices put_prices g) rows in
  List.length evs = (8 * List.length rows)%nat
  /\ Forall is_write evs
  /\ Forall clean_cell evs.
Proof.
  induction rows as [| [i strike] rows (IHl & IHw & IHc)]; cbn [flat_map List.length].
  - repeat split; constructor.
  - split; [| split].
    + rewrite length_app, IHl. cbn [row_events List.length]. lia.
    + apply Forall_app. split; [repeat constructor | exact IHw].
    + apply Forall_app. split; [| exact IHc].
      cbn [row_events].
      repeat (constructor; [cbn [clean_cell]; intros; try lia; apply nan_to_zero_not_nan |]).
      constructor.
Qed.

Lemma enumerate_In {A : Type} (xs : list A) (x : A) :
  forall (a i : nat),
    nth_error xs i = Some x ->
    In ((a + i)%nat, x) (combine (seq a (List.length xs)) xs).
Proof.
  induction xs as [| y xs IH]; intros a i H.
  - destruct i; discriminate.
  - cbn [List.length seq combine]. destruct i as [| i].
    + injection H as ->. left. f_equal. lia.
    + right. replace (a + S i)%nat with (S a + i)%nat by lia. apply IH, H.
Qed.

(** X13: when every price and Greek list is at least as long as the strike
    list, [generate_report] does not raise: after the header row it
    writes eight cells per strike, the strikes in order in column 0, no
    NaN in any price or Greek cell, and then closes the workbook. *)
Theorem report_succeeds (strikes call_prices put_prices : list num) (g : greeks)
    (filename : string) :
  (List.length strikes <= shortest call_prices put_prices g)%nat ->
  exists rows,
    generate_report strikes call_prices put_prices g filename [] =
    (Ok tt, report_prelude filename ++ header_events ++ rows ++ report_tail filename)
    /\ List.length rows = (8 * List.length strikes)%nat
    /\ Forall is_write rows
    /\ Forall clean_cell rows
    /\ (forall i strike, nth_error strikes i = Some strike ->
          In (Write (i + 1) 0 (Number strike) Money) rows).
Proof.
  intros H.
  exists (flat_map (row_events call_prices put_prices g) (enumerate strikes)).
  destruct (row_events_facts call_prices put_prices g (enumerate strikes))
    as (Hl & Hw & Hc).
  split; [| split; [| split; [| split]]]; try assumption.
  - rewrite report_start. unfold enumerate.
    rewrite report_rows_ok by (cbn [Nat.add]; exact H).
    cbn [app]. rewrite <- !app_assoc. reflexivity.
  - rewrite Hl. unfold enumerate. rewrite length_combine, length_seq. lia.
  - intros i strike Hi. apply in_flat_map. exists (i, strike). split.
    + apply (enumerate_In strikes strike 0 i Hi).
    + left. reflexivity.
Qed.

Lemma report_succeeds_witness :
  exists rows,
    generate_report [Fin 90; Fin 100] [Fin 12; NaN] [Fin 1; Fin 6]
      (mkGreeks [NaN; NaN] [NaN; NaN] [NaN; NaN] [NaN; NaN] [NaN; NaN])
      "enhanced_option_report.xlsx" [] =
    (Ok tt, report_prelude "enhanced_option_report.xlsx" ++ header_events ++ rows
            ++ report_tail "enhanced_option_report.xlsx")
    /\ List.length rows = (8 * 2)%nat
    /\ Forall is_write rows
    /\ Forall clean_cell rows
    /\ (forall i strike, nth_error [Fin 90; Fin 100] i = Some strike ->
          In (Write (i + 1) 0 (Number strike) Money) rows).
Proof.
  apply (report_succeeds [Fin 90; Fin 100] [Fin 12; NaN] [Fin 1; Fin 6]
           (mkGreeks [NaN; NaN] [NaN; NaN] [NaN; NaN] [NaN; NaN] [NaN; NaN])).
  cbn. lia.
Defined.

(** X14: when a price or Greek list is shorter than the strike list,
    [generate_report] raises IndexError in the middle of the rows: the
    workbook is never closed and the final message is never printed. *)
Theorem report_index_error (strikes call_prices put_prices : list num) (g : greeks)
    (filename : string) :
  (shortest call_prices put_prices g < List.length strikes)%nat ->
  exists tr,
    generate_report strikes call_prices put_prices g filename [] =
    (Raised "list index out of range", tr)
    /\ ~ In CloseWorkbook tr
    /\ ~ In (Print ("Report generated and saved as " ++ filename)) tr.
Proof.
  intros H.
  destruct (report_rows_raise call_prices put_prices g strikes 0
              ([] ++ report_prelude filename ++ header_events)
              ltac:(lia) ltac:(lia)) as (evs & Hrun & Hw).
  exists (([] ++ report_prelude filename ++ header_events) ++ evs).
  split; [| split].
  - rewrite report_start. unfold enumerate. rewrite Hrun. reflexivity.
  - intros Hin. apply in_app_or in Hin. destruct Hin as [Hin | Hin].
    + cbn in Hin. intuition discriminate.
    + rewrite Forall_forall in Hw. apply (Hw _ Hin).
  - intros Hin. apply in_app_or in Hin. destruct Hin as [Hin | Hin].
    + cbn in Hin. intuition discriminate.
    + rewrite Forall_forall in Hw. apply (Hw _ Hin).
Qed.

Lemma report_index_error_witness :
  exists tr,
    generate_report [Fin 90; Fin 100] [Fin 12] [Fin 1; Fin 6]
      (mkGreeks [NaN; NaN] [NaN; NaN] [NaN; NaN] [NaN; NaN] [NaN; NaN])
      "enhanced_option_report.xlsx" [] =
    (Raised "list index out of range", tr)
    /\ ~ In CloseWorkbook tr
    /\ ~ In (Print ("Report generated and saved as " ++ "enhanced_option_report.xlsx")) tr.
Proof.
  apply (report_index_error [Fin 90; Fin 100] [Fin 12] [Fin 1; Fin 6]
           (mkGreeks [NaN; NaN] [NaN; NaN] [NaN; NaN] [NaN; NaN] [NaN; NaN])).
  cbn. lia.
Defined.

Lemma generate_report_trace (strikes call_prices put_prices : list num) (g : greeks)
    (filename : string) (tr : list event) :
  (List.length strikes <= shortest call_prices put_prices g)%nat ->
  generate_report strikes call_prices put_prices g filename tr =
  (Ok tt, tr ++ report_prelude filename ++ header_events
             ++ flat_map (row_events call_prices put_prices g) (enumerate strikes)
             ++ report_tail filename).
Proof.
  intros H. rewrite report_start. unfold enumerate.
  rewrite report_rows_ok by (cbn [Nat.add]; exact H).
  rewrite <- !app_assoc. reflexivity.
Qed.

Lemma pricing_lists_cover (S : num) (strikes : list num) (T r sigma : num) (ot : string) :
  (List.length strikes <=
   shortest (map (fun k => black_scholes S k T r sigma "call") strikes)
     (map (fun k => black_scholes S k T r sigma "put") strikes)
     (calculate_greeks S strikes T r sigma ot))%nat.
Proof.
  unfold shortest. rewrite calculate_greeks_maps.
  cbn [greeks_items map snd fold_right Delta Gamma Theta Vega Rho].
  rewrite !length_map. lia.
Qed.

Lemma enumerate_length {A : Type} (xs : list A) :
  List.length (enumerate xs) = List.length xs.
Proof. unfold enumerate. rewrite length_combine, length_seq. lia. Qed.

(** X15: the report of prices and Greeks computed over the same strikes never
    raises, whatever the market inputs are: it writes eight cells per
    strike, none of the price and Greek cells NaN, and closes the
    workbook. *)
Theorem report_of_pricing_succeeds (S : num) (strikes : list num) (T r sigma : num)
    (ot : string) (filename : string) :
  exists rows,
    generate_report strikes
      (map (fun k => black_scholes S k T r sigma "call") strikes)
      (map (fun k => black_scholes S k T r sigma "put") strikes)
      (calculate_greeks S strikes T r sigma ot) filename [] =
    (Ok tt, report_prelude filename ++ header_events ++ rows ++ report_tail filename)
    /\ List.length rows = (8 * List.length strikes)%nat
    /\ Forall clean_cell rows.
Proof.
  eexists. split.
  - rewrite generate_report_trace by apply pricing_lists_cover. reflexivity.
  - destruct (row_events_facts (map (fun k => black_scholes S k T r sigma "call") strikes)
                (map (fun k => black_scholes S k T r sigma "put") strikes)
                (calculate_greeks S strikes T r sigma ot) (enumerate strikes))
      as (Hl & _ & Hc).
    split; [rewrite Hl, enumerate_length; reflexivity | exact Hc].
Qed.

(** ** [get_current_stock_price], [np.linspace] and the valuation of [main] *)

(** A row of the calls or puts table of an option chain. *)
Record contract : Type := mkContract {
  strike : num;
  impliedVolatility : num
}.

(** [ticker.option_chain(date)] *)
Record chain : Type := mkChain {
  calls : list contract;
  puts : list contract
}.

(** The parts of a yfinance ticker the program reads, each of which may
    raise: [ticker.history(period=p)], [ticker.options],
    [ticker.option_chain(date)] and [ticker.info['previousClose']]. *)
Record ticker : Type := mkTicker {
  history : string -> result hist_data;
  options : result (list string);
  option_chain : string -> result chain;
  previous_close : result num
}.

Definition get_current_stock_price (tk : ticker) : result num :=
  match history tk "1d" with
  | Raised e => Raised e
  | Ok h =>
      let stock_data := Close h in
      Ok (if series_empty stock_data then NaN else last stock_data NaN)
  end.

(** [xs[-1] = v] on a non-empty array. *)
Definition set_last (xs : list num) (v : num) : list num :=
  match xs with
  | [] => []
  | _ :: _ => removelast xs ++ [v]
  end.

(** [np.linspace(start, stop, num)] with the default [endpoint=True]:
    [arange(0, num) * step + start] with [step = (stop - start) / (num - 1)]
    (computed as [arange / div * delta] when the step is 0), the last
    element then overwritten with [stop]. *)
Definition np_linspace (start stop : num) (n : nat) : list num :=
  let div := (n - 1)%nat in
  let delta := nsub stop start in
  let y :=
    if (0 <? div)%nat
    then
      let step := ndiv delta (Fin (INR div)) in
      if is_zero step
      then map (fun i => nmul (ndiv (Fin (INR i)) (Fin (INR div))) delta) (seq 0 n)
      else map (fun i => nmul (Fin (INR i)) step) (seq 0 n)
    else map (fun i => nmul (Fin (INR i)) delta) (seq 0 n) in
  let y := map (fun v => nadd v start) y in
  if (1 <? n)%nat then set_last y stop else y.

(** The valuation part of [main], from the line that computes [T] on:
    [days] is [(datetime(2024, 4, 26) - datetime.now()).days], the other
    arguments are the values fetched before.  The call of
    [plot_option_prices] is recorded as one event. *)
Definition main_valuation (current_price implied_volatility annualized_volatility
    risk_free_rate : num) (days : Z) : IO unit :=
  let T := ndiv (Fin (IZR days)) (Fin (36525 / 100)) in
  let r := risk_free_rate in
  let sigma := if negb (isnan implied_volatility) then implied_volatility
               else annualized_volatility in
  let strikes := np_linspace (nmul current_price (Fin (8 / 10)))
                             (nmul current_price (Fin (12 / 10))) 5 in
  let call_prices := map (fun k => black_scholes current_price k T r sigma "call") strikes in
  let put_prices := map (fun k => black_scholes current_price k T r sigma "put") strikes in
  let Greeks := calculate_greeks current_price strikes T r sigma "call" in
  emit (PrintPrices "Black-Scholes Call Option Prices: " call_prices) ;;~
  emit (PrintPrices "Black-Scholes Put Option Prices: " put_prices) ;;~
  emit (PlotOptionPrices strikes call_prices put_prices) ;;~
  generate_report strikes call_prices put_prices Greeks "enhanced_option_report.xlsx".

Lemma set_last_length (xs : list num) (v : num) :
  List.length (set_last xs v) = List.length xs.
Proof.
  destruct xs as [| x xs]; [reflexivity |]. unfold set_last.
  rewrite length_app, removelast_firstn_len, length_firstn.
  cbn [List.length]. lia.
Qed.

Lemma np_linspace_length (start stop : num) (n : nat) :
  List.length (np_linspace start stop n) = n.
Proof.
  unfold np_linspace.
  assert (Hy : forall y : list num, List.length y = n ->
                 List.length (if (1 <? n)%nat
                              then set_last (map (fun v => nadd v start) y) stop
                              else map (fun v => nadd v start) y) = n).
  { intros y Hy. destruct (1 <? n)%nat;
      rewrite ?set_last_length, length_map; exact Hy. }
  destruct (0 <? n - 1)%nat; [destruct (is_zero _) |];
    apply Hy; rewrite length_map, length_seq; reflexivity.
Qed.

(** X16: the five strikes of [main] are 0.8, 0.9, 1, 1.1 and 1.2 times the
    current price: the middle strike is at the money. *)
Theorem main_strikes (s : R) :
  np_linspace (nmul (Fin s) (Fin (8 / 10))) (nmul (Fin s) (Fin (12 / 10))) 5 =
  [Fin (s * (8 / 10)); Fin (s * (9 / 10)); Fin s; Fin (s * (11 / 10));
   Fin (s * (12 / 10))].
Proof.
  unfold np_linspace. cbn [Nat.sub Nat.ltb Nat.leb nmul nsub nneg nadd].
  rewrite ndiv_Fin by (cbn [INR]; lra).
  cbn [seq map INR].
  destruct (Req_dec s 0) as [-> | Hs].
  - rewrite is_zero_Fin_eq by (field; lra).
    cbn [map]. rewrite !ndiv_Fin by lra.
    cbn [nmul nadd map set_last removelast app].
    repeat (apply (f_equal2 cons); [apply f_equal; field |]). reflexivity.
  - rewrite is_zero_Fin_neq.
    2:{ intros H. apply Hs. field_simplify in H. lra. }
    cbn [nmul nadd map set_last removelast app].
    repeat (apply (f_equal2 cons); [apply f_equal; field |]). reflexivity.
Qed.

(** X17: the valuation of [main] never raises, whatever values were fetched:
    the five strikes give five rows of eight cells (sheet rows 2 to 6,
    the range the chart refers to), with no NaN in a price or Greek
    cell, and the strikes in column 0. *)
Theorem main_valuation_succeeds (current_price implied_volatility
    annualized_volatility risk_free_rate : num) (days : Z) :
  exists call_prices put_prices rows,
    main_valuation current_price implied_volatility annualized_volatility
      risk_free_rate days [] =
    (Ok tt,
     [PrintPrices "Black-Scholes Call Option Prices: " call_prices;
      PrintPrices "Black-Scholes Put Option Prices: " put_prices;
      PlotOptionPrices (np_linspace (nmul current_price (Fin (8 / 10)))
                                    (nmul current_price (Fin (12 / 10))) 5)
                       call_prices put_prices]
     ++ report_prelude "enhanced_option_report.xlsx" ++ header_events ++ rows
     ++ report_tail "enhanced_option_report.xlsx")
    /\ List.length call_prices = 5%nat
    /\ List.length put_prices = 5%nat
    /\ List.length rows = 40%nat
    /\ Forall clean_cell rows
    /\ (forall i strike,
          nth_error (np_linspace (nmul current_price (Fin (8 / 10)))
                                 (nmul current_price (Fin (12 / 10))) 5) i = Some strike ->
          In (Write (i + 1) 0 (Number strike) Money) rows).
Proof.
  unfold main_valuation.
  set (T := ndiv (Fin (IZR days)) (Fin (36525 / 100))).
  set (sigma := if negb (isnan implied_volatility) then implied_volatility
                else annualized_volatility).
  set (strikes := np_linspace (nmul current_price (Fin (8 / 10)))
                              (nmul current_price (Fin (12 / 10))) 5).
  assert (Hn : List.length strikes = 5%nat) by apply np_linspace_length.
  set (cp := map (fun k => black_scholes current_price k T risk_free_rate sigma "call")
               strikes).
  set (pp := map (fun k => black_scholes current_price k T risk_free_rate sigma "put")
               strikes).
  set (g := calculate_greeks current_price strikes T risk_free_rate sigma "call").
  exists cp, pp, (flat_map (row_events cp pp g) (enumerate strikes)).
  destruct (row_events_facts cp pp g (enumerate strikes)) as (Hl & _ & Hc).
  split; [| split; [| split; [| split; [| split]]]].
  - unfold io_bind at 1 2 3, emit at 1 2 3.
    unfold cp, pp, g. rewrite generate_report_trace by apply pricing_lists_cover.
    reflexivity.
  - unfold cp. rewrite length_map. exact Hn.
  - unfold pp. rewrite length_map. exact Hn.
  - rewrite Hl, enumerate_length, Hn. reflexivity.
  - exact Hc.
  - intros i strike Hi. apply in_flat_map. exists (i, strike). split.
    + apply (enumerate_In strikes strike 0 i Hi).
    + left. reflexivity.
Qed.

(** X18: when no current price is available (the one-day history is empty, or
    its last close is NaN), [get_current_stock_price] returns NaN without
    raising; every strike is then NaN, every call and put price is 0,
    and the report holds 0 in every price and Greek cell. *)
Theorem main_without_price (tk : ticker) (h : hist_data) (implied_volatility
    annualized_volatility risk_free_rate : num) (days : Z) :
  history tk "1d" = Ok h ->
  Close h = [] \/ isnan (last (Close h) NaN) = true ->
  get_current_stock_price tk = Ok NaN
  /\ main_valuation NaN implied_volatility annualized_volatility risk_free_rate days [] =
     (Ok tt,
      [PrintPrices "Black-Scholes Call Option Prices: " (repeat (Fin 0) 5);
       PrintPrices "Black-Scholes Put Option Prices: " (repeat (Fin 0) 5);
       PlotOptionPrices (repeat NaN 5) (repeat (Fin 0) 5) (repeat (Fin 0) 5)]
      ++ report_prelude "enhanced_option_report.xlsx" ++ header_events
      ++ flat_map (fun i => [Write (i + 1) 0 (Number NaN) Money;
                             Write (i + 1) 1 (Number (Fin 0)) Money;
                             Write (i + 1) 2 (Number (Fin 0)) Money;
                             Write (i + 1) 3 (Number (Fin 0)) Percent;
                             Write (i + 1) 4 (Number (Fin 0)) Percent;
                             Write (i + 1) 5 (Number (Fin 0)) Percent;
                             Write (i + 1) 6 (Number (Fin 0)) Percent;
                             Write (i + 1) 7 (Number (Fin 0)) Percent]) (seq 0 5)
      ++ report_tail "enhanced_option_report.xlsx").
Proof.
  intros Hh Hlast. split; [| reflexivity].
  unfold get_current_stock_price. rewrite Hh. cbv zeta.
  destruct Hlast as [-> | Hlast]; [reflexivity |].
  destruct (series_empty (Close h)); [reflexivity |].
  destruct (last (Close h) NaN); try discriminate. reflexivity.
Qed.

(** A ticker with no one-day history, no expiry and no previous close. *)
Definition ticker_without_data : ticker :=
  mkTicker (fun _ => Ok (mkHist [])) (Ok []) (fun _ => Raised "Expiration not found")
           (Raised "previousClose").

Lemma main_without_price_witness :
  get_current_stock_price ticker_without_data = Ok NaN
  /\ exists tr,
       main_valuation NaN (Fin (3 / 10)) (Fin (2 / 10)) (Fin (2 / 100)) 30 [] = (Ok tt, tr)
       /\ In (Write 3 1 (Number (Fin 0)) Money) tr.
Proof.
  destruct (main_without_price ticker_without_data (mkHist []) (Fin (3 / 10))
              (Fin (2 / 10)) (Fin (2 / 100)) 30 eq_refl (or_introl eq_refl))
    as [Hprice Hrun].
  split; [exact Hprice |].
  eexists. split; [exact Hrun |]. cbn. tauto.
Defined.

(** ** [get_implied_volatility] *)

(** [a == b] on numbers: NaN equals nothing. *)
Definition num_eqb (a b : num) : bool :=
  match a, b with
  | Fin x, Fin y => if Req_dec_T x y then true else false
  | PInf, PInf | NInf, NInf => true
  | _, _ => false
  end.

(** [Series.mean()]: the mean of the entries that are not NaN, NaN when
    there is none. *)
Definition pd_mean (xs : list num) : num :=
  let ys := dropna xs in
  if series_empty ys then NaN else ndiv (nsum ys) (Fin (INR (List.length ys))).

(** [table[table['strike'] == k]] *)
Definition at_strike (k : num) (table : list contract) : list contract :=
  filter (fun c => num_eqb (strike c) k) table.

(** [table.empty] *)
Definition table_empty (table : list contract) : bool :=
  match table with
  | [] => true
  | _ :: _ => false
  end.

(** Python's [round] on a float: the nearest integer, a tie going to the
    even one; NaN and the infinities raise. *)
Definition round_half_even (x : num) : result num :=
  match x with
  | NaN => Raised "cannot convert float NaN to integer"
  | PInf | NInf => Raised "cannot convert float infinity to integer"
  | Fin r =>
      let n := (up r - 1)%Z in
      let f := r - IZR n in
      Ok (Fin (IZR (if Rlt_dec f (1 / 2) then n
                    else if Rlt_dec (1 / 2) f then (n + 1)%Z
                    else if Z.even n then n else (n + 1)%Z)))
  end.

Section ImpliedVolatility.

(** The library calls of the estimator, Python's [round], and
    [fetch_historical_data]. *)
Variables Model Fitted : Type.
Variable pct_change : list num -> list num.
Variable np_std : list num -> num.
Variable arch_model : list num -> result Model.
Variable fit : Model -> result Fitted.
Variable forecast_variance : Fitted -> result num.
Variable py_round : num -> result num.
Variable fetch_historical_data : string -> result hist_data.

Definition get_implied_volatility (tk : ticker) (ticker_symbol : string)
    (target_date : option string) : M num :=
  target_date <-
    match target_date with
    | None =>
        dates <- lift (options tk) ;;
        lift (match dates with
              | [] => Raised "tuple index out of range"
              | d :: _ => Ok d
              end)
    | Some d => ret d
    end ;;
  options_data <- lift (option_chain tk target_date) ;;
  pc <- lift (previous_close tk) ;;
  k <- lift (py_round pc) ;;
  let atm_calls := at_strike k (calls options_data) in
  pc' <- lift (previous_close tk) ;;
  k' <- lift (py_round pc') ;;
  let atm_puts := at_strike k' (puts options_data) in
  if table_empty atm_calls || table_empty atm_puts
     || isnan (pd_mean (map impliedVolatility atm_calls))
  then
    logging WARNING
      (Msg "Implied volatility unavailable, defaulting to historical volatility.") ;;;
    h <- lift (fetch_historical_data ticker_symbol) ;;
    calculate_annualized_volatility Model Fitted pct_change np_std arch_model fit
      forecast_variance h
  else
    let iv := ndiv (nadd (pd_mean (map impliedVolatility atm_calls))
                         (pd_mean (map impliedVolatility atm_puts))) (Fin 2) in
    logging INFO (MsgNum "Implied Volatility: " (nmul iv (Fin 100)) "%") ;;;
    ret iv.

End ImpliedVolatility.

Lemma pd_mean_all_nan (xs : list num) :
  Forall (fun x => isnan x = true) xs -> pd_mean xs = NaN.
Proof. intros H. unfold pd_mean. rewrite (dropna_all_nan xs H). reflexivity. Qed.

Section ImpliedVolatilityFacts.

Variables Model Fitted : Type.
Variable pct_change : list num -> list num.
Variable np_std : list num -> num.
Variable arch_model : list num -> result Model.
Variable fit : Model -> result Fitted.
Variable forecast_variance : Fitted -> result num.
Variable py_round : num -> result num.
Variable fetch_historical_data : string -> result hist_data.

Local Abbreviation implied :=
  (get_implied_volatility Model Fitted pct_change np_std arch_model fit
     forecast_variance py_round fetch_historical_data).
Local Abbreviation historical :=
  (calculate_annualized_volatility Model Fitted pct_change np_std arch_model fit
     forecast_variance).

Definition unavailable_record : log_record :=
  (WARNING, Msg "Implied volatility unavailable, defaulting to historical volatility.").

(** The function once the chain and the rounded previous close are
    known. *)
Lemma implied_run (tk : ticker) (symbol : string) (date : string)
    (data : chain) (pc k : num) (l : list log_record) :
  option_chain tk date = Ok data ->
  previous_close tk = Ok pc ->
  py_round pc = Ok k ->
  implied tk symbol (Some date) l =
  if table_empty (at_strike k (calls data)) || table_empty (at_strike k (puts data))
     || isnan (pd_mean (map impliedVolatility (at_strike k (calls data))))
  then
    match fetch_historical_data symbol with
    | Ok h => historical h (l ++ [unavailable_record])
    | Raised e => (Raised e, l ++ [unavailable_record])
    end
  else
    let iv := ndiv (nadd (pd_mean (map impliedVolatility (at_strike k (calls data))))
                         (pd_mean (map impliedVolatility (at_strike k (puts data)))))
                   (Fin 2) in
    (Ok iv, l ++ [(INFO, MsgNum "Implied Volatility: " (nmul iv (Fin 100)) "%")]).
Proof.
  intros Hchain Hpc Hk. unfold get_implied_volatility, bind, lift, ret, logging.
  rewrite Hchain, Hpc, Hk.
  destruct (table_empty (at_strike k (calls data)) || table_empty (at_strike k (puts data))
            || isnan (pd_mean (map impliedVolatility (at_strike k (calls data))))).
  - destruct (fetch_historical_data symbol); reflexivity.
  - reflexivity.
Qed.

(** X19: when there is no call or no put at the rounded previous close, or
    no such call has an implied volatility, the function logs a warning
    and returns what [calculate_annualized_volatility] returns on the
    fetched history (an exception of the fetch propagates). *)
Theorem implied_volatility_fallback (tk : ticker) (symbol date : string)
    (data : chain) (pc k : num) (l : list log_record) :
  option_chain tk date = Ok data ->
  previous_close tk = Ok pc ->
  py_round pc = Ok k ->
  at_strike k (calls data) = [] \/ at_strike k (puts data) = []
  \/ Forall (fun c => isnan (impliedVolatility c) = true) (at_strike k (calls data)) ->
  implied tk symbol (Some date) l =
  match fetch_historical_data symbol with
  | Ok h => historical h (l ++ [unavailable_record])
  | Raised e => (Raised e, l ++ [unavailable_record])
  end.
Proof.
  intros Hchain Hpc Hk H. rewrite (implied_run tk symbol date data pc k l Hchain Hpc Hk).
  assert (G : table_empty (at_strike k (calls data))
              || table_empty (at_strike k (puts data))
              || isnan (pd_mean (map impliedVolatility (at_strike k (calls data))))
              = true).
  { destruct H as [H | [H | H]].
    - rewrite H. reflexivity.
    - rewrite H. cbn [table_empty]. rewrite orb_true_r. reflexivity.
    - rewrite pd_mean_all_nan; [rewrite orb_true_r; reflexivity |].
      rewrite Forall_map. exact H. }
  rewrite G. reflexivity.
Qed.

(** X20: when there are calls and puts at the rounded previous close and the
    mean implied volatility of the calls is a number, the function
    returns the average of the two means and never looks at the price
    history; the puts are not tested, so if none of them has an implied
    volatility the result is NaN. *)
Theorem implied_volatility_quote (tk : ticker) (symbol date : string)
    (data : chain) (pc k : num) (l : list log_record) :
  option_chain tk date = Ok data ->
  previous_close tk = Ok pc ->
  py_round pc = Ok k ->
  at_strike k (calls data) <> [] -> at_strike k (puts data) <> [] ->
  isnan (pd_mean (map impliedVolatility (at_strike k (calls data)))) = false ->
  let iv := ndiv (nadd (pd_mean (map impliedVolatility (at_strike k (calls data))))
                       (pd_mean (map impliedVolatility (at_strike k (puts data)))))
                 (Fin 2) in
  implied tk symbol (Some date) l =
  (Ok iv, l ++ [(INFO, MsgNum "Implied Volatility: " (nmul iv (Fin 100)) "%")])
  /\ (Forall (fun c => isnan (impliedVolatility c) = true) (at_strike k (puts data)) ->
      iv = NaN).
Proof.
  intros Hchain Hpc Hk Hc Hp Hm. cbv zeta. split.
  - rewrite (implied_run tk symbol date data pc k l Hchain Hpc Hk).
    destruct (at_strike k (calls data)) as [| c cs]; [contradiction |].
    destruct (at_strike k (puts data)) as [| p ps]; [contradiction |].
    cbn [table_empty orb]. rewrite Hm. reflexivity.
  - intros Hnan. rewrite (pd_mean_all_nan (map impliedVolatility (at_strike k (puts data)))).
    + destruct (pd_mean (map impliedVolatility (at_strike k (calls data)))); reflexivity.
    + rewrite Forall_map. exact Hnan.
Qed.

(** X21: without a target date the first expiry of the ticker is used; a
    ticker with no expiry makes the function raise IndexError: the
    fallback to the historical volatility does not cover it.  An
    exception of [option_chain] propagates in the same way. *)
Theorem implied_volatility_default_date (tk : ticker) (symbol : string)
    (l : list log_record) :
  (options tk = Ok [] ->
   implied tk symbol None l = (Raised "tuple index out of range", l))
  /\ (forall d ds, options tk = Ok (d :: ds) ->
        implied tk symbol None l = implied tk symbol (Some d) l)
  /\ (forall d e, option_chain tk d = Raised e ->
        implied tk symbol (Some d) l = (Raised e, l)).
Proof.
  split; [| split].
  - intros H. unfold get_implied_volatility, bind, lift, ret. rewrite H. reflexivity.
  - intros d ds H. unfold get_implied_volatility, bind, lift, ret. rewrite H.
    reflexivity.
  - intros d e H. unfold get_implied_volatility, bind, lift, ret. rewrite H.
    reflexivity.
Qed.

End ImpliedVolatilityFacts.

(** *** Example tickers *)

Lemma num_eqb_Fin_refl (x : R) : num_eqb (Fin x) (Fin x) = true.
Proof. unfold num_eqb. destruct (Req_dec_T x x); [reflexivity | contradiction]. Qed.

Lemma round_half_even_integer (n : Z) :
  round_half_even (Fin (IZR n)) = Ok (Fin (IZR n)).
Proof.
  unfold round_half_even.
  assert (Hup : up (IZR n) = (n + 1)%Z).
  { symmetry. apply tech_up; rewrite plus_IZR; lra. }
  rewrite Hup. replace (n + 1 - 1)%Z with n by lia.
  destruct (Rlt_dec (IZR n - IZR n) (1 / 2)) as [_ | H]; [reflexivity | lra].
Qed.

(** A ticker that closed at 100, with a call at that strike and no put
    at all. *)
Definition ticker_without_puts : ticker :=
  mkTicker (fun _ => Raised "No data found") (Ok ["2024-04-26"%string])
           (fun _ => Ok (mkChain [mkContract (Fin 100) (Fin (1 / 5))] []))
           (Ok (Fin 100)).

(** A ticker that closed at 100, with a call at that strike quoted at
    20% and a put at that strike with no quote. *)
Definition ticker_without_put_quote : ticker :=
  mkTicker (fun _ => Raised "No data found") (Ok ["2024-04-26"%string])
           (fun _ => Ok (mkChain [mkContract (Fin 100) (Fin (1 / 5))]
                                 [mkContract (Fin 100) NaN]))
           (Ok (Fin 100)).

Lemma implied_volatility_fallback_witness :
  get_implied_volatility unit unit pct_change_plain population_std arch_model_checked
    fit_plain (forecast_plain (Fin 4)) round_half_even (fun _ => Raised "No data found")
    ticker_without_puts "NVDA" (Some "2024-04-26"%string) []
  = (Raised "No data found", [unavailable_record]).
Proof.
  apply (implied_volatility_fallback unit unit pct_change_plain population_std
           arch_model_checked fit_plain (forecast_plain (Fin 4)) round_half_even
           (fun _ => Raised "No data found") ticker_without_puts "NVDA" "2024-04-26"
           (mkChain [mkContract (Fin 100) (Fin (1 / 5))] []) (Fin 100) (Fin 100) []).
  - reflexivity.
  - reflexivity.
  - apply (round_half_even_integer 100).
  - right. left. reflexivity.
Defined.

Lemma implied_volatility_quote_witness :
  fst (get_implied_volatility unit unit pct_change_plain population_std
         arch_model_checked fit_plain (forecast_plain (Fin 4)) round_half_even
         (fun _ => Raised "No data found")
         ticker_without_put_quote "NVDA" (Some "2024-04-26"%string) [])
  = Ok NaN.
Proof.
  assert (Hc : at_strike (Fin 100) [mkContract (Fin 100) (Fin (1 / 5))]
               = [mkContract (Fin 100) (Fin (1 / 5))]).
  { unfold at_strike. cbn [filter strike]. rewrite num_eqb_Fin_refl. reflexivity. }
  assert (Hp : at_strike (Fin 100) [mkContract (Fin 100) NaN]
               = [mkContract (Fin 100) NaN]).
  { unfold at_strike. cbn [filter strike]. rewrite num_eqb_Fin_refl. reflexivity. }
  assert (Hm : pd_mean [Fin (1 / 5)] = Fin ((0 + 1 / 5) / 1)).
  { unfold pd_mean. cbn [dropna filter isnan negb series_empty List.length INR nsum
                          fold_left nadd].
    apply ndiv_Fin. lra. }
  destruct (implied_volatility_quote unit unit pct_change_plain population_std
              arch_model_checked fit_plain (forecast_plain (Fin 4)) round_half_even
              (fun _ => Raised "No data found") ticker_without_put_quote "NVDA"
              "2024-04-26"
              (mkChain [mkContract (Fin 100) (Fin (1 / 5))] [mkContract (Fin 100) NaN])
              (Fin 100) (Fin 100) [] eq_refl eq_refl (round_half_even_integer 100))
    as [Hrun Hnan].
  - cbn [calls]. rewrite Hc. discriminate.
  - cbn [puts]. rewrite Hp. discriminate.
  - cbn [calls]. rewrite Hc. cbn [map impliedVolatility]. rewrite Hm. reflexivity.
  - rewrite Hrun. cbn [fst]. rewrite Hnan; [reflexivity |].
    cbn [puts]. rewrite Hp. constructor; [reflexivity | constructor].
Defined.

(** ** The forecast of the GARCH model *)

Section GarchForecast.

Variables Model Fitted : Type.
Variable pct_change : list num -> list num.
Variable np_std : list num -> num.
Variable arch_model : list num -> result Model.
Variable fit : Model -> result Fitted.
Variable forecast_variance : Fitted -> result num.

(** X22: with more than thirty returns and a model that is built, fitted and
    forecast without an exception, the estimator returns
    sqrt(variance) / 100 * sqrt(252) of the forecast variance and logs
    it; the standard deviation is not used.  A variance that is NaN or
    negative gives NaN, again without the fallback. *)
Theorem garch_forecast_is_returned (h : hist_data) (l : list log_record)
    (m : Model) (f : Fitted) (fv : num) :
  (30 < List.length (daily_returns_of pct_change h))%nat ->
  arch_model (map (fun x => nmul x scale) (daily_returns_of pct_change h)) = Ok m ->
  fit m = Ok f ->
  forecast_variance f = Ok fv ->
  let v := nmul (ndiv (nsqrt fv) scale) (nsqrt (Fin 252)) in
  calculate_annualized_volatility Model Fitted pct_change np_std arch_model fit
    forecast_variance h l =
  (Ok v, l ++ [(INFO, MsgNum "GARCH Estimated Annualized Volatility: " v "%")])
  /\ (forall x, fv = Fin x -> 0 <= x -> v = Fin (sqrt x / 100 * sqrt 252))
  /\ (fv = NaN \/ (exists x, fv = Fin x /\ x < 0) -> v = NaN).
Proof.
  intros Hlen Hm Hf Hv. cbv zeta. split; [| split].
  - rewrite estimate_long by exact Hlen.
    rewrite (garch_run Model Fitted arch_model fit forecast_variance _ l m Hm).
    rewrite Hf, Hv. reflexivity.
  - intros x -> Hx. rewrite nsqrt_Fin by exact Hx. unfold scale.
    rewrite ndiv_Fin by lra. rewrite nsqrt_Fin by lra. reflexivity.
  - intros [-> | [x [-> Hx]]]; [reflexivity |].
    cbn [nsqrt]. rewrite sgn_neg by exact Hx. reflexivity.
Qed.

End GarchForecast.

Lemma garch_forecast_is_returned_witness :
  calculate_annualized_volatility unit unit pct_change_plain population_std
    arch_model_checked fit_plain (forecast_plain (Fin 4)) flat_history []
  = (Ok (Fin (sqrt 4 / 100 * sqrt 252)),
     [(INFO, MsgNum "GARCH Estimated Annualized Volatility: "
               (Fin (sqrt 4 / 100 * sqrt 252)) "%")]).
Proof.
  assert (Hlen : (30 < List.length (daily_returns_of pct_change_plain flat_history))%nat).
  { rewrite flat_history_returns, repeat_length. lia. }
  assert (Hm : arch_model_checked
                 (map (fun x => nmul x scale)
                    (daily_returns_of pct_change_plain flat_history)) = Ok tt).
  { rewrite flat_history_returns. unfold arch_model_checked.
    rewrite scaled_finite. reflexivity. }
  destruct (garch_forecast_is_returned unit unit pct_change_plain population_std
              arch_model_checked fit_plain (forecast_plain (Fin 4)) flat_history []
              tt tt (Fin 4) Hlen Hm eq_refl eq_refl) as (Hrun & Hval & _).
  rewrite Hrun. rewrite (Hval 4 eq_refl) by lra. reflexivity.
Defined.

(** ** [fetch_risk_free_rate] *)

Section RiskFreeRate.

(** The calls on the requests library and on the decoded answer, each of
    which may raise: [requests.get(url)], [response.raise_for_status()],
    [response.json()], the subscripts [v[key]] and [v[-1]], and
    [float(v)]. *)
Variables Response Value : Type.
Variable requests_get : string -> result Response.
Variable raise_for_status : Response -> result unit.
Variable response_json : Response -> result Value.
Variable getitem : Value -> string -> result Value.
Variable getitem_last : Value -> result Value.
Variable py_float : Value -> result num.

Definition fred_url (api_key : string) : string :=
  "https://api.stlouisfed.org/fred/series/observations?series_id=DTB3&api_key="
  ++ api_key ++ "&file_type=json".

(** The body of the [try] block. *)
Definition fetch_rate_try (url : string) : IO num :=
  response <~ io_lift (requests_get url) ;;
  io_lift (raise_for_status response) ;;~
  data <~ io_lift (response_json response) ;;
  observations <~ io_lift (getitem data "observations") ;;
  latest <~ io_lift (getitem_last observations) ;;
  value <~ io_lift (getitem latest "value") ;;
  latest_rate <~ io_lift (py_float value) ;;
  io_ret (ndiv latest_rate (Fin 100)).

Definition fetch_risk_free_rate (api_key : string) : IO num :=
  let url := fred_url api_key in
  io_try (fetch_rate_try url)
    (fun e =>
       emit (Print ("Error fetching the rate from FRED: " ++ e)) ;;~
       io_ret (Fin (2 / 100))).

(** The answer of the service read down to the number of its last
    observation. *)
Definition latest_rate_of (api_key : string) : result num :=
  match requests_get (fred_url api_key) with
  | Raised e => Raised e
  | Ok response =>
      match raise_for_status response with
      | Raised e => Raised e
      | Ok _ =>
          match response_json response with
          | Raised e => Raised e
          | Ok data =>
              match getitem data "observations" with
              | Raised e => Raised e
              | Ok observations =>
                  match getitem_last observations with
                  | Raised e => Raised e
                  | Ok latest =>
                      match getitem latest "value" with
                      | Raised e => Raised e
                      | Ok value => py_float value
                      end
                  end
              end
          end
      end
  end.

Lemma fetch_rate_try_run (api_key : string) (tr : list event) :
  fetch_rate_try (fred_url api_key) tr =
  match latest_rate_of api_key with
  | Ok x => (Ok (ndiv x (Fin 100)), tr)
  | Raised e => (Raised e, tr)
  end.
Proof.
  unfold fetch_rate_try, latest_rate_of, io_bind, io_lift, io_ret.
  destruct (requests_get (fred_url api_key)) as [response | e]; [| reflexivity].
  destruct (raise_for_status response) as [u | e]; [| reflexivity].
  destruct (response_json response) as [data | e]; [| reflexivity].
  destruct (getitem data "observations") as [observations | e]; [| reflexivity].
  destruct (getitem_last observations) as [latest | e]; [| reflexivity].
  destruct (getitem latest "value") as [value | e]; [| reflexivity].
  destruct (py_float value) as [x | e]; reflexivity.
Qed.

(** X23: [fetch_risk_free_rate] never raises.  It prints nothing and returns
    a hundredth of the latest observation when every step of the request
    succeeds; when any step raises it prints one line with the error and
    returns 0.02.  The answer is not range-checked: a NaN observation
    is returned as NaN. *)
Theorem risk_free_rate_never_raises (api_key : string) (tr : list event) :
  (exists v out, fetch_risk_free_rate api_key tr = (Ok v, tr ++ out))
  /\ (forall x, latest_rate_of api_key = Ok x ->
        fetch_risk_free_rate api_key tr = (Ok (ndiv x (Fin 100)), tr))
  /\ (forall e, latest_rate_of api_key = Raised e ->
        fetch_risk_free_rate api_key tr =
        (Ok (Fin (2 / 100)),
         tr ++ [Print ("Error fetching the rate from FRED: " ++ e)]))
  /\ (latest_rate_of api_key = Ok NaN ->
        fetch_risk_free_rate api_key tr = (Ok NaN, tr)).
Proof.
  assert (Hok : forall x, latest_rate_of api_key = Ok x ->
                  fetch_risk_free_rate api_key tr = (Ok (ndiv x (Fin 100)), tr)).
  { intros x Hx. unfold fetch_risk_free_rate, io_try.
    rewrite fetch_rate_try_run, Hx. reflexivity. }
  assert (Hraised : forall e, latest_rate_of api_key = Raised e ->
                      fetch_risk_free_rate api_key tr =
                      (Ok (Fin (2 / 100)),
                       tr ++ [Print ("Error fetching the rate from FRED: " ++ e)])).
  { intros e He. unfold fetch_risk_free_rate, io_try.
    rewrite fetch_rate_try_run, He. reflexivity. }
  split; [| split; [exact Hok | split; [exact Hraised |]]].
  - destruct (latest_rate_of api_key) as [x | e] eqn:E.
    + exists (ndiv x (Fin 100)), []. rewrite app_nil_r. apply Hok. reflexivity.
    + eexists. eexists. apply Hraised. reflexivity.
  - intros H. apply (Hok NaN H).
Qed.

End RiskFreeRate.

Lemma risk_free_rate_never_raises_witness :
  fetch_risk_free_rate unit unit (fun _ => Raised "503 Server Error")
    (fun _ => Ok tt) (fun _ => Ok tt) (fun _ _ => Ok tt) (fun _ => Ok tt)
    (fun _ => Ok (Fin 5)) "key" []
  = (Ok (Fin (2 / 100)),
     [Print "Error fetching the rate from FRED: 503 Server Error"]).
Proof.
  destruct (risk_free_rate_never_raises unit unit (fun _ => Raised "503 Server Error")
              (fun _ => Ok tt) (fun _ => Ok tt) (fun _ _ => Ok tt) (fun _ => Ok tt)
              (fun _ => Ok (Fin 5)) "key" []) as (_ & _ & Hraised & _).
  apply (Hraised "503 Server Error"%string). reflexivity.
Defined.


(** ** The Greeks at zero volatility *)

Lemma d1_of_zero_sigma (S K : num) (t : R) (r : num) :
  0 <= t -> d1_of S K (Fin t) r (Fin 0) = Fin 0.
Proof.
  intros Ht. unfold d1_of. apply safe_divide_zero.
  rewrite nsqrt_Fin by exact Ht. cbn [nmul]. apply is_zero_Fin_eq. ring.
Qed.

(** X24: at sigma = 0, where [black_scholes] returns the price 0, the Greeks
    are not 0: for a spot, a time T >= 0, a rate and strikes of at most
    2^100 in absolute value, with [r * T] of at most 512, every call
    Delta is 1/2 (put Delta -1/2), every Gamma is 0, Theta is
    -r * K * exp(-r * T) / 2, Vega is S * pdf(0) * sqrt(T) / 100 and Rho
    is plus or minus K * T * exp(-r * T) / 200. *)
Theorem greeks_at_zero_volatility (s t rr : R) (ks : list R) (ot : string) :
  0 <= t <= 2 ^ 100 ->
  Rabs s <= 2 ^ 100 -> Rabs rr <= 2 ^ 100 -> Rabs (rr * t) <= 512 ->
  Forall (fun k => Rabs k <= 2 ^ 100) ks ->
  calculate_greeks (Fin s) (map Fin ks) (Fin t) (Fin rr) (Fin 0) ot =
  mkGreeks (map (fun _ => Fin (if is_call ot then 1 / 2 else - (1 / 2))) ks)
           (map (fun _ => Fin 0) ks)
           (map (fun k => Fin (- (rr * k * exp (- rr * t) / 2))) ks)
           (map (fun _ => Fin (s * pdf_real 0 * sqrt t / 100)) ks)
           (map (fun k => Fin (k * t * exp (- rr * t)
                               * (if is_call ot then 1 / 2 else - (1 / 2)) / 100)) ks)
  /\ forall k, black_scholes (Fin s) (Fin k) (Fin t) (Fin rr) (Fin 0) ot = Fin 0.
Proof.
  intros [Ht _] _ _ _ _. split.
  - rewrite calculate_greeks_maps, !map_map.
    assert (Hq : nsqrt (Fin t) = Fin (sqrt t)) by (apply nsqrt_Fin; exact Ht).
    assert (Hd2 : d2_of (Fin 0) (Fin t) (Fin 0) = Fin 0).
    { unfold d2_of. rewrite Hq. cbn [nmul nsub nneg nadd]. f_equal. ring. }
    f_equal; apply map_ext; intros k.
    + rewrite delta_entry_eq by reflexivity. rewrite d1_of_zero_sigma by exact Ht.
      cbn [norm_cdf]. rewrite Phi_0.
      destruct (is_call ot); cbn [nsub nneg nadd]; f_equal; lra.
    + rewrite gamma_entry_eq by reflexivity. rewrite Hq. cbn [nmul].
      apply safe_divide_zero, is_zero_Fin_eq. ring.
    + rewrite theta_entry_eq by reflexivity. unfold theta_formula.
      rewrite d1_of_zero_sigma by exact Ht. rewrite Hd2, Hq.
      cbn [norm_pdf norm_cdf nmul nneg nexp]. rewrite Phi_0.
      destruct (Req_dec (2 * sqrt t) 0) as [Hz | Hz].
      * rewrite safe_divide_zero by (apply is_zero_Fin_eq; exact Hz).
        cbn [nsub nneg nadd]. f_equal. unfold Rdiv. ring.
      * rewrite safe_divide_Fin by exact Hz.
        cbn [nsub nneg nadd]. f_equal. unfold Rdiv. ring.
    + rewrite vega_entry_eq by reflexivity. rewrite d1_of_zero_sigma by exact Ht.
      rewrite Hq. cbn [norm_pdf nmul]. rewrite safe_divide_Fin by lra.
      reflexivity.
    + rewrite rho_entry_eq by reflexivity.
      rewrite d1_of_zero_sigma by exact Ht. rewrite Hd2.
      destruct (is_call ot); cbn [norm_cdf nmul nneg nexp];
        rewrite safe_divide_Fin by lra; rewrite ?Ropp_0, Phi_0; f_equal; field.
  - intros k. unfold black_scholes. cbn [isnan orb]. rewrite is_zero_0.
    reflexivity.
Qed.

Lemma greeks_at_zero_volatility_witness :
  Delta (calculate_greeks (Fin 100) (map Fin [150]) (Fin (1 / 2)) (Fin (2 / 100))
           (Fin 0) "call") = [Fin (1 / 2)]
  /\ black_scholes (Fin 100) (Fin 150) (Fin (1 / 2)) (Fin (2 / 100)) (Fin 0) "call"
     = Fin 0.
Proof.
  assert (Ht : 0 <= 1 / 2 <= 2 ^ 100) by lra.
  assert (Hs : Rabs 100 <= 2 ^ 100) by (rewrite Rabs_pos_eq; lra).
  assert (Hr : Rabs (2 / 100) <= 2 ^ 100) by (rewrite Rabs_pos_eq; lra).
  assert (Hrt : Rabs (2 / 100 * (1 / 2)) <= 512) by (rewrite Rabs_pos_eq; lra).
  assert (Hks : Forall (fun k => Rabs k <= 2 ^ 100) [150]).
  { repeat constructor. rewrite Rabs_pos_eq; lra. }
  destruct (greeks_at_zero_volatility 100 (1 / 2) (2 / 100) [150] "call"
              Ht Hs Hr Hrt Hks) as [Hg Hp].
  split; [rewrite Hg; reflexivity | apply Hp].
Defined.

(** ** A strike that is NaN *)

Lemma d1_of_nan_strike (s t rr sg : R) :
  0 <= t -> sg * sqrt t <> 0 ->
  d1_of (Fin s) NaN (Fin t) (Fin rr) (Fin sg) = NaN.
Proof.
  intros Ht Hden. unfold d1_of. rewrite nsqrt_Fin by exact Ht.
  cbn [ndiv nlog nadd nmul]. apply safe_divide_NaN. exact Hden.
Qed.

(** X27: the guard of the loop does not test the strike, but a NaN strike
    propagates through d1: for finite S, T > 0, r and sigma such that the
    denominators [sigma * np.sqrt(T)] and [S * sigma * np.sqrt(T)] do
    not underflow, each of the five Greeks is NaN at a NaN strike, and
    the strikes before and after it get the values they get without
    it. *)
Theorem greeks_nan_strike (s t rr sg : R) (ot : string) (Ks1 Ks2 : list num) :
  0 < t ->
  / 2 ^ 1000 <= Rabs sg * sqrt t ->
  / 2 ^ 1000 <= Rabs (s * sg) ->
  / 2 ^ 1000 <= Rabs (s * sg) * sqrt t ->
  let g1 := calculate_greeks (Fin s) Ks1 (Fin t) (Fin rr) (Fin sg) ot in
  let g2 := calculate_greeks (Fin s) Ks2 (Fin t) (Fin rr) (Fin sg) ot in
  calculate_greeks (Fin s) (Ks1 ++ NaN :: Ks2) (Fin t) (Fin rr) (Fin sg) ot =
  mkGreeks (Delta g1 ++ NaN :: Delta g2) (Gamma g1 ++ NaN :: Gamma g2)
           (Theta g1 ++ NaN :: Theta g2) (Vega g1 ++ NaN :: Vega g2)
           (Rho g1 ++ NaN :: Rho g2).
Proof.
  intros Ht Hden _ Hden'. cbv zeta.
  pose proof (sqrt_lt_R0 t Ht) as Hq.
  assert (H1 : sg * sqrt t <> 0).
  { intros E. assert (E' : sg = 0) by nra. subst sg.
    rewrite Rabs_R0, Rmult_0_l in Hden. lra. }
  assert (H2 : s * sg * sqrt t <> 0).
  { intros E. assert (E' : s * sg = 0) by nra. rewrite E', Rabs_R0, Rmult_0_l in Hden'.
    lra. }
  assert (Hs : nsqrt (Fin t) = Fin (sqrt t)) by (apply nsqrt_Fin; lra).
  assert (Hd1 : d1_of (Fin s) NaN (Fin t) (Fin rr) (Fin sg) = NaN)
    by (apply d1_of_nan_strike; [lra | exact H1]).
  assert (Ed : delta_entry (Fin s) (Fin t) (Fin rr) (Fin sg) ot NaN = NaN).
  { rewrite delta_entry_eq by reflexivity. rewrite Hd1.
    destruct (is_call ot); reflexivity. }
  assert (Eg : gamma_entry (Fin s) (Fin t) (Fin rr) (Fin sg) ot NaN = NaN).
  { rewrite gamma_entry_eq by reflexivity. rewrite Hd1, Hs.
    cbn [norm_pdf nmul]. apply safe_divide_NaN, H2. }
  assert (Et : theta_entry (Fin s) (Fin t) (Fin rr) (Fin sg) ot NaN = NaN).
  { rewrite theta_entry_eq by reflexivity. unfold theta_formula.
    rewrite Hd1, Hs. cbn [norm_pdf nmul].
    rewrite safe_divide_NaN by lra. reflexivity. }
  assert (Ev : vega_entry (Fin s) (Fin t) (Fin rr) (Fin sg) ot NaN = NaN).
  { rewrite vega_entry_eq by reflexivity. rewrite Hd1, Hs.
    cbn [norm_pdf nmul]. apply safe_divide_NaN. lra. }
  assert (Er : rho_entry (Fin s) (Fin t) (Fin rr) (Fin sg) ot NaN = NaN).
  { rewrite rho_entry_eq by reflexivity. cbn [nmul].
    apply safe_divide_NaN. lra. }
  rewrite !calculate_greeks_maps, !map_app.
  cbn [map Delta Gamma Theta Vega Rho].
  rewrite Ed, Eg, Et, Ev, Er. reflexivity.
Qed.

Lemma greeks_nan_strike_witness :
  Delta (calculate_greeks (Fin 100) ([Fin 80] ++ NaN :: [Fin 120]) (Fin 1)
           (Fin (2 / 100)) (Fin (2 / 10)) "call")
  = Delta (calculate_greeks (Fin 100) [Fin 80] (Fin 1) (Fin (2 / 100))
             (Fin (2 / 10)) "call")
    ++ NaN :: Delta (calculate_greeks (Fin 100) [Fin 120] (Fin 1) (Fin (2 / 100))
                       (Fin (2 / 10)) "call").
Proof.
  assert (Ht : 0 < 1) by lra.
  assert (H1 : / 2 ^ 1000 <= Rabs (2 / 10) * sqrt 1)
    by (rewrite sqrt_1, Rabs_pos_eq; lra).
  assert (H2 : / 2 ^ 1000 <= Rabs (100 * (2 / 10))) by (rewrite Rabs_pos_eq; lra).
  assert (H3 : / 2 ^ 1000 <= Rabs (100 * (2 / 10)) * sqrt 1)
    by (rewrite sqrt_1, Rabs_pos_eq; lra).
  rewrite (greeks_nan_strike 100 1 (2 / 100) (2 / 10) "call" [Fin 80] [Fin 120]
             Ht H1 H2 H3).
  reflexivity.
Defined.

(** ** [main] *)

(** The program as a whole both logs and calls the console and the
    workbook: its state is the log with the trace of calls. *)
Definition Prog (A : Type) : Type :=
  list log_record * list event -> result A * (list log_record * list event).

Definition prog_bind {A B : Type} (c : Prog A) (k : A -> Prog B) : Prog B :=
  fun w =>
    match c w with
    | (Ok a, w') => k a w'
    | (Raised e, w') => (Raised e, w')
    end.

Definition of_result {A : Type} (r : result A) : Prog A := fun w => (r, w).

Definition of_log {A : Type} (c : M A) : Prog A :=
  fun w => let (r, l') := c (fst w) in (r, (l', snd w)).

Definition of_io {A : Type} (c : IO A) : Prog A :=
  fun w => let (r, tr') := c (snd w) in (r, (fst w, tr')).

Notation "x <== c ;; k" := (prog_bind c (fun x => k))
  (at level 61, c at next level, right associativity).
Notation "c ;;= k" := (prog_bind c (fun _ => k))
  (at level 61, right associativity).

Section Main.

(** The library calls of the functions [main] uses, and [yf.Ticker]. *)
Variables Model Fitted : Type.
Variable pct_change : list num -> list num.
Variable np_std : list num -> num.
Variable arch_model : list num -> result Model.
Variable fit : Model -> result Fitted.
Variable forecast_variance : Fitted -> result num.
Variable py_round : num -> result num.
Variable fetch_historical_data : string -> result hist_data.
Variables Response Value : Type.
Variable requests_get : string -> result Response.
Variable raise_for_status : Response -> result unit.
Variable response_json : Response -> result Value.
Variable getitem : Value -> string -> result Value.
Variable getitem_last : Value -> result Value.
Variable py_float : Value -> result num.
Variable yf_Ticker : string -> ticker.

(** [main()]; [days] is [(datetime(2024, 4, 26) - datetime.now()).days]. *)
Definition main (days : Z) : Prog unit :=
  let api_key := "Enter your FRED API Key"%string in
  let ticker_symbol := "NVDA"%string in
  let ticker := yf_Ticker ticker_symbol in
  current_price <== of_result (get_current_stock_price ticker) ;;
  implied_volatility <==
    of_log (get_implied_volatility Model Fitted pct_change np_std arch_model fit
              forecast_variance py_round fetch_historical_data
              ticker ticker_symbol None) ;;
  hist <== of_result (fetch_historical_data ticker_symbol) ;;
  annualized_volatility <==
    of_log (calculate_annualized_volatility Model Fitted pct_change np_std arch_model
              fit forecast_variance hist) ;;
  of_io (emit (PrintNum "Annualized Volatility: " annualized_volatility ".2%" "")) ;;=
  of_io (emit (PrintNum "Current Stock Price: $" current_price ".2f" "")) ;;=
  of_io (emit (PrintNum "Implied Volatility: " (nmul implied_volatility (Fin 100))
                        ".2f" "%")) ;;=
  risk_free_rate <==
    of_io (fetch_risk_free_rate Response Value requests_get raise_for_status
             response_json getitem getitem_last py_float api_key) ;;
  of_io (emit (PrintNum "Risk-Free Rate: " risk_free_rate ".2%" "")) ;;=
  of_io (main_valuation current_price implied_volatility annualized_volatility
           risk_free_rate days).

Local Abbreviation implied :=
  (get_implied_volatility Model Fitted pct_change np_std arch_model fit
     forecast_variance py_round fetch_historical_data).
Local Abbreviation historical :=
  (calculate_annualized_volatility Model Fitted pct_change np_std arch_model fit
     forecast_variance).
Local Abbreviation rate :=
  (fetch_risk_free_rate Response Value requests_get raise_for_status response_json
     getitem getitem_last py_float).

Definition final_message : event :=
  Print "Report generated and saved as enhanced_option_report.xlsx".

Lemma fetch_risk_free_rate_run (api_key : string) (tr : list event) :
  exists v out,
    rate api_key tr = (Ok v, tr ++ out)
    /\ ~ In CloseWorkbook out /\ ~ In final_message out.
Proof.
  unfold fetch_risk_free_rate, io_try. rewrite fetch_rate_try_run.
  destruct (latest_rate_of _ _ _ _ _ _ _ _ _) as [x | e].
  - exists (ndiv x (Fin 100)), []. rewrite app_nil_r.
    split; [reflexivity | split; intros []].
  - eexists. eexists. split; [reflexivity |].
    split; intros [H | []]; discriminate.
Qed.

(** What the valuation part of [main] prints, plots and writes. *)
Definition valuation_events (current_price implied_volatility annualized_volatility
    risk_free_rate : num) (days : Z) : list event :=
  let T := ndiv (Fin (IZR days)) (Fin (36525 / 100)) in
  let sigma := if negb (isnan implied_volatility) then implied_volatility
               else annualized_volatility in
  let strikes := np_linspace (nmul current_price (Fin (8 / 10)))
                             (nmul current_price (Fin (12 / 10))) 5 in
  let call_prices :=
    map (fun k => black_scholes current_price k T risk_free_rate sigma "call") strikes in
  let put_prices :=
    map (fun k => black_scholes current_price k T risk_free_rate sigma "put") strikes in
  let Greeks := calculate_greeks current_price strikes T risk_free_rate sigma "call" in
  [PrintPrices "Black-Scholes Call Option Prices: " call_prices;
   PrintPrices "Black-Scholes Put Option Prices: " put_prices;
   PlotOptionPrices strikes call_prices put_prices]
  ++ report_prelude "enhanced_option_report.xlsx" ++ header_events
  ++ flat_map (row_events call_prices put_prices Greeks) (enumerate strikes)
  ++ report_tail "enhanced_option_report.xlsx".

Lemma main_valuation_run (current_price implied_volatility annualized_volatility
    risk_free_rate : num) (days : Z) (tr : list event) :
  main_valuation current_price implied_volatility annualized_volatility
    risk_free_rate days tr =
  (Ok tt, tr ++ valuation_events current_price implied_volatility
                  annualized_volatility risk_free_rate days).
Proof.
  unfold main_valuation, valuation_events.
  set (T := ndiv (Fin (IZR days)) (Fin (36525 / 100))).
  set (sigma := if negb (isnan implied_volatility) then implied_volatility
                else annualized_volatility).
  set (strikes := np_linspace (nmul current_price (Fin (8 / 10)))
                              (nmul current_price (Fin (12 / 10))) 5).
  set (cp := map (fun k => black_scholes current_price k T risk_free_rate sigma "call")
               strikes).
  set (pp := map (fun k => black_scholes current_price k T risk_free_rate sigma "put")
               strikes).
  set (g := calculate_greeks current_price strikes T risk_free_rate sigma "call").
  unfold io_bind at 1 2 3, emit at 1 2 3.
  unfold cp, pp, g. rewrite generate_report_trace by apply pricing_lists_cover.
  rewrite <- !app_assoc. reflexivity.
Qed.

Lemma valuation_events_end (current_price implied_volatility annualized_volatility
    risk_free_rate : num) (days : Z) :
  In CloseWorkbook (valuation_events current_price implied_volatility
                      annualized_volatility risk_free_rate days)
  /\ In final_message (valuation_events current_price implied_volatility
                         annualized_volatility risk_free_rate days).
Proof.
  unfold valuation_events. cbv zeta.
  split; do 4 (apply in_or_app; right); unfold report_tail, final_message;
    cbn [In]; tauto.
Qed.

(** X25: [main] either completes the report or raises before it has printed
    anything or opened the workbook (records in the log file apart).  It
    raises exactly when the one-day history, the implied volatility, the
    one-year history or the volatility estimator raises; the rate and
    the valuation never make it raise. *)
Theorem main_all_or_nothing (days : Z) :
  match main days ([], []) with
  | (Ok _, (_, out)) =>
      exists current_price implied_volatility annualized_volatility risk_free_rate
             rate_out,
        out = [PrintNum "Annualized Volatility: " annualized_volatility ".2%" "";
               PrintNum "Current Stock Price: $" current_price ".2f" "";
               PrintNum "Implied Volatility: " (nmul implied_volatility (Fin 100))
                        ".2f" "%"]
              ++ rate_out
              ++ [PrintNum "Risk-Free Rate: " risk_free_rate ".2%" ""]
              ++ valuation_events current_price implied_volatility
                   annualized_volatility risk_free_rate days
        /\ In CloseWorkbook out /\ In final_message out
  | (Raised e, (_, out)) =>
      out = []
      /\ (get_current_stock_price (yf_Ticker "NVDA") = Raised e
          \/ fst (implied (yf_Ticker "NVDA") "NVDA" None []) = Raised e
          \/ fetch_historical_data "NVDA" = Raised e
          \/ exists h l, fetch_historical_data "NVDA" = Ok h
                         /\ fst (historical h l) = Raised e)
  end.
Proof.
  unfold main, prog_bind, of_result, of_log. cbv zeta. cbn [fst snd].
  destruct (get_current_stock_price (yf_Ticker "NVDA")) as [cp | e]; cbv beta iota;
    [| split; [reflexivity | left; reflexivity]].
  destruct (implied (yf_Ticker "NVDA") "NVDA" None []) as [[iv | e] l1];
    cbv beta iota; cbn [fst snd];
    [| split; [reflexivity | right; left; reflexivity]].
  destruct (fetch_historical_data "NVDA") as [h | e] eqn:Eh; cbv beta iota;
    [| split; [reflexivity | right; right; left; reflexivity]].
  destruct (historical h l1) as [[av | e] l2] eqn:Ev; cbv beta iota; cbn [fst snd].
  2:{ split; [reflexivity |]. right. right. right.
      exists h, l1. rewrite Ev. split; reflexivity. }
  unfold of_io, emit. cbn [fst snd app].
  destruct (fetch_risk_free_rate_run "Enter your FRED API Key"
              [PrintNum "Annualized Volatility: " av ".2%" "";
               PrintNum "Current Stock Price: $" cp ".2f" "";
               PrintNum "Implied Volatility: " (nmul iv (Fin 100)) ".2f" "%"])
    as (rf & rate_out & -> & _).
  cbv beta iota. cbn [fst snd].
  rewrite main_valuation_run.
  destruct (valuation_events_end cp iv av rf days) as [Hc Hm].
  exists cp, iv, av, rf, rate_out.
  split; [rewrite <- !app_assoc; reflexivity |].
  split; apply in_or_app; right; assumption.
Qed.

End Main.
